(** * ALDOT traffic analytics: shallow embedding and verified properties

  The development follows the layout of the repository:
  - [Config]        constants of [app/config.py];
  - [Calculations]  [app/calculations.py]: danger score, clearance time,
                    work-zone correlation, crash clustering;
  - [Database]      [database.py]: the SQLite-backed incident store;
  - [Api]           [data/api.py]: the ingestion filter;
  - [Geometry]      the haversine distance of [app/calculations.py] and
                    [analysis.py];
  - [Main]          [app/main.py]: the period of the dashboard and the
                    period it is compared with;
  - [DangerRankings] [app/tabs/danger_rankings.py]: the danger table;
  - [Analysis]      [analysis.py]: duplicate reports of one incident.

  Conventions.  A pandas column is a list of cells; a missing cell
  (None / NaN / NaT / SQL NULL) is [None].  Integers are [Z].  Mile
  markers, coordinates of stored rows and durations are rationals [Q];
  the great-circle distance is written over an arithmetic and read in the
  exact reals and in IEEE binary64. *)

From Stdlib Require Import ZArith QArith Qabs Lia Lqa Ascii String Sorted.
From Stdlib Require Reals Qreals Lra PrimFloat Uint63 SpecFloat FloatOps FloatAxioms.
From stdpp Require Import base option list gmap strings.

#[local] Set Warnings "-level-tolerance,-clear-no-such-hyp,-register-all".

Local Open Scope string_scope.
Local Open Scope list_scope.
Local Open Scope Z_scope.

(** ** The incident record

    One row of the [traffic_events] table, which is also one row of the
    frame [query_events] hands to the analytics (the query only renames the
    columns).  [event_id] is the primary key; every other column is
    nullable in SQLite's storage model, the [NOT NULL] constraints of the
    schema being enforced by [Database.upsert_events].  Timestamps are
    seconds since the epoch (the ingestion writes them with second
    resolution). *)
Record event := Event {
  event_id : Z;
  category : option string;
  title : option string;
  location : option string;
  full_location : option string;
  description : option string;
  region : option string;
  severity : option string;
  county : option string;
  city : option string;
  road : option string;
  road_display : option string;
  road_type : option string;
  cross_street : option string;
  direction : option string;
  mile_marker : option Q;
  start_time : option Z;
  end_time : option Z;
  last_updated : option Z;
  active : option Z;
  start_latitude : option Q;
  start_longitude : option Q;
  end_latitude : option Q;
  end_longitude : option Q;
  lane_closures : option string
}.

#[global] Instance Q_eq_dec : EqDecision Q.
Proof. solve_decision. Defined.

#[global] Instance event_eq_dec : EqDecision event.
Proof. solve_decision. Defined.

(** ** Constants of [app/config.py] *)
Module Config.

(** [SEVERITY_WEIGHTS = {"Major": 3, "Moderate": 2, "Minor": 1}]; a dict
    iterates in insertion order, so it is kept as an association list. *)
Definition SEVERITY_WEIGHTS : list (string * Z) :=
  [("Major", 3); ("Moderate", 2); ("Minor", 1)].

Definition MIN_CLEARANCE_MINUTES : Q := 1%Q.
Definition MAX_CLEARANCE_MINUTES : Q := 1440%Q.

Definition MIN_CLUSTER_SIZE : nat := 3.

End Config.

(** ** [app/calculations.py] *)
Module Calculations.
Import Config.

(** *** Danger score *)

(** [severity_series == severity]: the boolean mask of the comparison; a
    missing severity compares unequal to every string. *)
Definition series_eq (severity_series : list (option string))
    (severity : string) : list bool :=
  map (λ v, bool_decide (v = Some severity)) severity_series.

(** [mask.sum()]: the number of [True] cells. *)
Definition mask_sum (mask : list bool) : Z :=
  foldr (λ (b : bool) acc, (if b then 1 else 0) + acc) 0 mask.

(** [[
    score = 0
    for severity, weight in SEVERITY_WEIGHTS.items():
        score += (severity_series == severity).sum() * weight
    return score
    ]] *)
Definition calculate_danger_score (severity_series : list (option string)) : Z :=
  fold_left
    (λ score '(severity, weight),
       score + mask_sum (series_eq severity_series severity) * weight)
    SEVERITY_WEIGHTS 0.

(** The number of cells of a series that hold the severity [sev]. *)
Definition severity_count (sev : string) (series : list (option string)) : Z :=
  Z.of_nat (length (filter (λ v, v = Some sev) series)).

(** A severity outside the weighted vocabulary (a missing one included). *)
Definition unweighted (v : option string) : Prop :=
  v ≠ Some "Major" ∧ v ≠ Some "Moderate" ∧ v ≠ Some "Minor".

Lemma mask_sum_series_eq series sev :
  mask_sum (series_eq series sev) = severity_count sev series.
Proof.
  unfold severity_count.
  induction series as [|v series IH]; [reflexivity|].
  cbn [series_eq map mask_sum foldr].
  fold (series_eq series sev). fold (mask_sum (series_eq series sev)).
  rewrite IH, filter_cons.
  case_bool_decide; destruct (decide _); try tauto; cbn [length]; lia.
Qed.

Lemma calculate_danger_score_counts series :
  calculate_danger_score series =
    3 * severity_count "Major" series
    + 2 * severity_count "Moderate" series
    + 1 * severity_count "Minor" series.
Proof.
  unfold calculate_danger_score, SEVERITY_WEIGHTS. cbn [fold_left].
  rewrite !mask_sum_series_eq. lia.
Qed.

Lemma severity_count_nonneg sev series : 0 ≤ severity_count sev series.
Proof. unfold severity_count. lia. Qed.

Lemma severity_count_app sev s1 s2 :
  severity_count sev (s1 ++ s2) = severity_count sev s1 + severity_count sev s2.
Proof. unfold severity_count. rewrite filter_app, length_app. lia. Qed.

Lemma severity_count_cons_ne sev v series :
  v ≠ Some sev → severity_count sev (v :: series) = severity_count sev series.
Proof.
  intros Hne. unfold severity_count. rewrite filter_cons.
  destruct (decide _); [tauto | reflexivity].
Qed.

(** C4.  The danger score of a series is
    3·count(Major) + 2·count(Moderate) + 1·count(Minor); a cell whose
    severity is outside the three weighted values contributes nothing
    wherever it stands; the empty series scores 0; and the score never
    decreases when none of the three counts decreases. *)
Theorem calculate_danger_score_spec :
  (∀ series,
      calculate_danger_score series =
        3 * severity_count "Major" series
        + 2 * severity_count "Moderate" series
        + 1 * severity_count "Minor" series)
  ∧ (∀ s1 v s2, unweighted v →
      calculate_danger_score (s1 ++ v :: s2) = calculate_danger_score (s1 ++ s2))
  ∧ calculate_danger_score [] = 0
  ∧ (∀ s1 s2,
      severity_count "Major" s1 ≤ severity_count "Major" s2 →
      severity_count "Moderate" s1 ≤ severity_count "Moderate" s2 →
      severity_count "Minor" s1 ≤ severity_count "Minor" s2 →
      calculate_danger_score s1 ≤ calculate_danger_score s2).
Proof.
  split; [exact calculate_danger_score_counts|].
  split.
  - intros s1 v s2 (HM & HMo & HMi).
    rewrite !calculate_danger_score_counts, !severity_count_app.
    rewrite !severity_count_cons_ne by assumption. reflexivity.
  - split; [reflexivity|].
    intros s1 s2 HM HMo HMi. rewrite !calculate_danger_score_counts. lia.
Qed.

(** A series on which every clause of [calculate_danger_score_spec] is
    exercised: two unweighted cells ("Closed" and a missing severity). *)
Lemma calculate_danger_score_spec_witness :
  calculate_danger_score
    [Some "Major"; Some "Closed"; Some "Minor"; None; Some "Major"] = 7
  ∧ calculate_danger_score ([Some "Major"] ++ Some "Closed" :: [Some "Minor"])
    = calculate_danger_score ([Some "Major"] ++ [Some "Minor"])
  ∧ calculate_danger_score [Some "Minor"]
    ≤ calculate_danger_score [Some "Minor"; Some "Moderate"].
Proof.
  destruct calculate_danger_score_spec as (Hcount & Hzero & _ & Hmono).
  split; [rewrite Hcount; reflexivity|].
  split.
  - apply Hzero. unfold unweighted. repeat split; discriminate.
  - apply Hmono; vm_compute; discriminate.
Defined.

(** *** Clearance time *)

(** [crashes.dropna(subset=["Start Time", "End Time"])], keeping of each
    surviving row the two timestamps the function goes on to read. *)
Definition row_times (r : event) : option (Z * Z) :=
  s ← start_time r; e ← end_time r; Some (s, e).

Definition dropna_times (crashes : list event) : list (Z * Z) :=
  omap row_times crashes.

(** [(end_times - start_times).dt.total_seconds() / 60] *)
Definition total_minutes (se : Z * Z) : Q :=
  (inject_Z (snd se - fst se) / 60)%Q.

Definition Qltb (x y : Q) : bool := negb (Qle_bool y x).

(** [(durations > MIN_CLEARANCE_MINUTES) & (durations < MAX_CLEARANCE_MINUTES)] *)
Definition clearance_mask (d : Q) : bool :=
  Qltb MIN_CLEARANCE_MINUTES d && Qltb d MAX_CLEARANCE_MINUTES.

Definition Qsum (ds : list Q) : Q := foldr Qplus 0%Q ds.

(** [Series.mean()] of a non-empty series. *)
Definition mean (ds : list Q) : Q :=
  (Qsum ds / inject_Z (Z.of_nat (length ds)))%Q.

(** [calculate_avg_clearance_minutes]; the argument may be [None] (the
    previous-period frame).  The timestamp columns are datetime columns
    ([query_events] parses them), so [pd.to_datetime] cannot raise and the
    [except] branch has no counterpart here. *)
Definition calculate_avg_clearance_minutes (crashes : option (list event))
    : option Q :=
  match crashes with
  | None | Some [] => None
  | Some crashes =>
      match dropna_times crashes with
      | [] => None
      | crashes_with_times =>
          let durations := map total_minutes crashes_with_times in
          match List.filter clearance_mask durations with
          | [] => None
          | valid_durations => Some (mean valid_durations)
          end
      end
  end.

(** The duration of one incident, when it has both timestamps. *)
Definition duration_minutes (r : event) : option Q :=
  match start_time r, end_time r with
  | Some s, Some e => Some (inject_Z (e - s) / 60)%Q
  | _, _ => None
  end.

(** Strictly between the two bounds. *)
Definition within_clearance_bounds (d : Q) : Prop :=
  (1 < d)%Q ∧ (d < 1440)%Q.

(** The durations the average is taken over, as the specification words
    it: those of the incidents that have both timestamps, kept when within
    the bounds. *)
Definition surviving_durations (crashes : list event) : list Q :=
  List.filter clearance_mask (omap duration_minutes crashes).

Lemma durations_dropna crashes :
  map total_minutes (dropna_times crashes) = omap duration_minutes crashes.
Proof.
  unfold dropna_times.
  induction crashes as [|r crashes IH]; [reflexivity|].
  cbn [omap list_omap]. unfold row_times at 1, duration_minutes at 1.
  destruct (start_time r) as [s|], (end_time r) as [e|]; cbn; rewrite <- ?IH;
    reflexivity.
Qed.

Lemma Qltb_lt x y : Qltb x y = true ↔ (x < y)%Q.
Proof.
  unfold Qltb. rewrite negb_true_iff, <- not_true_iff_false, Qle_bool_iff.
  split; [apply Qnot_le_lt | apply Qlt_not_le].
Qed.

Lemma clearance_mask_bounds d :
  clearance_mask d = true ↔ within_clearance_bounds d.
Proof.
  unfold clearance_mask, within_clearance_bounds,
    MIN_CLEARANCE_MINUTES, MAX_CLEARANCE_MINUTES.
  rewrite andb_true_iff, !Qltb_lt. reflexivity.
Qed.

(** What the function returns, in terms of the surviving durations. *)
Lemma calculate_avg_clearance_minutes_unfold crashes :
  calculate_avg_clearance_minutes (Some crashes) =
    match surviving_durations crashes with
    | [] => None
    | ds => Some (mean ds)
    end.
Proof.
  unfold calculate_avg_clearance_minutes, surviving_durations.
  rewrite <- durations_dropna.
  destruct crashes as [|r crashes]; [reflexivity|].
  destruct (dropna_times (r :: crashes)); reflexivity.
Qed.

Lemma elem_of_surviving_durations crashes d :
  d ∈ surviving_durations crashes ↔
    ∃ r, r ∈ crashes ∧ duration_minutes r = Some d ∧ within_clearance_bounds d.
Proof.
  unfold surviving_durations.
  rewrite list_elem_of_In, filter_In, <- list_elem_of_In, list_elem_of_omap,
    clearance_mask_bounds.
  split.
  - intros [(r & Hr & Hd) Hin]. exists r. auto.
  - intros (r & Hr & Hd & Hin). split; [exists r|]; auto.
Qed.

(** The sum of a non-empty series whose cells lie strictly between [lo] and
    [hi] lies strictly between [n·lo] and [n·hi]. *)
Lemma Qsum_bounds lo hi d ds :
  (∀ x, x ∈ d :: ds → (lo < x)%Q ∧ (x < hi)%Q) →
  (inject_Z (Z.of_nat (length (d :: ds))) * lo < Qsum (d :: ds))%Q
  ∧ (Qsum (d :: ds) < inject_Z (Z.of_nat (length (d :: ds))) * hi)%Q.
Proof.
  revert d. induction ds as [|d' ds IH]; intros d Hall.
  - destruct (Hall d) as [Hlo Hhi]; [left|].
    cbn [length Qsum foldr]. change (inject_Z (Z.of_nat 1)) with 1%Q.
    split; lra.
  - destruct (Hall d) as [Hlo Hhi]; [left|].
    destruct (IH d') as [IHlo IHhi].
    { intros x Hx. apply Hall. right. exact Hx. }
    change (Qsum (d :: d' :: ds)) with (d + Qsum (d' :: ds))%Q.
    change (length (d :: d' :: ds)) with (S (length (d' :: ds))).
    rewrite Nat2Z.inj_succ. unfold Z.succ. rewrite inject_Z_plus.
    change (inject_Z 1) with 1%Q.
    split; lra.
Qed.

Lemma mean_bounds lo hi d ds :
  (∀ x, x ∈ d :: ds → (lo < x)%Q ∧ (x < hi)%Q) →
  (lo < mean (d :: ds))%Q ∧ (mean (d :: ds) < hi)%Q.
Proof.
  intros Hall. destruct (Qsum_bounds lo hi d ds Hall) as [Hlo Hhi].
  unfold mean.
  assert (Hn : (0 < inject_Z (Z.of_nat (length (d :: ds))))%Q).
  { change 0%Q with (inject_Z 0). rewrite <- Zlt_Qlt. cbn [length]. lia. }
  split.
  - apply Qlt_shift_div_l; [exact Hn|]. lra.
  - apply Qlt_shift_div_r; [exact Hn|]. lra.
Qed.

(** C3.  For every incident collection the estimator returns the arithmetic
    mean of the durations (end minus start, in minutes) of the incidents
    that have both timestamps and whose duration is strictly between 1 and
    1440 minutes.  It returns [None] exactly when the collection is empty,
    or no row has both timestamps, or every computed duration is outside
    the bounds; a returned number lies strictly between 1 and 1440, so it
    is never zero.  No collection at all ([None]) also gives [None]. *)
Theorem calculate_avg_clearance_minutes_spec (crashes : list event) :
  calculate_avg_clearance_minutes None = None
  ∧ (calculate_avg_clearance_minutes (Some crashes) = None ↔
       crashes = []
       ∨ (∀ r, r ∈ crashes → start_time r = None ∨ end_time r = None)
       ∨ (∀ r d, r ∈ crashes → duration_minutes r = Some d →
            ¬ within_clearance_bounds d))
  ∧ (∀ m, calculate_avg_clearance_minutes (Some crashes) = Some m →
       m = mean (surviving_durations crashes)
       ∧ (∀ d, d ∈ surviving_durations crashes ↔
            ∃ r, r ∈ crashes ∧ duration_minutes r = Some d
                 ∧ within_clearance_bounds d)
       ∧ (1 < m)%Q ∧ (m < 1440)%Q ∧ ¬ (m == 0)%Q).
Proof.
  split; [reflexivity|].
  rewrite calculate_avg_clearance_minutes_unfold.
  split.
  - split.
    + intros Hnone. right; right. intros r d Hr Hd Hin.
      assert (Hmem : d ∈ surviving_durations crashes).
      { apply elem_of_surviving_durations. eauto. }
      destruct (surviving_durations crashes); [|discriminate].
      inversion Hmem.
    + intros Hcases.
      assert (Hall : ∀ r d, r ∈ crashes → duration_minutes r = Some d →
                ¬ within_clearance_bounds d).
      { destruct Hcases as [-> | [Hno | Hout]]; [| |exact Hout].
        - intros r d Hr. inversion Hr.
        - intros r d Hr Hd. unfold duration_minutes in Hd.
          destruct (Hno r Hr) as [Hs | He]; [rewrite Hs in Hd; discriminate|].
          rewrite He in Hd. destruct (start_time r); discriminate. }
      destruct (surviving_durations crashes) as [|d ds] eqn:Hsurv; [reflexivity|].
      exfalso.
      assert (Hmem : d ∈ surviving_durations crashes) by (rewrite Hsurv; left).
      apply elem_of_surviving_durations in Hmem as (r & Hr & Hd & Hin).
      exact (Hall r d Hr Hd Hin).
  - intros m Hm.
    destruct (surviving_durations crashes) as [|d ds] eqn:Hsurv; [discriminate|].
    injection Hm as <-.
    assert (Hb : (1 < mean (d :: ds))%Q ∧ (mean (d :: ds) < 1440)%Q).
    { apply mean_bounds. intros x Hx. rewrite <- Hsurv in Hx.
      apply elem_of_surviving_durations in Hx as (_ & _ & _ & Hin). exact Hin. }
    split; [reflexivity|].
    split; [intros x; rewrite <- Hsurv; apply elem_of_surviving_durations|].
    destruct Hb as [Hlo Hhi]. repeat split; try assumption.
    intros Hz. rewrite Hz in Hlo. discriminate Hlo.
Qed.

(** An incident that starts at second [s] and ends at second [e]. *)
Definition timed_event (id : Z) (s e : option Z) : event :=
  Event id (Some "Crash") None None None None None (Some "Minor") None None
    None None None None None None s e None (Some 1) (Some 33%Q) (Some (-86)%Q)
    None None None.

(** Durations of 5, 10 and 1500 minutes average to 7.5: the 1500-minute
    incident is left out (an instance of
    [calculate_avg_clearance_minutes_spec]); a collection without end
    timestamps has no average. *)
Lemma calculate_avg_clearance_minutes_spec_witness :
  (∃ m, calculate_avg_clearance_minutes
          (Some [timed_event 1 (Some 0) (Some 300);
                 timed_event 2 (Some 60) (Some 660);
                 timed_event 3 (Some 0) (Some 90000)]) = Some m
        ∧ (m == 7.5)%Q ∧ ¬ (m == 0)%Q)
  ∧ calculate_avg_clearance_minutes
      (Some [timed_event 1 (Some 0) None; timed_event 2 (Some 60) None]) = None.
Proof.
  split.
  - match goal with |- ∃ m, ?avg = _ ∧ _ => destruct avg as [m|] eqn:Hm end;
      [|vm_compute in Hm; discriminate].
    exists m. split; [reflexivity|].
    destruct (proj2 (proj2 (calculate_avg_clearance_minutes_spec _)) m Hm)
      as (Hmean & _ & _ & _ & Hnz).
    split; [|exact Hnz]. rewrite Hmean. vm_compute. reflexivity.
  - apply (proj1 (proj2 (calculate_avg_clearance_minutes_spec _))).
    right; left. intros r Hr. right.
    repeat (apply elem_of_cons in Hr as [-> | Hr]; [reflexivity|]).
    inversion Hr.
Defined.

(** *** Work-zone correlation *)

(** One entry of a [roadwork_by_location] list: [{"start_mm": ...}]. *)
Record anchor := Anchor { start_mm : option Q }.

(** The body of the loop that builds [roadwork_by_location]: a dict keyed
    by the pair (road, county), each value the list of anchors in the order
    the roadwork rows come. *)
Definition add_roadwork (roadwork_by_location : gmap (string * string) (list anchor))
    (rw : event) : gmap (string * string) (list anchor) :=
  match road rw, county rw with
  | Some r, Some c =>
      let key := (r, c) in
      let d :=
        match roadwork_by_location !! key with
        | None => <[key := []]> roadwork_by_location
        | Some _ => roadwork_by_location
        end in
      alter (λ anchors, anchors ++ [Anchor (mile_marker rw)]) key d
  | _, _ => roadwork_by_location
  end.

Definition build_roadwork_by_location (roadwork : list event)
    : gmap (string * string) (list anchor) :=
  fold_left add_roadwork roadwork ∅.

(** [abs(crash_mm - rw_mm) <= 2] *)
Definition within_two_miles (crash_mm rw_mm : Q) : bool :=
  Qle_bool (Qabs (crash_mm - rw_mm)) 2.

(** The inner [for rw in roadwork_by_location[key]] loop.  It returns the
    counter and whether the loop was left through [break]. *)
Fixpoint scan_anchors (crash_mm : Q) (anchors : list anchor)
    (construction_crashes : Z) : Z * bool :=
  match anchors with
  | [] => (construction_crashes, false)
  | rw :: rest =>
      match start_mm rw with
      | Some rw_mm =>
          if within_two_miles crash_mm rw_mm
          then (construction_crashes + 1, true)
          else scan_anchors crash_mm rest construction_crashes
      | None => scan_anchors crash_mm rest construction_crashes
      end
  end.

(** The body of the loop over the crashes.  The [else] that follows the
    inner [for] belongs to the loop, not to an [if]: it runs whenever the
    loop ends without [break]. *)
Definition count_crash (roadwork_by_location : gmap (string * string) (list anchor))
    (construction_crashes : Z) (crash : event) : Z :=
  match road crash, county crash with
  | Some crash_road, Some crash_county =>
      match roadwork_by_location !! (crash_road, crash_county) with
      | None => construction_crashes
      | Some anchors =>
          match mile_marker crash with
          | Some crash_mm =>
              let '(count, broke) :=
                scan_anchors crash_mm anchors construction_crashes in
              if broke then count else count + 1
          | None => construction_crashes + 1
          end
      end
  | _, _ => construction_crashes
  end.

Definition calculate_construction_zone_crashes (crashes roadwork : list event) : Z :=
  match roadwork, crashes with
  | [], _ | _, [] => 0
  | _, _ =>
      let roadwork_by_location := build_roadwork_by_location roadwork in
      fold_left (count_crash roadwork_by_location) crashes 0
  end.

(** The incident and the roadwork row have a road and a county, the same. *)
Definition same_road_county (crash rw : event) : bool :=
  match road crash, county crash, road rw, county rw with
  | Some r, Some c, Some r', Some c' =>
      bool_decide (r = r') && bool_decide (c = c')
  | _, _, _, _ => false
  end.

(** Some roadwork row shares the incident's (road, county) key. *)
Definition shares_key (roadwork : list event) (crash : event) : bool :=
  existsb (same_road_county crash) roadwork.

(** An anchor with a marker within 2 miles of the incident's marker. *)
Definition anchor_in_tolerance (crash rw : event) : bool :=
  match mile_marker crash, mile_marker rw with
  | Some crash_mm, Some rw_mm => within_two_miles crash_mm rw_mm
  | _, _ => false
  end.

(** The counting rule as the specification words it: the key is shared
    and either (a) the incident has a marker and some anchor of the key is
    within tolerance, or (b) the incident has no marker, or no anchor of
    the key has one. *)
Definition correlated_by_spec (roadwork : list event) (crash : event) : bool :=
  shares_key roadwork crash
  && (match mile_marker crash with
      | Some _ =>
          existsb (λ rw, same_road_county crash rw && anchor_in_tolerance crash rw)
            roadwork
          || forallb (λ rw, negb (same_road_county crash rw)
                            || negb (bool_decide (is_Some (mile_marker rw))))
               roadwork
      | None => true
      end).

(** A row on the given road and county, with the given mile marker. *)
Definition located_event (id : Z) (cat rd cty : string) (mm : option Q) : event :=
  Event id (Some cat) None None None None None (Some "Minor") (Some cty) None
    (Some rd) None None None None mm (Some 0) None None (Some 1)
    (Some 32%Q) (Some (-87)%Q) None None None.

Lemma add_roadwork_lookup idx rw k :
  is_Some (add_roadwork idx rw !! k) ↔
    is_Some (idx !! k) ∨ (road rw = Some k.1 ∧ county rw = Some k.2).
Proof.
  unfold add_roadwork.
  destruct (road rw) as [r|], (county rw) as [c|];
    try (split; [auto | intros [H | [H1 H2]]; [exact H | discriminate]]).
  destruct k as [r' c']. cbn [fst snd].
  destruct (decide ((r, c) = (r', c'))) as [Heq | Hne].
  - injection Heq as <- <-.
    split; [auto|]. intros _.
    rewrite lookup_alter_eq.
    destruct (idx !! (r, c)) eqn:Hl.
    + rewrite Hl. cbn. eauto.
    + rewrite lookup_insert_eq. cbn. eauto.
  - rewrite lookup_alter_ne by exact Hne.
    assert (Hsame : (match idx !! (r, c) with
                     | Some _ => idx
                     | None => <[(r, c) := []]> idx
                     end) !! (r', c') = idx !! (r', c')).
    { destruct (idx !! (r, c)); [reflexivity|].
      apply lookup_insert_ne. exact Hne. }
    rewrite Hsame. split; [auto|].
    intros [H | [H1 H2]]; [exact H|]. congruence.
Qed.

Lemma fold_add_roadwork_lookup roadwork idx k :
  is_Some (fold_left add_roadwork roadwork idx !! k) ↔
    is_Some (idx !! k)
    ∨ ∃ rw, rw ∈ roadwork ∧ road rw = Some k.1 ∧ county rw = Some k.2.
Proof.
  revert idx. induction roadwork as [|rw roadwork IH]; intros idx.
  - cbn. split; [auto|]. intros [H | (rw & Hrw & _)]; [exact H | inversion Hrw].
  - cbn [fold_left]. rewrite IH, add_roadwork_lookup. split.
    + intros [[H | H] | (rw' & Hin & H)]; [auto | right | right].
      * exists rw. split; [left | exact H].
      * exists rw'. split; [right; exact Hin | exact H].
    + intros [H | (rw' & Hin & H)]; [auto|].
      apply elem_of_cons in Hin as [-> | Hin]; [auto|].
      right. exists rw'. auto.
Qed.

Lemma shares_key_lookup roadwork crash r c :
  road crash = Some r → county crash = Some c →
  shares_key roadwork crash = true ↔
    is_Some (build_roadwork_by_location roadwork !! (r, c)).
Proof.
  intros Hr Hc. unfold shares_key, build_roadwork_by_location.
  rewrite fold_add_roadwork_lookup, lookup_empty, existsb_exists.
  cbn [fst snd]. split.
  - intros (rw & Hin & Hsame). right. exists rw.
    split; [apply list_elem_of_In; exact Hin|].
    unfold same_road_county in Hsame. rewrite Hr, Hc in Hsame.
    destruct (road rw), (county rw); try discriminate.
    apply andb_true_iff in Hsame as [H1 H2].
    apply bool_decide_eq_true in H1, H2. subst. auto.
  - intros [[x Hx] | (rw & Hin & Hr' & Hc')]; [discriminate|].
    exists rw. split; [apply list_elem_of_In; exact Hin|].
    unfold same_road_county. rewrite Hr, Hc, Hr', Hc'.
    rewrite !bool_decide_eq_true_2; reflexivity.
Qed.

(** Whether the inner loop breaks or runs to its end, the counter has
    grown by one once the [for]/[else] statement is over. *)
Lemma scan_anchors_for_else crash_mm anchors c :
  (let '(count, broke) := scan_anchors crash_mm anchors c in
   if broke then count else count + 1) = c + 1.
Proof.
  induction anchors as [|rw rest IH]; [reflexivity|].
  cbn [scan_anchors].
  destruct (start_mm rw) as [rw_mm|]; [|exact IH].
  destruct (within_two_miles crash_mm rw_mm); [reflexivity | exact IH].
Qed.

Lemma count_crash_shares_key roadwork c crash :
  count_crash (build_roadwork_by_location roadwork) c crash =
    c + (if shares_key roadwork crash then 1 else 0).
Proof.
  unfold count_crash.
  destruct (road crash) as [r|] eqn:Hr.
  2:{ unfold shares_key, same_road_county. rewrite Hr.
      replace (existsb _ roadwork) with false; [lia|].
      induction roadwork; [reflexivity | assumption]. }
  destruct (county crash) as [cty|] eqn:Hc.
  2:{ unfold shares_key, same_road_county. rewrite Hr, Hc.
      replace (existsb _ roadwork) with false; [lia|].
      induction roadwork; [reflexivity | assumption]. }
  pose proof (shares_key_lookup roadwork crash r cty Hr Hc) as Hiff.
  destruct (build_roadwork_by_location roadwork !! (r, cty)) as [anchors|].
  - rewrite (proj2 Hiff) by eauto.
    destruct (mile_marker crash) as [crash_mm|]; [|reflexivity].
    apply scan_anchors_for_else.
  - destruct (shares_key roadwork crash); [|lia].
    destruct (proj1 Hiff eq_refl) as [x Hx]. discriminate.
Qed.

(** What the function computes: the number of incidents whose
    (road, county) key is shared by some roadwork row.  The mile markers do
    not enter the result. *)
Lemma calculate_construction_zone_crashes_shared_key crashes roadwork :
  calculate_construction_zone_crashes crashes roadwork =
    Z.of_nat (length (List.filter (shares_key roadwork) crashes)).
Proof.
  assert (Hfold : ∀ c,
    fold_left (count_crash (build_roadwork_by_location roadwork)) crashes c =
      c + Z.of_nat (length (List.filter (shares_key roadwork) crashes))).
  { induction crashes as [|crash crashes IH]; intros c; cbn [fold_left].
    - cbn. lia.
    - rewrite IH, count_crash_shares_key. cbn [List.filter].
      destruct (shares_key roadwork crash); cbn [length]; lia. }
  unfold calculate_construction_zone_crashes.
  destruct roadwork as [|rw roadwork].
  - clear Hfold. induction crashes as [|crash crashes IH]; [reflexivity|].
    cbn [List.filter shares_key existsb]. exact IH.
  - destruct crashes as [|crash crashes]; [reflexivity|].
    rewrite Hfold. lia.
Qed.

(** C1.  An incident on road "US-80" in county "Dallas" at mile marker 10,
    with the only roadwork of that road and county at marker 20 (8 miles
    beyond the 2-mile tolerance): the specified rule does not correlate the
    incident, but the function counts it, because the [else] of the inner
    [for] loop runs when no anchor qualified.  With the roadwork at marker
    11, or without a marker, rule and function agree on counting it. *)
Theorem calculate_construction_zone_crashes_out_of_tolerance :
  let crash := located_event 1 "Crash" "US-80" "Dallas" (Some 10%Q) in
  let far := located_event 2 "Roadwork" "US-80" "Dallas" (Some 20%Q) in
  let near := located_event 3 "Roadwork" "US-80" "Dallas" (Some 11%Q) in
  let unmarked := located_event 4 "Roadwork" "US-80" "Dallas" None in
  calculate_construction_zone_crashes [crash] [far] = 1
  ∧ correlated_by_spec [far] crash = false
  ∧ calculate_construction_zone_crashes [crash] [near] = 1
  ∧ correlated_by_spec [near] crash = true
  ∧ calculate_construction_zone_crashes [crash] [unmarked] = 1
  ∧ correlated_by_spec [unmarked] crash = true.
Proof. vm_compute. repeat split; reflexivity. Qed.

(** *** Crash clustering *)

(** The distance and its comparison with the radius are taken as they
    come: the loop is studied for every distance function and every
    outcome of [dist <= radius_miles]. *)
Section Clustering.
Context {D : Type}.
Variable haversine_distance : Q → Q → Q → Q → D.
Variable le : D → D → bool.
Variable radius_miles : D.

(** The state of the loop: the [cluster_id] column of
    [crashes_with_coords], the counter [cluster_id], the set [assigned],
    and, as a record of the run, the value [cluster_points] had at the end
    of each seed's scan, oldest first. *)
Record cluster_state := ClusterState {
  cluster_id_column : list Z;
  next_cluster_id : Z;
  assigned : gset nat;
  groups : list (list nat)
}.

(** [crashes.dropna(subset=["Start Latitude", "Start Longitude"])] and the
    [coords] array read off it. *)
Definition row_coords (r : event) : option (Q * Q) :=
  lat ← start_latitude r; lon ← start_longitude r; Some (lat, lon).

Definition coords_of (crashes : list event) : list (Q * Q) :=
  omap row_coords crashes.

(** [haversine_distance(coords[i][0], coords[i][1], coords[j][0],
    coords[j][1]) <= radius_miles]; both indices are within the array
    wherever the loop evaluates it. *)
Definition near (coords : list (Q * Q)) (i j : nat) : bool :=
  match coords !! i, coords !! j with
  | Some ci, Some cj =>
      le (haversine_distance ci.1 ci.2 cj.1 cj.2) radius_miles
  | _, _ => false
  end.

(** The body of [for j in range(i + 1, n)]. *)
Definition scan_step (coords : list (Q * Q)) (i : nat)
    (acc : list nat * gset nat) (j : nat) : list nat * gset nat :=
  let '(cluster_points, assigned) := acc in
  if decide (j ∈ assigned) then acc
  else if near coords i j
       then (cluster_points ++ [j], assigned ∪ {[j]})
       else acc.

(** [for idx in cluster_points: column.iloc[idx] = cluster_id] *)
Definition label_points (cluster_points : list nat) (cluster_id : Z)
    (column : list Z) : list Z :=
  fold_left (λ col idx, <[idx := cluster_id]> col) cluster_points column.

(** The body of [for i in range(n)]. *)
Definition seed_step (coords : list (Q * Q)) (st : cluster_state) (i : nat)
    : cluster_state :=
  if decide (i ∈ assigned st) then st
  else
    let '(cluster_points, assigned') :=
      fold_left (scan_step coords i)
        (seq (S i) (length coords - S i))
        ([i], assigned st ∪ {[i]}) in
    if decide (MIN_CLUSTER_SIZE ≤ length cluster_points)%nat
    then ClusterState
           (label_points cluster_points (next_cluster_id st) (cluster_id_column st))
           (next_cluster_id st + 1)
           assigned'
           (groups st ++ [cluster_points])
    else ClusterState (cluster_id_column st) (next_cluster_id st) assigned'
           (groups st ++ [cluster_points]).

(** The labelling loop of [find_crash_clusters], lines 146 to 175. *)
Definition assign_clusters (coords : list (Q * Q)) : cluster_state :=
  fold_left (seed_step coords) (seq 0 (length coords))
    (ClusterState (replicate (length coords) (-1)) 0 ∅ []).

(** The group a seed [s] gathers when the incidents of [prev] are already
    assigned: the seed, then every later incident that is not in [prev]
    and lies within the radius of the seed, in input order. *)
Definition seed_group (coords : list (Q * Q)) (prev : list nat) (s : nat)
    : list nat :=
  s :: filter (λ j, j ∉ prev ∧ near coords s j = true)
         (seq (S s) (length coords - S s)).

(** The number of groups that reached the minimum size. *)
Definition committed (gs : list (list nat)) : nat :=
  length (filter (λ g, (MIN_CLUSTER_SIZE ≤ length g)%nat) gs).

(** The label the members of a group end with, after [before] groups. *)
Definition group_label (before : list (list nat)) (g : list nat) : Z :=
  if decide (MIN_CLUSTER_SIZE ≤ length g)%nat
  then Z.of_nat (committed before) else -1.

Lemma scan_closed_form coords i (A : gset nat) m :
  fold_left (scan_step coords i) (seq (S i) m) ([i], A ∪ {[i]}) =
    (i :: filter (λ j, j ∉ A ∧ near coords i j = true) (seq (S i) m),
     A ∪ {[i]}
       ∪ list_to_set (filter (λ j, j ∉ A ∧ near coords i j = true) (seq (S i) m))).
Proof.
  induction m as [|m IH].
  - cbn. f_equal. set_solver.
  - rewrite seq_S, fold_left_app, IH. cbn [fold_left scan_step].
    rewrite filter_app, filter_cons, filter_nil.
    set (F := filter (λ j, j ∉ A ∧ near coords i j = true) (seq (S i) m)).
    assert (HF : ∀ j, j ∈ F → (S i ≤ j < S i + m)%nat).
    { intros j Hj. apply list_elem_of_filter in Hj as [_ Hj].
      apply list_elem_of_In, in_seq in Hj. lia. }
    assert (Hnew : (S i + m)%nat ∉ F) by (intros H; apply HF in H; lia).
    destruct (decide ((S i + m)%nat ∈ A ∪ {[i]} ∪ list_to_set F)) as [Hin | Hout].
    + assert (HA : (S i + m)%nat ∈ A).
      { apply elem_of_union in Hin as [Hin | Hin].
        - apply elem_of_union in Hin as [Hin | Hin]; [exact Hin|].
          apply elem_of_singleton in Hin. lia.
        - apply elem_of_list_to_set in Hin. contradiction. }
      destruct (decide _) as [[Hno _] | _]; [contradiction|].
      rewrite app_nil_r. reflexivity.
    + assert (HA : (S i + m)%nat ∉ A) by set_solver.
      destruct (near coords i (S i + m)) eqn:Hnear.
      * destruct (decide _) as [_ | Hno]; [|exfalso; apply Hno; auto].
        f_equal. rewrite list_to_set_app_L. set_solver.
      * destruct (decide _) as [[_ Hyes] | _]; [discriminate|].
        rewrite app_nil_r. reflexivity.
Qed.

Lemma seed_step_assigned coords st i :
  i ∈ assigned st → seed_step coords st i = st.
Proof. intros Hin. unfold seed_step. rewrite decide_True by exact Hin. reflexivity. Qed.

(** The outcome of one seed's scan, with the inner loop in closed form:
    the seed gathers [seed_group]. *)
Lemma seed_step_fresh coords st i :
  i ∉ assigned st →
  (∀ j, j ∈ assigned st ↔ j ∈ concat (groups st)) →
  let g := seed_group coords (concat (groups st)) i in
  let A' := assigned st ∪ list_to_set g in
  seed_step coords st i =
    if decide (MIN_CLUSTER_SIZE ≤ length g)%nat
    then ClusterState (label_points g (next_cluster_id st) (cluster_id_column st))
           (next_cluster_id st + 1) A' (groups st ++ [g])
    else ClusterState (cluster_id_column st) (next_cluster_id st) A'
           (groups st ++ [g]).
Proof.
  intros Hout HA g A'. unfold seed_step.
  rewrite decide_False by exact Hout.
  rewrite scan_closed_form.
  assert (Hg : i :: filter (λ j, j ∉ assigned st ∧ near coords i j = true)
                      (seq (S i) (length coords - S i)) = g).
  { unfold g, seed_group. f_equal. apply list_filter_iff.
    intros j. rewrite HA. reflexivity. }
  assert (HA' : assigned st ∪ {[i]}
            ∪ list_to_set (filter (λ j, j ∉ assigned st ∧ near coords i j = true)
                             (seq (S i) (length coords - S i))) = A').
  { unfold A'. rewrite <- Hg. rewrite list_to_set_cons. set_solver. }
  rewrite Hg, HA'. reflexivity.
Qed.

Lemma label_points_length pts c col :
  length (label_points pts c col) = length col.
Proof.
  unfold label_points. revert col.
  induction pts as [|p pts IH]; intros col; [reflexivity|].
  cbn [fold_left]. rewrite IH. apply length_insert.
Qed.

Lemma label_points_other pts c (col : list Z) j :
  j ∉ pts → label_points pts c col !! j = col !! j.
Proof.
  unfold label_points. revert col.
  induction pts as [|p pts IH]; intros col Hj; [reflexivity|].
  cbn [fold_left]. rewrite IH by (intros H; apply Hj; right; exact H).
  apply list_lookup_insert_ne. intros ->. apply Hj. left.
Qed.

Lemma label_points_member pts c (col : list Z) j :
  j ∈ pts → (j < length col)%nat → label_points pts c col !! j = Some c.
Proof.
  revert col. induction pts as [|p pts IH]; intros col Hj Hlen; [inversion Hj|].
  destruct (decide (j ∈ pts)) as [Hin | Hout].
  - change (label_points (p :: pts) c col)
      with (label_points pts c (<[p := c]> col)).
    apply IH; [exact Hin|]. rewrite length_insert. exact Hlen.
  - apply elem_of_cons in Hj as [-> | Hj]; [|contradiction].
    change (label_points (p :: pts) c col)
      with (label_points pts c (<[p := c]> col)).
    rewrite label_points_other by exact Hout.
    apply list_lookup_insert_eq. exact Hlen.
Qed.

Lemma elem_of_seed_group coords prev s j :
  j ∈ seed_group coords prev s ↔
    j = s ∨ ((s < j < length coords)%nat ∧ j ∉ prev ∧ near coords s j = true).
Proof.
  unfold seed_group. rewrite elem_of_cons, list_elem_of_filter, elem_of_seq.
  split; (intros [H | H]; [left; exact H | right]).
  - destruct H as [[H1 H2] H3]. repeat split; try assumption; lia.
  - destruct H as [H1 [H2 H3]]. repeat split; try assumption; lia.
Qed.

Lemma NoDup_seed_group coords prev s : NoDup (seed_group coords prev s).
Proof.
  unfold seed_group. apply NoDup_cons. split.
  - intros H. apply list_elem_of_filter in H as [_ H].
    apply list_elem_of_In, in_seq in H. lia.
  - apply NoDup_filter, NoDup_seq.
Qed.

Lemma committed_snoc gs g :
  committed (gs ++ [g]) =
    (committed gs + (if decide (MIN_CLUSTER_SIZE ≤ length g)%nat then 1 else 0))%nat.
Proof.
  unfold committed. rewrite filter_app, length_app, filter_cons, filter_nil.
  destruct (decide _); reflexivity.
Qed.

(** The groups formed before the [k]-th one, flattened. *)
Definition earlier (gs : list (list nat)) (k : nat) : list nat :=
  concat (take k gs).

(** The invariant of the outer loop, after the incidents before [i]. *)
Record clusters_inv (coords : list (Q * Q)) (i : nat) (st : cluster_state)
    : Prop := ClustersInv {
  inv_assigned : ∀ j, j ∈ assigned st ↔ j ∈ concat (groups st);
  inv_prefix : ∀ j, (j < i)%nat → j ∈ assigned st;
  inv_range : ∀ j, j ∈ assigned st → (j < length coords)%nat;
  inv_nodup : NoDup (concat (groups st));
  inv_groups : ∀ k g, groups st !! k = Some g →
    ∃ s, (s < length coords)%nat
         ∧ s ∉ earlier (groups st) k
         ∧ (∀ j, (j < s)%nat → j ∈ earlier (groups st) k)
         ∧ g = seed_group coords (earlier (groups st) k) s;
  inv_length : length (cluster_id_column st) = length coords;
  inv_next : next_cluster_id st = Z.of_nat (committed (groups st));
  inv_labels : ∀ k g j, groups st !! k = Some g → j ∈ g →
    cluster_id_column st !! j = Some (group_label (take k (groups st)) g);
  inv_unlabelled : ∀ j, (j < length coords)%nat → j ∉ assigned st →
    cluster_id_column st !! j = Some (-1)
}.

Lemma clusters_inv_init coords :
  clusters_inv coords 0
    (ClusterState (replicate (length coords) (-1)) 0 ∅ []).
Proof.
  constructor; cbn.
  - intros j. split; [intros H; set_solver | intros H; inversion H].
  - intros j Hj. lia.
  - intros j Hj. set_solver.
  - constructor.
  - intros k g Hk. rewrite lookup_nil in Hk. discriminate.
  - apply length_replicate.
  - reflexivity.
  - intros k g j Hk. rewrite lookup_nil in Hk. discriminate.
  - intros j Hj _. apply lookup_replicate_2. exact Hj.
Qed.

Lemma lookup_snoc_take {A} (gs : list A) g k x :
  (gs ++ [g]) !! k = Some x →
  (gs !! k = Some x ∧ take k (gs ++ [g]) = take k gs)
  ∨ (k = length gs ∧ x = g ∧ take k (gs ++ [g]) = gs).
Proof.
  intros Hk. destruct (decide (k < length gs)%nat) as [Hlt | Hge].
  - left. rewrite lookup_app_l in Hk by exact Hlt.
    split; [exact Hk|]. apply take_app_le. lia.
  - right. rewrite lookup_app_r in Hk by lia.
    apply list_lookup_singleton_Some in Hk as [Hk ->].
    assert (k = length gs) as -> by lia.
    repeat split. apply take_app_length.
Qed.

Lemma concat_snoc {A} (gs : list (list A)) g : concat (gs ++ [g]) = concat gs ++ g.
Proof. rewrite concat_app. cbn. rewrite app_nil_r. reflexivity. Qed.

Lemma elem_of_concat {A} (gs : list (list A)) x :
  x ∈ concat gs ↔ ∃ g, g ∈ gs ∧ x ∈ g.
Proof.
  rewrite list_elem_of_In, in_concat. split.
  - intros (g & Hg & Hx). exists g. rewrite !list_elem_of_In. auto.
  - intros (g & Hg & Hx). exists g. rewrite <- !list_elem_of_In. auto.
Qed.

Lemma elem_of_concat_take {A} (gs : list (list A)) k x :
  x ∈ concat (take k gs) → x ∈ concat gs.
Proof.
  intros Hx. rewrite <- (take_drop k gs), concat_app.
  apply elem_of_app. left. exact Hx.
Qed.

(** One iteration of the outer loop keeps the invariant. *)
Lemma clusters_inv_step coords i st :
  (i < length coords)%nat →
  clusters_inv coords i st →
  clusters_inv coords (S i) (seed_step coords st i).
Proof.
  intros Hi [HA Hpre Hrange Hnd Hgs Hlen Hnext Hlab Hunl].
  destruct (decide (i ∈ assigned st)) as [Hin | Hout].
  { rewrite seed_step_assigned by exact Hin.
    constructor; try assumption.
    intros j Hj. destruct (decide (j = i)) as [-> | Hne]; [exact Hin|].
    apply Hpre. lia. }
  rewrite seed_step_fresh by assumption.
  set (g := seed_group coords (concat (groups st)) i).
  assert (Hg_fresh : ∀ j, j ∈ g → j ∉ concat (groups st)).
  { intros j Hj. apply elem_of_seed_group in Hj as [-> | (_ & Hj & _)];
      [rewrite <- HA; exact Hout | exact Hj]. }
  assert (Hg_range : ∀ j, j ∈ g → (j < length coords)%nat).
  { intros j Hj. apply elem_of_seed_group in Hj as [-> | (Hj & _)]; lia. }
  assert (HA' : ∀ j, j ∈ assigned st ∪ list_to_set g ↔ j ∈ concat (groups st ++ [g])).
  { intros j. rewrite concat_snoc, elem_of_app, elem_of_union,
      elem_of_list_to_set, HA. reflexivity. }
  assert (Hpre' : ∀ j, (j < S i)%nat → j ∈ assigned st ∪ list_to_set g).
  { intros j Hj. apply elem_of_union.
    destruct (decide (j = i)) as [-> | Hne].
    - right. apply elem_of_list_to_set, elem_of_seed_group. left. reflexivity.
    - left. apply Hpre. lia. }
  assert (Hrange' : ∀ j, j ∈ assigned st ∪ list_to_set g → (j < length coords)%nat).
  { intros j Hj. apply elem_of_union in Hj as [Hj | Hj]; [apply Hrange; exact Hj|].
    apply elem_of_list_to_set in Hj. apply Hg_range. exact Hj. }
  assert (Hnd' : NoDup (concat (groups st ++ [g]))).
  { rewrite concat_snoc. apply NoDup_app. split; [exact Hnd|].
    split; [|apply NoDup_seed_group].
    intros j Hj Hjg. exact (Hg_fresh j Hjg Hj). }
  assert (Hgs' : ∀ k g0, (groups st ++ [g]) !! k = Some g0 →
    ∃ s, (s < length coords)%nat
         ∧ s ∉ earlier (groups st ++ [g]) k
         ∧ (∀ j, (j < s)%nat → j ∈ earlier (groups st ++ [g]) k)
         ∧ g0 = seed_group coords (earlier (groups st ++ [g]) k) s).
  { intros k g0 Hk. unfold earlier.
    apply lookup_snoc_take in Hk as [[Hk ->] | (-> & -> & ->)].
    - apply Hgs. exact Hk.
    - exists i. split; [exact Hi|]. split; [rewrite <- HA; exact Hout|].
      split; [|reflexivity]. intros j Hj. apply HA, Hpre. exact Hj. }
  assert (Hunl_old : ∀ j, (j < length coords)%nat →
            j ∉ assigned st ∪ list_to_set g →
            cluster_id_column st !! j = Some (-1)).
  { intros j Hj Hnot. apply Hunl; [exact Hj|]. set_solver. }
  assert (Hlab_old : ∀ col : list Z,
    (∀ j, j ∉ g → col !! j = cluster_id_column st !! j) →
    (∀ j, j ∈ g → col !! j = Some (group_label (groups st) g)) →
    ∀ k g0 j, (groups st ++ [g]) !! k = Some g0 → j ∈ g0 →
      col !! j = Some (group_label (take k (groups st ++ [g])) g0)).
  { intros col Hother Hmem k g0 j Hk Hj.
    apply lookup_snoc_take in Hk as [[Hk ->] | (-> & -> & ->)].
    - rewrite Hother; [apply (Hlab k g0 j Hk Hj)|].
      intros Hjg. apply (Hg_fresh j Hjg).
      apply elem_of_concat. exists g0. split; [|exact Hj].
      apply list_elem_of_lookup_2 in Hk. exact Hk.
    - apply Hmem. exact Hj. }
  destruct (decide (MIN_CLUSTER_SIZE ≤ length g)%nat) as [Hbig | Hsmall].
  - constructor; cbn [assigned groups cluster_id_column next_cluster_id];
      try assumption.
    + rewrite label_points_length. exact Hlen.
    + rewrite committed_snoc, decide_True by exact Hbig. rewrite Hnext. lia.
    + apply Hlab_old.
      * intros j Hj. apply label_points_other. exact Hj.
      * intros j Hj. unfold group_label. rewrite decide_True by exact Hbig.
        rewrite <- Hnext. apply label_points_member; [exact Hj|].
        rewrite Hlen. apply Hg_range. exact Hj.
    + intros j Hj Hnot. rewrite label_points_other; [apply Hunl_old; assumption|].
      intros Hjg. apply Hnot, elem_of_union. right.
      apply elem_of_list_to_set. exact Hjg.
  - constructor; cbn [assigned groups cluster_id_column next_cluster_id];
      try assumption.
    + rewrite committed_snoc, decide_False by exact Hsmall. rewrite Hnext. lia.
    + apply Hlab_old; [reflexivity|].
      intros j Hj. unfold group_label. rewrite decide_False by exact Hsmall.
      apply Hunl; [apply Hg_range; exact Hj|].
      rewrite HA. apply Hg_fresh. exact Hj.
Qed.

Lemma clusters_inv_run coords i :
  (i ≤ length coords)%nat →
  clusters_inv coords i
    (fold_left (seed_step coords) (seq 0 i)
       (ClusterState (replicate (length coords) (-1)) 0 ∅ [])).
Proof.
  induction i as [|i IH]; intros Hi.
  - apply clusters_inv_init.
  - rewrite seq_S, fold_left_app. cbn [fold_left plus].
    apply clusters_inv_step; [lia|]. apply IH. lia.
Qed.

Lemma filter_all {A} (P : A → Prop) `{∀ x, Decision (P x)} (l : list A) :
  (∀ x, x ∈ l → P x) → filter P l = l.
Proof.
  induction l as [|x l IH]; intros Hall; [reflexivity|].
  rewrite filter_cons, decide_True by (apply Hall; left).
  f_equal. apply IH. intros y Hy. apply Hall. right. exact Hy.
Qed.

(** When every later incident is within the radius of the first one, the
    run forms a single group of all incidents; it is cluster 0 when there
    are at least [MIN_CLUSTER_SIZE] of them, and nothing is labelled
    otherwise. *)
Lemma assign_clusters_all_near coords :
  (0 < length coords)%nat →
  (∀ j, (0 < j < length coords)%nat → near coords 0 j = true) →
  groups (assign_clusters coords) = [seq 0 (length coords)]
  ∧ cluster_id_column (assign_clusters coords) =
      replicate (length coords)
        (if decide (MIN_CLUSTER_SIZE ≤ length coords)%nat then 0 else -1).
Proof.
  intros Hn Hnear.
  destruct (clusters_inv_run coords (length coords) (Nat.le_refl _))
    as [HA Hpre Hrange Hnd Hgs Hlen _ Hlab _].
  fold (assign_clusters coords) in *.
  set (st := assign_clusters coords) in *.
  destruct (groups st) as [|g0 rest] eqn:Hgroups.
  { exfalso. specialize (Hpre 0%nat Hn). apply HA in Hpre. inversion Hpre. }
  assert (Hg0 : g0 = seq 0 (length coords)).
  { destruct (Hgs 0%nat g0 eq_refl) as (s & _ & _ & Hfirst & ->).
    assert (s = 0)%nat as ->.
    { destruct s as [|s]; [reflexivity|].
      specialize (Hfirst 0%nat (Nat.lt_0_succ _)). inversion Hfirst. }
    unfold seed_group, earlier. cbn [take concat].
    rewrite filter_all.
    - destruct (length coords) as [|m]; [lia|].
      replace (S m - 1)%nat with m by lia. reflexivity.
    - intros j Hj. apply elem_of_seq in Hj. split; [intros H; inversion H|].
      apply Hnear. lia. }
  assert (Hrest : rest = []).
  { destruct rest as [|g1 rest]; [reflexivity|]. exfalso.
    destruct (Hgs 1%nat g1 eq_refl) as (s & Hs & Hfresh & _ & _).
    apply Hfresh. unfold earlier. cbn [take concat]. rewrite app_nil_r, Hg0.
    apply elem_of_seq. lia. }
  subst rest. split; [rewrite Hg0; reflexivity|].
  apply list_eq. intros j.
  destruct (decide (j < length coords)%nat) as [Hj | Hj].
  - rewrite lookup_replicate_2 by exact Hj.
    rewrite (Hlab 0%nat g0 j eq_refl) by (rewrite Hg0; apply elem_of_seq; lia).
    unfold group_label, committed. cbn [take filter list_filter length].
    rewrite Hg0, length_seq. destruct (decide _); reflexivity.
  - rewrite !lookup_ge_None_2; [reflexivity | |].
    + rewrite length_replicate. lia.
    + rewrite Hlen. lia.
Qed.

Lemma lookup_earlier (gs : list (list nat)) k k' g j :
  (k < k')%nat → gs !! k = Some g → j ∈ g → j ∈ earlier gs k'.
Proof.
  intros Hlt Hk Hj. unfold earlier. apply elem_of_concat. exists g.
  split; [|exact Hj].
  apply (list_elem_of_lookup_2 _ k). rewrite lookup_take_lt by exact Hlt.
  exact Hk.
Qed.

(** C2.  The labelling loop of [find_crash_clusters], for every distance
    function and radius.  Writing [gs] for the groups in the order they
    were opened:
    - the groups partition the incidents: every incident is in exactly one
      group (as its seed or absorbed by it);
    - the seed of a group is the first incident, in input order, that is in
      no earlier group; the group is the seed followed by exactly the later
      incidents that are in no earlier group and within the radius of the
      seed (of the seed, not of another member), in input order;
    - the members of a group get a cluster id (the number of groups
      committed before it) exactly when the group has at least
      [MIN_CLUSTER_SIZE] = 3 members, and keep -1 otherwise;
    - an incident of an earlier group, committed or not, is in no later
      group, neither as seed nor as member. *)
Theorem assign_clusters_spec (coords : list (Q * Q)) :
  let st := assign_clusters coords in
  let gs := groups st in
  concat gs ≡ₚ seq 0 (length coords)
  ∧ length (cluster_id_column st) = length coords
  ∧ (∀ k g, gs !! k = Some g →
       ∃ s, (s < length coords)%nat
            ∧ s ∉ earlier gs k
            ∧ (∀ j, (j < s)%nat → j ∈ earlier gs k)
            ∧ g = seed_group coords (earlier gs k) s
            ∧ (∀ j, j ≠ s →
                 j ∈ g ↔ (s < j < length coords)%nat ∧ j ∉ earlier gs k
                         ∧ near coords s j = true)
            ∧ (∀ j, j ∈ g →
                 cluster_id_column st !! j =
                   Some (if decide (MIN_CLUSTER_SIZE ≤ length g)%nat
                         then Z.of_nat (committed (take k gs)) else -1)))
  ∧ (∀ k k' g g' j, (k < k')%nat → gs !! k = Some g → gs !! k' = Some g' →
       j ∈ g → j ∉ g').
Proof.
  intros st gs.
  destruct (clusters_inv_run coords (length coords) (Nat.le_refl _))
    as [HA Hpre Hrange Hnd Hgs Hlen _ Hlab _].
  fold (assign_clusters coords) in *. fold st in HA, Hpre, Hrange, Hnd, Hgs, Hlen, Hlab.
  fold gs in HA, Hnd, Hgs, Hlab.
  split.
  { apply NoDup_Permutation; [exact Hnd | apply NoDup_seq|].
    intros j. rewrite elem_of_seq, <- HA. split.
    - intros Hj. apply Hrange in Hj. lia.
    - intros Hj. apply Hpre. lia. }
  split; [exact Hlen|].
  split.
  - intros k g Hk. destruct (Hgs k g Hk) as (s & Hs & Hfresh & Hfirst & Hg).
    exists s. repeat (split; [assumption|]).
    split.
    + intros j Hne. rewrite Hg, elem_of_seed_group. split.
      * intros [-> | H]; [contradiction | exact H].
      * intros H. right. exact H.
    + intros j Hj. apply (Hlab k g j Hk Hj).
  - intros k k' g g' j Hlt Hk Hk' Hj Hj'.
    pose proof (lookup_earlier gs k k' g j Hlt Hk Hj) as Hearlier.
    destruct (Hgs k' g' Hk') as (s & _ & Hfresh & _ & Hg).
    rewrite Hg in Hj'. apply elem_of_seed_group in Hj' as [-> | (_ & Hnot & _)];
      contradiction.
Qed.

End Clustering.

(** The labels [find_crash_clusters] gives the rows that have coordinates,
    before they are aggregated per cluster. *)
Definition find_crash_clusters_labels {D} (haversine_distance : Q → Q → Q → Q → D)
    (le : D → D → bool) (radius_miles : D) (crashes : list event) : list Z :=
  cluster_id_column
    (assign_clusters haversine_distance le radius_miles (coords_of crashes)).

(** A distance for examples: incidents on one meridian, one unit of
    latitude counted as one mile. *)
Definition meridian_distance (lat1 lon1 lat2 lon2 : Q) : Q :=
  (Qabs (lat2 - lat1) + Qabs (lon2 - lon1))%Q.

(** Three incidents at one place, two at another, one on its own: one
    cluster of three, the pair is discarded, the sixth incident is a seed
    without followers (an instance of [assign_clusters_spec]). *)
Lemma assign_clusters_spec_witness :
  let p := (33%Q, (-86)%Q) in
  let q := (34%Q, (-86)%Q) in
  let r := (35%Q, (-86)%Q) in
  let st := assign_clusters meridian_distance Qle_bool (1 # 2) [p; p; q; p; q; r] in
  groups st = [[0; 1; 3]; [2; 4]; [5]]%nat
  ∧ cluster_id_column st = [0; 0; -1; 0; -1; -1]
  ∧ (∀ j, j ∈ [0; 1; 3]%nat → cluster_id_column st !! j = Some 0)
  ∧ (∀ j, j ∈ [0; 1; 3]%nat → j ∉ [2; 4]%nat).
Proof.
  intros p q r st.
  destruct (assign_clusters_spec meridian_distance Qle_bool (1 # 2)
              [p; p; q; p; q; r]) as (_ & _ & Hgroups & Hdisjoint).
  assert (Hgs : groups st = [[0; 1; 3]; [2; 4]; [5]]%nat) by (vm_compute; reflexivity).
  split; [exact Hgs|].
  split; [vm_compute; reflexivity|].
  split.
  - intros j Hj.
    destruct (Hgroups 0%nat [0; 1; 3]%nat) as (s & _ & _ & _ & _ & _ & Hlab).
    { fold st. rewrite Hgs. reflexivity. }
    exact (Hlab j Hj).
  - intros j Hj. apply (Hdisjoint 0%nat 1%nat [0; 1; 3]%nat [2; 4]%nat j).
    + lia.
    + fold st. rewrite Hgs. reflexivity.
    + fold st. rewrite Hgs. reflexivity.
    + exact Hj.
Defined.

(** The grouping is around the seed, not transitive: with incidents at
    miles 0, 0.4 and 0.8 and a radius of 0.5, the first absorbs the second
    only; that pair is discarded, and the second incident is not offered to
    the third, 0.4 miles away from it. *)
Example assign_clusters_not_transitive :
  let st := assign_clusters meridian_distance Qle_bool (1 # 2)
              [(0%Q, 0%Q); ((2 # 5)%Q, 0%Q); ((4 # 5)%Q, 0%Q)] in
  groups st = [[0; 1]; [2]]%nat ∧ cluster_id_column st = [-1; -1; -1].
Proof. vm_compute. split; reflexivity. Qed.

(** *** Further properties of the work-zone count *)

Lemma filter_length_le {A} (p : A → bool) (l : list A) :
  (length (List.filter p l) ≤ length l)%nat.
Proof.
  induction l as [|x l IH]; cbn [List.filter length]; [lia|].
  destruct (p x); cbn [length]; lia.
Qed.

Lemma filter_length_mono {A} (p q : A → bool) (l : list A) :
  (∀ x, p x = true → q x = true) →
  (length (List.filter p l) ≤ length (List.filter q l))%nat.
Proof.
  intros Hpq. induction l as [|x l IH]; cbn [List.filter length]; [lia|].
  destruct (p x) eqn:Hp.
  - rewrite (Hpq x Hp). cbn [length]. lia.
  - destruct (q x); cbn [length]; lia.
Qed.

(** The work-zone count is the number of incidents that have a road and a
    county and share that pair with some roadwork row.  Mile markers do not
    enter it: the result is the same when every mile marker, of incidents
    and of roadwork, is erased. *)
Theorem construction_zone_count_ignores_mile_markers
    (crashes roadwork : list event) (erase : event → event) :
  (∀ r, road (erase r) = road r ∧ county (erase r) = county r) →
  calculate_construction_zone_crashes crashes roadwork
    = Z.of_nat (length (List.filter (shares_key roadwork) crashes))
  ∧ calculate_construction_zone_crashes (map erase crashes) (map erase roadwork)
    = calculate_construction_zone_crashes crashes roadwork.
Proof.
  intros Herase. split; [apply calculate_construction_zone_crashes_shared_key|].
  rewrite !calculate_construction_zone_crashes_shared_key. f_equal.
  assert (Hsame : ∀ a b, same_road_county (erase a) (erase b) = same_road_county a b).
  { intros a b. unfold same_road_county.
    destruct (Herase a) as [-> ->], (Herase b) as [-> ->]. reflexivity. }
  assert (Hshare : ∀ c, shares_key (map erase roadwork) (erase c) = shares_key roadwork c).
  { intros c. unfold shares_key. induction roadwork as [|rw rws IH]; [reflexivity|].
    cbn [map existsb]. rewrite Hsame, IH. reflexivity. }
  induction crashes as [|c cs IH]; [reflexivity|].
  cbn [map List.filter]. rewrite Hshare.
  destruct (shares_key roadwork c); cbn [length]; rewrite IH; reflexivity.
Qed.

(** A row with its mile marker erased. *)
Definition without_mile_marker (r : event) : event :=
  Event (event_id r) (category r) (title r) (location r) (full_location r)
    (description r) (region r) (severity r) (county r) (city r) (road r)
    (road_display r) (road_type r) (cross_street r) (direction r) None
    (start_time r) (end_time r) (last_updated r) (active r)
    (start_latitude r) (start_longitude r) (end_latitude r) (end_longitude r)
    (lane_closures r).

(** With the markers erased the incident at marker 10 and the roadwork at
    marker 20 give the same count (an instance of
    [construction_zone_count_ignores_mile_markers]). *)
Lemma construction_zone_count_ignores_mile_markers_witness :
  let crash := located_event 1 "Crash" "US-80" "Dallas" (Some 10%Q) in
  let far := located_event 2 "Roadwork" "US-80" "Dallas" (Some 20%Q) in
  calculate_construction_zone_crashes
    (map without_mile_marker [crash]) (map without_mile_marker [far])
  = calculate_construction_zone_crashes [crash] [far].
Proof.
  intros crash far.
  apply (construction_zone_count_ignores_mile_markers [crash] [far]
           without_mile_marker).
  intros r. split; reflexivity.
Defined.

(** The work-zone count lies between 0 and the number of incidents, and
    more roadwork never lowers it. *)
Theorem construction_zone_count_bounds (crashes roadwork more : list event) :
  0 ≤ calculate_construction_zone_crashes crashes roadwork
    ≤ Z.of_nat (length crashes)
  ∧ calculate_construction_zone_crashes crashes roadwork
    ≤ calculate_construction_zone_crashes crashes (roadwork ++ more).
Proof.
  rewrite !calculate_construction_zone_crashes_shared_key. split.
  - pose proof (filter_length_le (shares_key roadwork) crashes). lia.
  - apply inj_le, filter_length_mono. intros c. unfold shares_key.
    rewrite existsb_app. intros ->. reflexivity.
Qed.


(** *** Further properties of the danger score *)

Lemma severity_count_perm sev s1 s2 :
  s1 ≡ₚ s2 → severity_count sev s1 = severity_count sev s2.
Proof. intros H. unfold severity_count. rewrite H. reflexivity. Qed.

Lemma calculate_danger_score_cell v :
  0 ≤ calculate_danger_score [v] ≤ 3.
Proof.
  rewrite calculate_danger_score_counts. unfold severity_count.
  rewrite !filter_cons, !filter_nil.
  destruct v as [s|].
  - destruct (decide (Some s = Some "Major")) as [H1|H1];
      destruct (decide (Some s = Some "Moderate")) as [H2|H2];
      destruct (decide (Some s = Some "Minor")) as [H3|H3];
      cbn [length]; try lia; congruence.
  - repeat (destruct (decide _); [discriminate|]). cbn. lia.
Qed.

(** The score is additive over groups and does not depend on the order of
    the rows: the score of two series put together is the sum of their
    scores, two series with the same cells in another order score the
    same, and a series of [n] cells scores between 0 and [3 n]. *)
Theorem calculate_danger_score_additive :
  (∀ s1 s2, calculate_danger_score (s1 ++ s2)
            = calculate_danger_score s1 + calculate_danger_score s2)
  ∧ (∀ s1 s2, s1 ≡ₚ s2 → calculate_danger_score s1 = calculate_danger_score s2)
  ∧ (∀ s, 0 ≤ calculate_danger_score s ≤ 3 * Z.of_nat (length s)).
Proof.
  assert (Hadd : ∀ s1 s2, calculate_danger_score (s1 ++ s2)
            = calculate_danger_score s1 + calculate_danger_score s2).
  { intros s1 s2. rewrite !calculate_danger_score_counts, !severity_count_app. lia. }
  split; [exact Hadd|]. split.
  - intros s1 s2 H. rewrite !calculate_danger_score_counts.
    rewrite !(severity_count_perm _ s1 s2 H). reflexivity.
  - induction s as [|v s IH]; [cbn; lia|].
    change (v :: s) with ([v] ++ s). rewrite Hadd.
    pose proof (calculate_danger_score_cell v). cbn [length app]. lia.
Qed.

(** Two groups and their union, and a reordering (an instance of
    [calculate_danger_score_additive]). *)
Lemma calculate_danger_score_additive_witness :
  calculate_danger_score ([Some "Major"; None] ++ [Some "Minor"; Some "Closed"])
    = 3 + 1
  ∧ calculate_danger_score [Some "Minor"; Some "Major"]
    = calculate_danger_score [Some "Major"; Some "Minor"].
Proof.
  destruct calculate_danger_score_additive as (Hadd & Hperm & _). split.
  - rewrite Hadd. reflexivity.
  - apply Hperm. apply Permutation_swap.
Defined.

(** *** Further properties of the clearance time *)

(** The incident has both timestamps and a duration within the bounds. *)
Definition counts_for_clearance (r : event) : bool :=
  match duration_minutes r with
  | Some d => clearance_mask d
  | None => false
  end.

Lemma surviving_durations_filter crashes :
  surviving_durations (List.filter counts_for_clearance crashes)
  = surviving_durations crashes.
Proof.
  unfold surviving_durations.
  induction crashes as [|r crashes IH]; [reflexivity|].
  cbn [List.filter]. unfold counts_for_clearance at 1.
  destruct (duration_minutes r) as [d|] eqn:Hd.
  - destruct (clearance_mask d) eqn:Hm.
    + cbn [omap list_omap]. rewrite Hd. cbn [List.filter]. rewrite Hm, IH.
      reflexivity.
    + rewrite IH. cbn [omap list_omap]. rewrite Hd. cbn [List.filter].
      rewrite Hm. reflexivity.
  - rewrite IH. cbn [omap list_omap]. rewrite Hd. reflexivity.
Qed.

(** Incidents without both timestamps, and incidents whose duration is
    outside the bounds, have no influence on the average: leaving them out
    of the frame gives the same result. *)
Theorem calculate_avg_clearance_minutes_ignores_rows (crashes : list event) :
  calculate_avg_clearance_minutes (Some (List.filter counts_for_clearance crashes))
  = calculate_avg_clearance_minutes (Some crashes).
Proof.
  rewrite !calculate_avg_clearance_minutes_unfold, surviving_durations_filter.
  reflexivity.
Qed.


(** *** The cluster summary of [find_crash_clusters] *)

(** One row of the frame [find_crash_clusters] returns; [cluster] is the
    index ([cluster_id]). *)
Record cluster_row := ClusterRow {
  cluster : Z;
  Crashes : nat;
  Lat : Q;
  Lon : Q;
  Location : option string;
  Road : option string;
  County : option string
}.

(** [crashes.dropna(subset=["Start Latitude", "Start Longitude"])] *)
Definition crashes_with_coords (crashes : list event) : list event :=
  List.filter (λ r, bool_decide (is_Some (row_coords r))) crashes.

(** The aggregation ["first"]: the first cell that is not missing. *)
Fixpoint first_valid (cells : list (option string)) : option string :=
  match cells with
  | [] => None
  | Some x :: _ => Some x
  | None :: rest => first_valid rest
  end.

(** The keys of [groupby("cluster_id")]: the labels that occur, each once,
    in increasing order. *)
Fixpoint insert_key (c : Z) (keys : list Z) : list Z :=
  match keys with
  | [] => [c]
  | k :: rest =>
      if c <? k then c :: keys
      else if c =? k then keys
      else k :: insert_key c rest
  end.

Definition group_keys (labels : list Z) : list Z :=
  foldr insert_key [] labels.

(** The rows of the group with key [c], in the order of the frame. *)
Definition group_rows (labelled : list (event * Z)) (c : Z) : list event :=
  fst <$> List.filter (λ rl, snd rl =? c) labelled.

(** [.agg({"Event ID": "count", "Start Latitude": "mean",
    "Start Longitude": "mean", "Location": "first", "Road": "first",
    "County": "first"})] on one group. *)
Definition aggregate (labelled : list (event * Z)) (c : Z) : cluster_row :=
  let rows := group_rows labelled c in
  ClusterRow c (length rows)
    (mean (omap start_latitude rows))
    (mean (omap start_longitude rows))
    (first_valid (location <$> rows))
    (first_valid (road <$> rows))
    (first_valid (county <$> rows)).

Fixpoint insert_by_crashes (r : cluster_row) (rows : list cluster_row)
    : list cluster_row :=
  match rows with
  | [] => [r]
  | x :: rest =>
      if (Crashes x <=? Crashes r)%nat then r :: rows
      else x :: insert_by_crashes r rest
  end.

(** [sort_values("Crashes", ascending=False)].  pandas leaves the order
    of rows with equal counts open; here they keep the order of the
    keys. *)
Definition sort_by_crashes_desc (rows : list cluster_row) : list cluster_row :=
  foldr insert_by_crashes [] rows.

Lemma filter_ext_in {A} (P Q : A → Prop) `{∀ x, Decision (P x)}
    `{∀ x, Decision (Q x)} (l : list A) :
  (∀ x, x ∈ l → P x ↔ Q x) → filter P l = filter Q l.
Proof.
  induction l as [|x l IH]; intros Hext; [reflexivity|].
  rewrite !filter_cons.
  rewrite IH by (intros y Hy; apply Hext; right; exact Hy).
  destruct (decide (P x)) as [HP | HP], (decide (Q x)) as [HQ | HQ];
    try reflexivity; exfalso.
  - apply HQ, (Hext x); [left | exact HP].
  - apply HP, (Hext x); [left | exact HQ].
Qed.

(** The number of cells of a column that hold the label [c]. *)
Definition count_label (column : list Z) (c : Z) : nat :=
  length (List.filter (λ l, l =? c) column).

Lemma count_label_indices (column : list Z) (c : Z) (off : nat) :
  length (filter (λ j, column !! (j - off)%nat = Some c)
            (seq off (length column)))
  = count_label column c.
Proof.
  unfold count_label. revert off.
  induction column as [|x column IH]; intros off; [reflexivity|].
  cbn [length seq List.filter].
  assert (Htail :
    length (filter (λ j, (x :: column) !! (j - off)%nat = Some c)
              (seq (S off) (length column)))
    = length (List.filter (λ l, l =? c) column)).
  { rewrite <- (IH (S off)). f_equal. apply filter_ext_in.
    intros j Hj. apply elem_of_seq in Hj.
    replace (j - off)%nat with (S (j - S off)) by lia. reflexivity. }
  rewrite filter_cons. replace (off - off)%nat with 0%nat by lia.
  cbn [lookup list_lookup].
  destruct (decide (Some x = Some c)) as [Heq | Hne].
  - injection Heq as ->. rewrite Z.eqb_refl. cbn [length]. rewrite Htail.
    reflexivity.
  - destruct (x =? c) eqn:Hx; [|exact Htail].
    apply Z.eqb_eq in Hx. congruence.
Qed.

(** A duplicate-free list of the positions that hold [c] has as many
    elements as the column has cells with [c]. *)
Lemma count_label_positions (column : list Z) (c : Z) (g : list nat) :
  NoDup g →
  (∀ j, j ∈ g ↔ column !! j = Some c) →
  length g = count_label column c.
Proof.
  intros Hnd Hg. rewrite <- (count_label_indices column c 0).
  apply Permutation_length, NoDup_Permutation; [exact Hnd| |].
  - apply NoDup_filter, NoDup_seq.
  - intros j. rewrite list_elem_of_filter, elem_of_seq, Nat.sub_0_r, Hg.
    split; [|tauto]. intros Hj. split; [exact Hj|].
    apply lookup_lt_Some in Hj. lia.
Qed.

Lemma group_rows_length (rows : list event) (column : list Z) (c : Z) :
  length rows = length column → 0 ≤ c →
  length (group_rows (List.filter (λ rl, 0 <=? snd rl) (zip rows column)) c)
  = count_label column c.
Proof.
  unfold group_rows, count_label. rewrite length_fmap. intros Hlen Hc.
  revert column Hlen. induction rows as [|r rows IH]; intros [|l column] Hlen;
    try discriminate; [reflexivity|].
  injection Hlen as Hlen. specialize (IH column Hlen).
  change (zip (r :: rows) (l :: column)) with ((r, l) :: zip rows column).
  cbn [List.filter snd].
  destruct (l =? c) eqn:Hl.
  - apply Z.eqb_eq in Hl. subst l.
    rewrite (proj2 (Z.leb_le 0 c) Hc). cbn [List.filter snd].
    rewrite Z.eqb_refl. cbn [length]. rewrite IH. reflexivity.
  - destruct (0 <=? l); cbn [List.filter snd]; rewrite ?Hl; exact IH.
Qed.

Lemma length_crashes_with_coords crashes :
  length (crashes_with_coords crashes) = length (coords_of crashes).
Proof.
  unfold crashes_with_coords, coords_of.
  induction crashes as [|r crashes IH]; [reflexivity|].
  cbn [List.filter omap list_omap].
  destruct (row_coords r) as [c|]; cbn; rewrite ?IH; reflexivity.
Qed.

Lemma elem_of_insert_key c keys x :
  x ∈ insert_key c keys ↔ x = c ∨ x ∈ keys.
Proof.
  induction keys as [|k rest IH]; cbn [insert_key].
  - rewrite list_elem_of_singleton. split; [auto|].
    intros [H | H]; [exact H | inversion H].
  - destruct (c <? k); [apply elem_of_cons|].
    destruct (c =? k) eqn:Hck.
    + apply Z.eqb_eq in Hck. subst k. rewrite elem_of_cons. tauto.
    + rewrite !elem_of_cons, IH. tauto.
Qed.

Lemma elem_of_group_keys labels x : x ∈ group_keys labels ↔ x ∈ labels.
Proof.
  induction labels as [|l labels IH]; [reflexivity|].
  cbn [group_keys foldr]. fold (group_keys labels).
  rewrite elem_of_insert_key, elem_of_cons, IH. reflexivity.
Qed.

Lemma insert_by_crashes_perm r rows : insert_by_crashes r rows ≡ₚ r :: rows.
Proof.
  induction rows as [|x rest IH]; cbn [insert_by_crashes]; [reflexivity|].
  destruct (Crashes x <=? Crashes r)%nat; [reflexivity|].
  rewrite IH. apply Permutation_swap.
Qed.

Lemma sort_by_crashes_desc_perm rows : sort_by_crashes_desc rows ≡ₚ rows.
Proof.
  induction rows as [|r rows IH]; [reflexivity|].
  cbn [sort_by_crashes_desc foldr]. fold (sort_by_crashes_desc rows).
  rewrite insert_by_crashes_perm, IH. reflexivity.
Qed.

Lemma insert_by_crashes_sorted r rows :
  StronglySorted (λ a b, (Crashes b ≤ Crashes a)%nat) rows →
  StronglySorted (λ a b, (Crashes b ≤ Crashes a)%nat) (insert_by_crashes r rows).
Proof.
  induction rows as [|x rest IH]; intros Hs; cbn [insert_by_crashes].
  - repeat constructor.
  - apply StronglySorted_inv in Hs as [Hrest Hx].
    destruct (Crashes x <=? Crashes r)%nat eqn:Hrx.
    + apply Nat.leb_le in Hrx.
      constructor; [constructor; assumption|].
      constructor; [exact Hrx|].
      rewrite Forall_forall in Hx |- *. intros y Hy. specialize (Hx y Hy). lia.
    + apply Nat.leb_gt in Hrx.
      constructor; [apply IH; exact Hrest|].
      rewrite Forall_forall. intros y Hy.
      rewrite insert_by_crashes_perm in Hy. apply elem_of_cons in Hy as [-> | Hy].
      * lia.
      * rewrite Forall_forall in Hx. apply Hx. exact Hy.
Qed.

Lemma sort_by_crashes_desc_sorted rows :
  StronglySorted (λ a b, (Crashes b ≤ Crashes a)%nat) (sort_by_crashes_desc rows).
Proof.
  induction rows as [|r rows IH]; [constructor|].
  cbn [sort_by_crashes_desc foldr]. apply insert_by_crashes_sorted. exact IH.
Qed.


Lemma snd_clustered (rows : list event) (column : list Z) :
  length rows = length column →
  snd <$> List.filter (λ rl, 0 <=? snd rl) (zip rows column)
  = List.filter (λ l, 0 <=? l) column.
Proof.
  revert column. induction rows as [|r rows IH]; intros [|l column] Hlen;
    try discriminate; [reflexivity|].
  injection Hlen as Hlen. specialize (IH column Hlen).
  change (zip (r :: rows) (l :: column)) with ((r, l) :: zip rows column).
  cbn [List.filter snd]. destruct (0 <=? l); [rewrite fmap_cons|];
    rewrite IH; reflexivity.
Qed.

Lemma committed_cons g gs :
  committed (g :: gs)
  = ((if decide (MIN_CLUSTER_SIZE ≤ length g)%nat then 1 else 0) + committed gs)%nat.
Proof.
  unfold committed. rewrite filter_cons. destruct (decide _); reflexivity.
Qed.

(** The number of committed groups before a committed group grows
    strictly with its position. *)
Lemma committed_take_lt (gs : list (list nat)) k k' g :
  (k < k')%nat → gs !! k = Some g → (MIN_CLUSTER_SIZE ≤ length g)%nat →
  (committed (take k gs) < committed (take k' gs))%nat.
Proof.
  revert k k'. induction gs as [|x gs IH]; intros k k' Hlt Hk Hg.
  - rewrite lookup_nil in Hk. discriminate.
  - destruct k' as [|k']; [lia|]. destruct k as [|k].
    + injection Hk as ->. cbn [take]. rewrite committed_cons.
      rewrite decide_True by exact Hg. unfold committed at 1. cbn. lia.
    + cbn [take]. rewrite !committed_cons.
      specialize (IH k k' ltac:(lia) Hk Hg). lia.
Qed.


Section FindCrashClusters.
Context {D : Type}.
Variable haversine_distance : Q → Q → Q → Q → D.
Variable le : D → D → bool.
Variable radius_miles : D.

(** [find_crash_clusters]; the empty frame is the empty list. *)
Definition find_crash_clusters (crashes : list event) : list cluster_row :=
  match crashes_with_coords crashes with
  | [] => []
  | rows =>
      let st := assign_clusters haversine_distance le radius_miles
                  (coords_of crashes) in
      let labelled := zip rows (cluster_id_column st) in
      let clustered := List.filter (λ rl, 0 <=? snd rl) labelled in
      match clustered with
      | [] => []
      | _ =>
          sort_by_crashes_desc
            (aggregate clustered <$> group_keys (snd <$> clustered))
      end
  end.

(** Which incidents carry a given cluster id: those of the committed
    group that was given it. *)
Lemma label_positions (coords : list (Q * Q)) k g :
  let st := assign_clusters haversine_distance le radius_miles coords in
  groups st !! k = Some g → (MIN_CLUSTER_SIZE ≤ length g)%nat →
  NoDup g
  ∧ ∀ j, j ∈ g ↔
      cluster_id_column st !! j = Some (Z.of_nat (committed (take k (groups st)))).
Proof.
  intros st Hk Hg.
  destruct (clusters_inv_run haversine_distance le radius_miles coords
              (length coords) (Nat.le_refl _))
    as [HA Hpre _ _ Hgs Hlen _ Hlab _].
  fold (assign_clusters haversine_distance le radius_miles coords) in *.
  fold st in HA, Hpre, Hgs, Hlen, Hlab.
  split.
  { destruct (Hgs k g Hk) as (s & _ & _ & _ & ->). apply NoDup_seed_group. }
  intros j. split.
  - intros Hj. rewrite (Hlab k g j Hk Hj). unfold group_label.
    rewrite decide_True by exact Hg. reflexivity.
  - intros Hj.
    assert (Hn : (j < length coords)%nat).
    { apply lookup_lt_Some in Hj. lia. }
    apply Hpre, HA, elem_of_concat in Hn as (g' & Hg' & Hjg').
    apply list_elem_of_lookup in Hg' as [k' Hk'].
    rewrite (Hlab k' g' j Hk' Hjg') in Hj. unfold group_label in Hj.
    destruct (decide (MIN_CLUSTER_SIZE ≤ length g')%nat) as [Hbig | Hsmall];
      [|injection Hj as Hj; lia].
    injection Hj as Hj. apply Nat2Z.inj in Hj.
    destruct (Nat.lt_trichotomy k k') as [Hlt | [-> | Hgt]].
    + pose proof (committed_take_lt _ _ _ _ Hlt Hk Hg). lia.
    + congruence.
    + pose proof (committed_take_lt _ _ _ _ Hgt Hk' Hbig). lia.
Qed.

(** A cell of the column that is not negative is the id of a committed
    group that holds the incident. *)
Lemma label_nonneg (coords : list (Q * Q)) j c :
  let st := assign_clusters haversine_distance le radius_miles coords in
  cluster_id_column st !! j = Some c → 0 ≤ c →
  ∃ k g, groups st !! k = Some g ∧ (MIN_CLUSTER_SIZE ≤ length g)%nat
         ∧ c = Z.of_nat (committed (take k (groups st))) ∧ j ∈ g.
Proof.
  intros st Hj Hc.
  destruct (clusters_inv_run haversine_distance le radius_miles coords
              (length coords) (Nat.le_refl _))
    as [HA Hpre _ _ _ Hlen _ Hlab _].
  fold (assign_clusters haversine_distance le radius_miles coords) in *.
  fold st in HA, Hpre, Hlen, Hlab.
  assert (Hn : (j < length coords)%nat).
  { apply lookup_lt_Some in Hj. lia. }
  apply Hpre, HA, elem_of_concat in Hn as (g & Hg & Hjg).
  apply list_elem_of_lookup in Hg as [k Hk].
  rewrite (Hlab k g j Hk Hjg) in Hj. unfold group_label in Hj.
  destruct (decide (MIN_CLUSTER_SIZE ≤ length g)%nat) as [Hbig | Hsmall];
    injection Hj as Hj; [|lia].
  exists k, g. auto.
Qed.


Lemma find_crash_clusters_unfold crashes :
  find_crash_clusters crashes =
    let st := assign_clusters haversine_distance le radius_miles
                (coords_of crashes) in
    let clustered :=
      List.filter (λ rl, 0 <=? snd rl)
        (zip (crashes_with_coords crashes) (cluster_id_column st)) in
    match clustered with
    | [] => []
    | _ => sort_by_crashes_desc
             (aggregate clustered <$> group_keys (snd <$> clustered))
    end.
Proof.
  unfold find_crash_clusters.
  destruct (crashes_with_coords crashes); reflexivity.
Qed.

(** The frame [find_crash_clusters] returns has one row per committed
    group: the row's index is the id the group was given and [Crashes] is
    the number of its members, so at least [MIN_CLUSTER_SIZE]; the rows
    come by decreasing [Crashes]; and the frame is empty exactly when no
    group reached the minimum size. *)
Theorem find_crash_clusters_rows (crashes : list event) :
  let st := assign_clusters haversine_distance le radius_miles
              (coords_of crashes) in
  (∀ row, row ∈ find_crash_clusters crashes →
     ∃ k g, groups st !! k = Some g
            ∧ (MIN_CLUSTER_SIZE ≤ length g)%nat
            ∧ cluster row = Z.of_nat (committed (take k (groups st)))
            ∧ Crashes row = length g)
  ∧ StronglySorted (λ a b, (Crashes b ≤ Crashes a)%nat)
      (find_crash_clusters crashes)
  ∧ (find_crash_clusters crashes = [] ↔
       ∀ g, g ∈ groups st → (length g < MIN_CLUSTER_SIZE)%nat).
Proof.
  intros st. rewrite find_crash_clusters_unfold. fold st. cbv zeta.
  set (column := cluster_id_column st).
  set (clustered := List.filter _ (zip _ column)).
  assert (Hlen : length (crashes_with_coords crashes) = length column).
  { rewrite length_crashes_with_coords. symmetry.
    apply (inv_length _ _ _ _ _ _
             (clusters_inv_run haversine_distance le radius_miles
                (coords_of crashes) _ (Nat.le_refl _))). }
  pose proof (snd_clustered _ _ Hlen) as Hsnd. fold clustered in Hsnd.
  assert (Hcell : ∀ c, c ∈ snd <$> clustered → 0 ≤ c ∧ ∃ j, column !! j = Some c).
  { intros c Hc. rewrite Hsnd in Hc.
    apply list_elem_of_In, filter_In in Hc as [Hc H0].
    apply Z.leb_le in H0. split; [exact H0|].
    apply list_elem_of_In, list_elem_of_lookup in Hc. exact Hc. }
  split; [|split].
  - intros row Hrow.
    assert (Hrow' : row ∈ aggregate clustered <$> group_keys (snd <$> clustered)).
    { destruct clustered; [inversion Hrow|].
      rewrite sort_by_crashes_desc_perm in Hrow. exact Hrow. }
    apply list_elem_of_fmap in Hrow' as (c & -> & Hc).
    apply elem_of_group_keys, Hcell in Hc as (H0 & j & Hj).
    destruct (label_nonneg (coords_of crashes) j c Hj H0)
      as (k & g & Hk & Hbig & -> & Hjg).
    exists k, g. repeat split; try assumption.
    cbn [aggregate Crashes]. unfold clustered.
    rewrite (group_rows_length _ _ _ Hlen) by lia.
    symmetry.
    destruct (label_positions (coords_of crashes) k g Hk Hbig) as [Hnd Hpos].
    apply count_label_positions; assumption.
  - destruct clustered; [constructor | apply sort_by_crashes_desc_sorted].
  - split.
    + intros Hout g Hg.
      destruct (decide (length g < MIN_CLUSTER_SIZE)%nat) as [|Hbig]; [assumption|].
      exfalso. apply list_elem_of_lookup in Hg as [k Hk].
      destruct (label_positions (coords_of crashes) k g Hk ltac:(lia))
        as [_ Hpos].
      destruct g as [|s g]; [cbn in Hbig; unfold MIN_CLUSTER_SIZE in Hbig; lia|].
      pose proof (proj1 (Hpos s) ltac:(left)) as Hs. fold st column in Hs.
      assert (Hin : Z.of_nat (committed (take k (groups st))) ∈ snd <$> clustered).
      { rewrite Hsnd. apply list_elem_of_In, filter_In. split.
        - apply list_elem_of_In, (list_elem_of_lookup_2 _ s). exact Hs.
        - apply Z.leb_le. lia. }
      destruct clustered as [|x rest] eqn:Hcl; [inversion Hin|].
      apply (f_equal length) in Hout.
      rewrite sort_by_crashes_desc_perm, length_fmap in Hout.
      apply elem_of_group_keys in Hin.
      destruct (group_keys (snd <$> x :: rest)); [inversion Hin | discriminate].
    + intros Hsmall.
      destruct clustered as [|x rest] eqn:Hcl; [reflexivity|]. exfalso.
      destruct (Hcell (snd x)) as (H0 & j & Hj); [rewrite fmap_cons; left|].
      destruct (label_nonneg (coords_of crashes) j (snd x) Hj H0)
        as (k & g & Hk & Hbig & _).
      apply list_elem_of_lookup_2 in Hk. specialize (Hsmall g Hk). lia.
Qed.


End FindCrashClusters.

(** Five crashes on I-85: three at latitude 33, two at latitude 40. *)
Definition crash_at (id : Z) (lat : Q) (loc : option string) : event :=
  Event id (Some "Crash") None loc None None None (Some "Minor")
    (Some "Lee") None (Some "I-85") None None None None None (Some 0) None
    None (Some 1) (Some lat) (Some (-85)%Q) None None None.

Definition sample_crashes : list event :=
  [crash_at 1 33%Q None; crash_at 2 40%Q None; crash_at 3 33%Q (Some "Exit 51");
   crash_at 4 33%Q None; crash_at 5 40%Q None].

(** One hot spot of three crashes; its location is the first one that is
    not missing, and the pair at latitude 40 is not reported (an instance
    of [find_crash_clusters_rows]). *)
Lemma find_crash_clusters_rows_witness :
  let row := ClusterRow 0 3 (99 # 3) (-255 # 3) (Some "Exit 51") (Some "I-85")
               (Some "Lee") in
  find_crash_clusters meridian_distance Qle_bool (1 # 2) sample_crashes = [row]
  ∧ ∃ k g,
      groups (assign_clusters meridian_distance Qle_bool (1 # 2)
                (coords_of sample_crashes)) !! k = Some g
      ∧ (MIN_CLUSTER_SIZE ≤ length g)%nat ∧ Crashes row = length g.
Proof.
  intros row.
  assert (Hout : find_crash_clusters meridian_distance Qle_bool (1 # 2)
                   sample_crashes = [row]) by (vm_compute; reflexivity).
  split; [exact Hout|].
  destruct (find_crash_clusters_rows meridian_distance Qle_bool (1 # 2)
              sample_crashes) as (Hrows & _ & _).
  destruct (Hrows row) as (k & g & Hk & Hbig & _ & Hlen).
  { rewrite Hout. left. }
  exists k, g. auto.
Defined.


End Calculations.

(** ** [database.py]: the incident store *)
Module Database.

(** The database file as the functions see it: the rows of
    [traffic_events] under their primary key, and the number of
    connections [get_connection] has opened so far. *)
Record db := Db {
  traffic_events : gmap Z event;
  connections : nat
}.

(** What [sqlite3] raises when a [NOT NULL] column receives NULL. *)
Inductive exn := IntegrityError.

(** The result of a call: a value or an exception, and the database after
    the call. *)
Inductive outcome (A : Type) :=
| Returned (a : A) (w : db)
| Raised (e : exn) (w : db).
Arguments Returned {A} a w.
Arguments Raised {A} e w.

(** [sqlite3.connect(DB_FILE)] in [get_connection]. *)
Definition connect (w : db) : db :=
  Db (traffic_events w) (S (connections w)).

(** The [NOT NULL] columns of the [CREATE TABLE] statement of [init_db]:
    [category], [start_time], [start_latitude], [start_longitude]
    ([event_id] is the integer primary key). *)
Definition not_null_columns (ev : event) : bool :=
  bool_decide (is_Some (category ev))
  && bool_decide (is_Some (start_time ev))
  && bool_decide (is_Some (start_latitude ev))
  && bool_decide (is_Some (start_longitude ev)).

(** One [INSERT OR REPLACE INTO traffic_events]: the row that holds the
    primary key, if any, is replaced as a whole; a NULL in a [NOT NULL]
    column without default aborts the statement. *)
Definition insert_or_replace (t : gmap Z event) (ev : event)
    : option (gmap Z event) :=
  if not_null_columns ev then Some (<[event_id ev := ev]> t) else None.

(** [conn.executemany(..., events)]: the statement once per record, in
    order, stopping at the first that aborts. *)
Fixpoint executemany (t : gmap Z event) (events : list event)
    : option (gmap Z event) :=
  match events with
  | [] => Some t
  | ev :: rest =>
      match insert_or_replace t ev with
      | Some t' => executemany t' rest
      | None => None
      end
  end.

(** [upsert_events].  When a statement aborts, the exception leaves the
    [with] block before [conn.commit()]; closing the connection rolls the
    transaction back, so the table is as before the call. *)
Definition upsert_events (events : list event) (w : db) : outcome Z :=
  match events with
  | [] => Returned 0 w
  | _ =>
      let w1 := connect w in
      match executemany (traffic_events w1) events with
      | Some t' => Returned (Z.of_nat (length events)) (Db t' (connections w1))
      | None => Raised IntegrityError w1
      end
  end.

(** [get_event_count]: [SELECT COUNT( * ) FROM traffic_events]. *)
Definition get_event_count (w : db) : nat * db :=
  (size (traffic_events (connect w)), connect w).

(** The arguments of [query_events].  A date is given as a timestamp, of
    which SQLite's [date()] keeps the day. *)
Record filters := Filters {
  start_date : option Z;
  end_date : option Z;
  counties : option (list string);
  categories : option (list string);
  severities : option (list string);
  active_only : bool
}.

(** SQL's three-valued logic: NULL is [None]. *)
Definition sql_and (a b : option bool) : option bool :=
  match a, b with
  | Some false, _ | _, Some false => Some false
  | Some true, Some true => Some true
  | _, _ => None
  end.

(** [x IS NOT NULL] *)
Definition sql_is_not_null {A} (x : option A) : option bool :=
  Some (bool_decide (is_Some x)).

(** [date(x)]: the calendar day of a timestamp. *)
Definition sql_date (x : option Z) : option Z :=
  (λ t, t `div` 86400) <$> x.

(** [x >= y] and [x <= y] *)
Definition sql_ge (x y : option Z) : option bool :=
  a ← x; b ← y; Some (b <=? a).

Definition sql_le (x y : option Z) : option bool :=
  a ← x; b ← y; Some (a <=? b).

(** [x IN (?, ..., ?)] with string parameters, none of them NULL. *)
Definition sql_in (x : option string) (params : list string) : option bool :=
  (λ v, bool_decide (v ∈ params)) <$> x.

(** [x = 1] *)
Definition sql_eq_one (x : option Z) : option bool :=
  (λ v, v =? 1) <$> x.

(** [if xs and "All" not in xs]: the list restricts the query. *)
Definition restricts (xs : option (list string)) : option (list string) :=
  match xs with
  | Some (x :: rest) =>
      if bool_decide ("All" ∈ x :: rest) then None else Some (x :: rest)
  | _ => None
  end.

(** The list [conditions] of [query_events], each condition with its
    parameters bound. *)
Definition conditions (f : filters) : list (event → option bool) :=
  [ (λ r, sql_is_not_null (start_latitude r));
    (λ r, sql_is_not_null (start_longitude r)) ]
  ++ match start_date f with
     | Some d => [λ r, sql_ge (sql_date (start_time r)) (sql_date (Some d))]
     | None => []
     end
  ++ match end_date f with
     | Some d => [λ r, sql_le (sql_date (start_time r)) (sql_date (Some d))]
     | None => []
     end
  ++ match restricts (counties f) with
     | Some xs => [λ r, sql_in (county r) xs]
     | None => []
     end
  ++ match restricts (categories f) with
     | Some xs => [λ r, sql_in (category r) xs]
     | None => []
     end
  ++ match restricts (severities f) with
     | Some xs => [λ r, sql_in (severity r) xs]
     | None => []
     end
  ++ (if active_only f then [λ r, sql_eq_one (active r)] else []).

(** [" AND ".join(conditions)], evaluated on a row. *)
Definition where_clause (conds : list (event → option bool)) (r : event)
    : option bool :=
  foldr (λ c acc, sql_and (c r) acc) (Some true) conds.

(** [WHERE] keeps the rows on which the clause is true (not false, not
    NULL). *)
Definition selected (conds : list (event → option bool)) (r : event) : bool :=
  bool_decide (where_clause conds r = Some true).

(** [a] comes no later than [b] under [ORDER BY start_time DESC]; NULL
    sorts below every value.  The order is that of the times, which is
    the order of the stored text as long as the rows were written in one
    format. *)
Definition start_time_desc (a b : event) : bool :=
  match start_time a, start_time b with
  | _, None => true
  | None, Some _ => false
  | Some x, Some y => y <=? x
  end.

Fixpoint insert_desc (r : event) (rows : list event) : list event :=
  match rows with
  | [] => [r]
  | x :: rest =>
      if start_time_desc r x then r :: rows else x :: insert_desc r rest
  end.

(** [ORDER BY start_time DESC].  SQL leaves the order of rows with equal
    start times open; here they keep the order of the scan. *)
Definition order_by_start_time_desc (rows : list event) : list event :=
  foldr insert_desc [] rows.

(** The rows of the table, as a scan delivers them. *)
Definition table_rows (w : db) : list event :=
  (map_to_list (traffic_events w)).*2.

(** [query_events]: the frame (one [event] per row, the columns renamed)
    and the database after the call. *)
Definition query_events (f : filters) (w : db) : list event * db :=
  let w1 := connect w in
  (order_by_start_time_desc
     (List.filter (selected (conditions f)) (table_rows w1)),
   w1).

(** *** What a query is to return *)

(** The filter on a field is omitted, empty, or holds the "All" sentinel. *)
Definition unrestricted (xs : option (list string)) : Prop :=
  xs = None ∨ xs = Some [] ∨ ∃ l, xs = Some l ∧ "All" ∈ l.

(** The field passes the membership filter. *)
Definition member_filter (xs : option (list string)) (v : option string) : Prop :=
  unrestricted xs ∨ ∃ l x, xs = Some l ∧ v = Some x ∧ x ∈ l.

(** The calendar day of a timestamp. *)
Definition day (t : Z) : Z := t `div` 86400.

(** The record passes every filter that was supplied, and has its start
    coordinates. *)
Definition satisfies (f : filters) (r : event) : Prop :=
  is_Some (start_latitude r) ∧ is_Some (start_longitude r)
  ∧ (∀ d, start_date f = Some d → ∃ t, start_time r = Some t ∧ day d ≤ day t)
  ∧ (∀ d, end_date f = Some d → ∃ t, start_time r = Some t ∧ day t ≤ day d)
  ∧ member_filter (counties f) (county r)
  ∧ member_filter (categories f) (category r)
  ∧ member_filter (severities f) (severity r)
  ∧ (active_only f = true → active r = Some 1).

(** The record is a row of the table. *)
Definition stored (w : db) (r : event) : Prop :=
  ∃ k, traffic_events w !! k = Some r.

(** Every row is filed under its own [event_id], as [insert_or_replace]
    files it. *)
Definition keyed (w : db) : Prop :=
  ∀ k r, traffic_events w !! k = Some r → event_id r = k.

(** The filters with one field left out. *)
Definition without_counties (f : filters) : filters :=
  Filters (start_date f) (end_date f) None (categories f) (severities f)
    (active_only f).

Definition without_categories (f : filters) : filters :=
  Filters (start_date f) (end_date f) (counties f) None (severities f)
    (active_only f).

Definition without_severities (f : filters) : filters :=
  Filters (start_date f) (end_date f) (counties f) (categories f) None
    (active_only f).

Lemma sql_and_true a b : sql_and a b = Some true ↔ a = Some true ∧ b = Some true.
Proof. destruct a as [[]|], b as [[]|]; cbn; intuition congruence. Qed.

Lemma where_clause_true conds r :
  where_clause conds r = Some true ↔ Forall (λ c, c r = Some true) conds.
Proof.
  induction conds as [|c conds IH]; cbn [where_clause foldr].
  - split; [constructor | reflexivity].
  - fold (where_clause conds r). rewrite sql_and_true, IH, Forall_cons.
    reflexivity.
Qed.

Lemma restricts_None xs : restricts xs = None ↔ unrestricted xs.
Proof.
  unfold restricts, unrestricted. destruct xs as [[|x rest]|].
  - split; auto.
  - case_bool_decide as Hall; split; try discriminate; auto.
    + intros _. right; right. eauto.
    + intros [H | [H | (l & H & Hl)]]; try discriminate.
      injection H as <-. contradiction.
  - split; auto.
Qed.

Lemma restricts_Some xs l : restricts xs = Some l → xs = Some l ∧ ¬ unrestricted xs.
Proof.
  intros H. assert (Hne : restricts xs ≠ None) by congruence.
  rewrite restricts_None in Hne. split; [|exact Hne].
  unfold restricts in H. destruct xs as [[|x rest]|]; try discriminate.
  case_bool_decide; [discriminate | congruence].
Qed.

Lemma sql_in_true v l : sql_in v l = Some true ↔ ∃ x, v = Some x ∧ x ∈ l.
Proof.
  unfold sql_in. destruct v as [x|]; cbn.
  - split.
    + intros H. injection H as H. apply bool_decide_eq_true in H. eauto.
    + intros (y & Hy & Hin). injection Hy as ->.
      rewrite bool_decide_eq_true_2 by exact Hin. reflexivity.
  - split; [discriminate | intros (x & H & _); discriminate].
Qed.

(** The condition a membership filter contributes, if any, holds exactly
    when the field passes the filter. *)
Lemma membership_condition xs (proj : event → option string) r :
  Forall (λ c : event → option bool, c r = Some true)
    (match restricts xs with
     | Some l => [λ r, sql_in (proj r) l]
     | None => []
     end)
  ↔ member_filter xs (proj r).
Proof.
  unfold member_filter. destruct (restricts xs) as [l|] eqn:Hr.
  - apply restricts_Some in Hr as [-> Hno].
    rewrite Forall_singleton, sql_in_true. split.
    + intros (x & Hx & Hin). right. eauto.
    + intros [H | (l' & x & Hl & Hx & Hin)]; [contradiction|].
      injection Hl as <-. eauto.
  - apply restricts_None in Hr. split; [auto | constructor].
Qed.

Lemma selected_satisfies f r :
  selected (conditions f) r = true ↔ satisfies f r.
Proof.
  unfold selected, conditions, satisfies.
  rewrite bool_decide_eq_true, where_clause_true.
  rewrite !Forall_app, !Forall_cons, !membership_condition.
  unfold sql_is_not_null.
  assert (Hnn : ∀ A (x : option A),
            Some (bool_decide (is_Some x)) = Some true ↔ is_Some x).
  { intros A x. split.
    - intros H. injection H as H. apply bool_decide_eq_true in H. exact H.
    - intros H. rewrite bool_decide_eq_true_2 by exact H. reflexivity. }
  rewrite !Hnn.
  assert (Hsd : Forall (λ c : event → option bool, c r = Some true)
                  (match start_date f with
                   | Some d => [λ r, sql_ge (sql_date (start_time r)) (sql_date (Some d))]
                   | None => []
                   end)
                ↔ ∀ d, start_date f = Some d →
                    ∃ t, start_time r = Some t ∧ day d ≤ day t).
  { destruct (start_date f) as [d|].
    - rewrite Forall_singleton. unfold sql_ge, sql_date, day.
      destruct (start_time r) as [t|]; cbn.
      + split.
        * intros H d' Hd'. injection Hd' as <-. injection H as H.
          exists t. split; [reflexivity | lia].
        * intros H. destruct (H d eq_refl) as (t' & Ht' & Hle).
          injection Ht' as <-. f_equal. lia.
      + split; [discriminate|].
        intros H. destruct (H d eq_refl) as (t' & Ht' & _). discriminate.
    - split; [intros _ d Hd; discriminate | constructor]. }
  assert (Hed : Forall (λ c : event → option bool, c r = Some true)
                  (match end_date f with
                   | Some d => [λ r, sql_le (sql_date (start_time r)) (sql_date (Some d))]
                   | None => []
                   end)
                ↔ ∀ d, end_date f = Some d →
                    ∃ t, start_time r = Some t ∧ day t ≤ day d).
  { destruct (end_date f) as [d|].
    - rewrite Forall_singleton. unfold sql_le, sql_date, day.
      destruct (start_time r) as [t|]; cbn.
      + split.
        * intros H d' Hd'. injection Hd' as <-. injection H as H.
          exists t. split; [reflexivity | lia].
        * intros H. destruct (H d eq_refl) as (t' & Ht' & Hle).
          injection Ht' as <-. f_equal. lia.
      + split; [discriminate|].
        intros H. destruct (H d eq_refl) as (t' & Ht' & _). discriminate.
    - split; [intros _ d Hd; discriminate | constructor]. }
  assert (Hact : Forall (λ c : event → option bool, c r = Some true)
                   (if active_only f then [λ r, sql_eq_one (active r)] else [])
                 ↔ (active_only f = true → active r = Some 1)).
  { destruct (active_only f).
    - rewrite Forall_singleton. unfold sql_eq_one.
      destruct (active r) as [a|]; cbn.
      + split.
        * intros H _. injection H as H. f_equal. lia.
        * intros H. specialize (H eq_refl). injection H as ->. reflexivity.
      + split; [discriminate | intros H; specialize (H eq_refl); discriminate].
    - split; [intros _ H; discriminate | constructor]. }
  rewrite Hsd, Hed, Hact, Forall_nil. tauto.
Qed.

Lemma insert_desc_perm r rows : insert_desc r rows ≡ₚ r :: rows.
Proof.
  induction rows as [|x rest IH]; cbn [insert_desc]; [reflexivity|].
  destruct (start_time_desc r x); [reflexivity|].
  rewrite IH. apply Permutation_swap.
Qed.

Lemma order_by_start_time_desc_perm rows :
  order_by_start_time_desc rows ≡ₚ rows.
Proof.
  induction rows as [|r rows IH]; [reflexivity|].
  cbn [order_by_start_time_desc foldr]. fold (order_by_start_time_desc rows).
  rewrite insert_desc_perm, IH. reflexivity.
Qed.

Lemma filter_sublist {A} (p : A → bool) l : List.filter p l `sublist_of` l.
Proof.
  induction l as [|x l IH]; cbn [List.filter]; [constructor|].
  destruct (p x); [apply sublist_skip | apply sublist_cons]; exact IH.
Qed.

Lemma elem_of_table_rows w r : r ∈ table_rows w ↔ stored w r.
Proof.
  unfold table_rows, stored. rewrite list_elem_of_fmap. split.
  - intros ([k r'] & -> & Hin). exists k.
    apply elem_of_map_to_list in Hin. exact Hin.
  - intros (k & Hk). exists (k, r). split; [reflexivity|].
    apply elem_of_map_to_list. exact Hk.
Qed.

Lemma keyed_table_rows w : keyed w → NoDup (event_id <$> table_rows w).
Proof.
  intros Hkeyed. unfold table_rows.
  replace (event_id <$> (map_to_list (traffic_events w)).*2)
    with ((map_to_list (traffic_events w)).*1);
    [apply NoDup_fst_map_to_list|].
  rewrite <- list_fmap_compose. apply list_fmap_ext.
  intros i [k r] Hin. cbn. symmetry. apply Hkeyed.
  apply elem_of_map_to_list. apply (list_elem_of_lookup_2 _ i). exact Hin.
Qed.

Lemma elem_of_query_events f w r :
  r ∈ (query_events f w).1 ↔ stored w r ∧ satisfies f r.
Proof.
  unfold query_events. cbn [fst].
  rewrite order_by_start_time_desc_perm.
  rewrite list_elem_of_In, filter_In, <- list_elem_of_In.
  rewrite selected_satisfies, elem_of_table_rows. reflexivity.
Qed.

Lemma NoDup_query_events f w :
  keyed w → NoDup (event_id <$> (query_events f w).1).
Proof.
  intros Hkeyed. unfold query_events. cbn [fst].
  rewrite order_by_start_time_desc_perm.
  eapply sublist_NoDup; [apply (keyed_table_rows w Hkeyed)|].
  apply fmap_sublist, filter_sublist.
Qed.

Lemma conditions_without_counties f :
  unrestricted (counties f) → conditions f = conditions (without_counties f).
Proof.
  intros H. apply restricts_None in H. unfold conditions. cbn. rewrite H.
  reflexivity.
Qed.

Lemma conditions_without_categories f :
  unrestricted (categories f) → conditions f = conditions (without_categories f).
Proof.
  intros H. apply restricts_None in H. unfold conditions. cbn. rewrite H.
  reflexivity.
Qed.

Lemma conditions_without_severities f :
  unrestricted (severities f) → conditions f = conditions (without_severities f).
Proof.
  intros H. apply restricts_None in H. unfold conditions. cbn. rewrite H.
  reflexivity.
Qed.

(** C5.  For every combination of filters and every state of the table,
    the rows [query_events] returns are exactly the stored records that
    have both start coordinates and pass every supplied filter (start day
    within the inclusive day range, county, category and severity in
    their lists, active flag set when asked for); a record of the table is
    returned at most once; the table is left as it was; and a membership
    filter that is omitted, empty or holds "All" gives the same result as
    the query without that filter. *)
Theorem query_events_spec (f : filters) (w : db) :
  (∀ r, r ∈ (query_events f w).1 ↔ stored w r ∧ satisfies f r)
  ∧ (keyed w → NoDup (event_id <$> (query_events f w).1))
  ∧ traffic_events (query_events f w).2 = traffic_events w
  ∧ (unrestricted (counties f) →
       (query_events f w).1 = (query_events (without_counties f) w).1)
  ∧ (unrestricted (categories f) →
       (query_events f w).1 = (query_events (without_categories f) w).1)
  ∧ (unrestricted (severities f) →
       (query_events f w).1 = (query_events (without_severities f) w).1).
Proof.
  split; [intros r; apply elem_of_query_events|].
  split; [apply NoDup_query_events|].
  split; [reflexivity|].
  unfold query_events; cbn [fst].
  split; [|split].
  - intros H. rewrite (conditions_without_counties f H). reflexivity.
  - intros H. rewrite (conditions_without_categories f H). reflexivity.
  - intros H. rewrite (conditions_without_severities f H). reflexivity.
Qed.

(** A stored row for the examples. *)
Definition sample_event (id : Z) (cty sev : string) (t : option Z)
    (lat : option Q) : event :=
  Event id (Some "Crash") None None None None None (Some sev) (Some cty) None
    None None None None None None t None None (Some 1) lat (Some (-86)%Q)
    None None None.

Definition sample_db : db :=
  Db (list_to_map
        [(1, sample_event 1 "Jefferson" "Major" (Some 86400) (Some 33%Q));
         (2, sample_event 2 "Jefferson" "Minor" (Some 86500) (Some 33%Q));
         (3, sample_event 3 "Mobile" "Major" (Some 90000) (Some 30%Q));
         (4, sample_event 4 "Jefferson" "Major" (Some 172800) None)]) 0.

(** County filter {Jefferson} with severity filter {Major}: of the four
    rows only the first passes both and has coordinates; and a county list
    that holds "All" is the same as no county list (an instance of
    [query_events_spec]). *)
Lemma query_events_spec_witness :
  let f := Filters None None (Some ["Jefferson"]) None (Some ["Major"]) false in
  let g := Filters None None (Some ["All"; "Mobile"]) None (Some ["Major"]) false in
  (query_events f sample_db).1
    = [sample_event 1 "Jefferson" "Major" (Some 86400) (Some 33%Q)]
  ∧ sample_event 2 "Jefferson" "Minor" (Some 86500) (Some 33%Q)
      ∉ (query_events f sample_db).1
  ∧ (query_events g sample_db).1 = (query_events (without_counties g) sample_db).1.
Proof.
  intros f g.
  split; [vm_compute; reflexivity|].
  split.
  - intros Hin.
    apply (proj1 (query_events_spec f sample_db)) in Hin as [_ Hsat].
    destruct Hsat as (_ & _ & _ & _ & _ & _ & Hsev & _).
    destruct Hsev as [[H | [H | (l & H & Hall)]] | (l & x & Hl & Hx & Hin)];
      try discriminate.
    + injection H as <-. apply list_elem_of_singleton in Hall. discriminate.
    + injection Hl as <-. injection Hx as <-.
      apply list_elem_of_singleton in Hin. discriminate.
  - apply (proj1 (proj2 (proj2 (proj2 (query_events_spec g sample_db))))).
    right; right. exists ["All"; "Mobile"]. split; [reflexivity | left].
Defined.

(** *** Upsert *)

(** The record can be inserted: its [NOT NULL] columns are present. *)
Definition insertable (ev : event) : Prop :=
  is_Some (category ev) ∧ is_Some (start_time ev)
  ∧ is_Some (start_latitude ev) ∧ is_Some (start_longitude ev).

Lemma not_null_columns_insertable ev :
  not_null_columns ev = true ↔ insertable ev.
Proof.
  unfold not_null_columns, insertable.
  rewrite !andb_true_iff, !bool_decide_eq_true. tauto.
Qed.

Lemma keyed_insert t c c' ev :
  keyed (Db t c) → keyed (Db (<[event_id ev := ev]> t) c').
Proof.
  unfold keyed. cbn. intros Hkeyed k r Hk.
  destruct (decide (event_id ev = k)) as [<- | Hne].
  - rewrite lookup_insert_eq in Hk. congruence.
  - rewrite lookup_insert_ne in Hk by exact Hne. apply Hkeyed. exact Hk.
Qed.

Lemma executemany_keyed events t t' c c' :
  executemany t events = Some t' → keyed (Db t c) → keyed (Db t' c').
Proof.
  revert t. induction events as [|ev events IH]; intros t Hrun Hkeyed.
  - injection Hrun as <-. exact Hkeyed.
  - cbn [executemany] in Hrun. unfold insert_or_replace in Hrun.
    destruct (not_null_columns ev); [|discriminate].
    apply (IH _ Hrun). apply (keyed_insert t c c). exact Hkeyed.
Qed.

(** Every database that [upsert_events] returns from a keyed one is
    keyed; the empty table is. *)
Lemma upsert_events_keyed events w n w' :
  upsert_events events w = Returned n w' → keyed w → keyed w'.
Proof.
  unfold upsert_events. destruct events as [|ev events].
  - intros H. injection H as _ <-. auto.
  - destruct (executemany _ _) as [t'|] eqn:Hrun; [|discriminate].
    intros H Hkeyed. injection H as _ <-.
    apply (executemany_keyed _ _ _ (connections w) _ Hrun).
    destruct w. exact Hkeyed.
Qed.

Lemma keyed_empty c : keyed (Db ∅ c).
Proof. intros k r Hk. cbn in Hk. rewrite lookup_empty in Hk. discriminate. Qed.

Lemma filter_eq_absent (x : event) (l : list event) :
  x ∉ l → filter (λ r, r = x) l = [].
Proof.
  induction l as [|y l IH]; intros Hx; [reflexivity|].
  rewrite filter_cons. destruct (decide (y = x)) as [-> | Hne].
  - exfalso. apply Hx. left.
  - apply IH. intros H. apply Hx. right. exact H.
Qed.

(** In a list whose rows have pairwise different identities, a row that
    occurs occurs once. *)
Lemma filter_eq_once (x : event) (l : list event) :
  NoDup (event_id <$> l) → x ∈ l → length (filter (λ r, r = x) l) = 1%nat.
Proof.
  induction l as [|y l IH]; intros Hnd Hx; [inversion Hx|].
  rewrite fmap_cons in Hnd. apply NoDup_cons in Hnd as [Hy Hnd].
  rewrite filter_cons. destruct (decide (y = x)) as [-> | Hne].
  - rewrite filter_eq_absent; [reflexivity|].
    intros H. apply Hy. apply list_elem_of_fmap_2. exact H.
  - apply IH; [exact Hnd|].
    apply elem_of_cons in Hx as [-> | Hx]; [contradiction | exact Hx].
Qed.

(** C9.  With an empty list of records [upsert_events] returns 0 and the
    database is the one it was given: the same rows, and no connection
    opened. *)
Theorem upsert_events_empty (w : db) :
  upsert_events [] w = Returned 0 w.
Proof. reflexivity. Qed.

(** C6, as stated, fails on a record without start time: it has both
    coordinates and so passes the query without filters, but [start_time]
    is a [NOT NULL] column; the insertion raises [IntegrityError], nothing
    is stored, and the query returns no row. *)
Lemma upsert_events_null_start_time_rejected :
  let ev := sample_event 7 "Lee" "Minor" None (Some 32%Q) in
  let no_filters := Filters None None None None None false in
  satisfies no_filters ev
  ∧ upsert_events [ev] (Db ∅ 0) = Raised IntegrityError (Db ∅ 1)
  ∧ (query_events no_filters (Db ∅ 1)).1 = [].
Proof.
  intros ev no_filters. split; [|split; vm_compute; reflexivity].
  unfold satisfies, member_filter, unrestricted. cbn.
  repeat split; eauto; discriminate.
Qed.

(** C6, amended.  For a keyed table and a record whose category and start
    time are present and which passes the filters (so it has its start
    coordinates): [upsert_events] does not raise, whether or not the
    identity is already in the table; afterwards the query returns exactly
    one row equal to the record, and no other row with its identity; the
    row under that identity is the record, all fields replaced; the other
    rows are untouched; and the number of rows is unchanged when the
    identity was present (one more when it was not). *)
Theorem upsert_events_round_trip (ev : event) (f : filters) (w : db) :
  keyed w →
  is_Some (category ev) → is_Some (start_time ev) →
  satisfies f ev →
  ∃ w', upsert_events [ev] w = Returned 1 w'
    ∧ keyed w'
    ∧ length (filter (λ r, r = ev) (query_events f w').1) = 1%nat
    ∧ (∀ r, r ∈ (query_events f w').1 → event_id r = event_id ev → r = ev)
    ∧ traffic_events w' !! event_id ev = Some ev
    ∧ (∀ k, k ≠ event_id ev → traffic_events w' !! k = traffic_events w !! k)
    ∧ (is_Some (traffic_events w !! event_id ev) →
         (get_event_count w').1 = (get_event_count w).1)
    ∧ (traffic_events w !! event_id ev = None →
         (get_event_count w').1 = S (get_event_count w).1).
Proof.
  intros Hkeyed Hcat Htime Hsat.
  assert (Hins : not_null_columns ev = true).
  { apply not_null_columns_insertable. unfold insertable.
    destruct Hsat as (Hlat & Hlon & _). auto. }
  set (w' := Db (<[event_id ev := ev]> (traffic_events w)) (S (connections w))).
  assert (Hrun : upsert_events [ev] w = Returned 1 w').
  { unfold upsert_events, executemany, insert_or_replace. cbn. rewrite Hins.
    reflexivity. }
  assert (Hkeyed' : keyed w').
  { apply (upsert_events_keyed _ _ _ _ Hrun Hkeyed). }
  assert (Hlook : traffic_events w' !! event_id ev = Some ev).
  { apply lookup_insert_eq. }
  assert (Hin : ev ∈ (query_events f w').1).
  { apply elem_of_query_events. split; [exists (event_id ev); exact Hlook|].
    exact Hsat. }
  exists w'. split; [exact Hrun|]. split; [exact Hkeyed'|].
  split; [apply filter_eq_once; [apply NoDup_query_events; exact Hkeyed' | exact Hin]|].
  split.
  { intros r Hr Hid. apply elem_of_query_events in Hr as [[k Hk] _].
    pose proof (Hkeyed' k r Hk) as Hkr. rewrite Hid in Hkr. subst k.
    rewrite Hlook in Hk. congruence. }
  split; [exact Hlook|].
  split; [intros k Hne; apply lookup_insert_ne; congruence|].
  unfold get_event_count. cbn. split.
  - intros Hsome. apply map_size_insert_Some. exact Hsome.
  - intros Hnone. apply map_size_insert_None. exact Hnone.
Qed.

(** The round trip on the sample table: incident 1 is uploaded again with
    its severity changed from "Major" to "Moderate"; the row is replaced,
    the table still has four rows, and the query for "Moderate" returns
    the new record once (an instance of [upsert_events_round_trip]). *)
Lemma upsert_events_round_trip_witness :
  let ev := sample_event 1 "Jefferson" "Moderate" (Some 86400) (Some 33%Q) in
  let f := Filters (Some 86400) (Some 90000) None None (Some ["Moderate"]) true in
  ∃ w', upsert_events [ev] sample_db = Returned 1 w'
    ∧ length (filter (λ r, r = ev) (query_events f w').1) = 1%nat
    ∧ traffic_events w' !! 1 = Some ev
    ∧ (get_event_count w').1 = 4%nat.
Proof.
  intros ev f.
  assert (Hkeyed : keyed sample_db).
  { intros k r Hk. unfold sample_db, traffic_events in Hk.
    apply elem_of_list_to_map_2 in Hk.
    repeat (apply elem_of_cons in Hk as [Hk | Hk];
            [injection Hk as -> ->; reflexivity|]).
    inversion Hk. }
  assert (Hsat : satisfies f ev).
  { unfold satisfies, member_filter, unrestricted. cbn.
    repeat split; eauto.
    - intros d Hd. injection Hd as <-. exists 86400. split; [reflexivity|].
      vm_compute. discriminate.
    - intros d Hd. injection Hd as <-. exists 86400. split; [reflexivity|].
      vm_compute. discriminate.
    - right. exists ["Moderate"], "Moderate". repeat split. left. }
  destruct (upsert_events_round_trip ev f sample_db Hkeyed
              (ltac:(cbn; eauto)) (ltac:(cbn; eauto)) Hsat)
    as (w' & Hrun & _ & Hone & _ & Hlook & _ & Hcount & _).
  exists w'. split; [exact Hrun|]. split; [exact Hone|]. split; [exact Hlook|].
  rewrite Hcount; [vm_compute; reflexivity|].
  vm_compute. eauto.
Defined.

(** *** Batches *)

(** The table after the statements of a batch, when none aborts. *)
Definition apply_batch (t : gmap Z event) (events : list event) : gmap Z event :=
  fold_left (λ t ev, <[event_id ev := ev]> t) events t.

(** The record of the batch that is written last under identity [k]. *)
Definition last_write (events : list event) (k : Z) : option event :=
  last (filter (λ ev, event_id ev = k) events).

Lemma executemany_Some events t t' :
  executemany t events = Some t' ↔
    Forall insertable events ∧ t' = apply_batch t events.
Proof.
  revert t. induction events as [|ev events IH]; intros t; cbn.
  - split; [intros H; injection H as <-; auto | intros [_ ->]; reflexivity].
  - unfold insert_or_replace.
    destruct (not_null_columns ev) eqn:Hnn.
    + rewrite IH, Forall_cons, <- not_null_columns_insertable. tauto.
    + split; [discriminate|]. intros [H _]. apply Forall_cons in H as [H _].
      apply not_null_columns_insertable in H. congruence.
Qed.

Lemma executemany_None events t :
  executemany t events = None ↔ Exists (λ ev, ¬ insertable ev) events.
Proof.
  destruct (executemany t events) as [t'|] eqn:Hrun.
  - apply executemany_Some in Hrun as [Hall _]. split; [discriminate|].
    intros Hex. apply Exists_exists in Hex as (ev & Hin & Hno).
    rewrite Forall_forall in Hall. exfalso. apply Hno, Hall. exact Hin.
  - split; [intros _|reflexivity].
    apply not_Forall_Exists; [intros ev; apply _|].
    intros Hall.
    assert (H : executemany t events = Some (apply_batch t events))
      by (apply executemany_Some; auto).
    congruence.
Qed.

Lemma apply_batch_lookup events t k :
  apply_batch t events !! k =
    match last_write events k with
    | Some ev => Some ev
    | None => t !! k
    end.
Proof.
  unfold apply_batch, last_write. revert t.
  induction events as [|ev events IH] using rev_ind; intros t; [reflexivity|].
  rewrite fold_left_app, filter_app, filter_cons, filter_nil. cbn [fold_left].
  destruct (decide (event_id ev = k)) as [<- | Hne].
  - rewrite last_snoc, lookup_insert_eq. reflexivity.
  - rewrite app_nil_r, lookup_insert_ne by exact Hne. apply IH.
Qed.


(** A batch is written as a whole or not at all: when some record of a
    non-empty batch lacks one of the [NOT NULL] columns, [upsert_events]
    raises [IntegrityError] and the table has the rows it had, whatever
    came before that record in the batch; when no record does, it returns
    the number of records. *)
Theorem upsert_events_all_or_nothing (events : list event) (w : db) :
  events ≠ [] →
  (Exists (λ ev, ¬ insertable ev) events →
     upsert_events events w
     = Raised IntegrityError (Db (traffic_events w) (S (connections w))))
  ∧ (Forall insertable events →
     upsert_events events w
     = Returned (Z.of_nat (length events))
         (Db (apply_batch (traffic_events w) events) (S (connections w)))).
Proof.
  intros Hne. destruct events as [|ev events]; [contradiction|].
  unfold upsert_events. cbn [connect traffic_events connections]. split.
  - intros Hex. apply (executemany_None _ (traffic_events w)) in Hex.
    rewrite Hex. reflexivity.
  - intros Hall.
    assert (H : executemany (traffic_events w) (ev :: events)
                = Some (apply_batch (traffic_events w) (ev :: events)))
      by (apply executemany_Some; auto).
    rewrite H. reflexivity.
Qed.

(** A batch of three records, the second without start time, on the sample
    table: the call raises and the table keeps its four rows, the first
    record of the batch is not stored either; without the second record
    the batch is written (an instance of [upsert_events_all_or_nothing]). *)
Lemma upsert_events_all_or_nothing_witness :
  let good1 := sample_event 11 "Lee" "Minor" (Some 100) (Some 32%Q) in
  let bad := sample_event 12 "Lee" "Minor" None (Some 32%Q) in
  let good2 := sample_event 13 "Lee" "Major" (Some 200) (Some 32%Q) in
  upsert_events [good1; bad; good2] sample_db
    = Raised IntegrityError (Db (traffic_events sample_db) 1)
  ∧ upsert_events [good1; good2] sample_db
    = Returned 2 (Db (apply_batch (traffic_events sample_db) [good1; good2]) 1).
Proof.
  intros good1 bad good2. split.
  - apply (upsert_events_all_or_nothing [good1; bad; good2] sample_db);
      [discriminate|].
    apply Exists_cons_tl, Exists_cons_hd.
    intros (_ & [t Ht] & _). discriminate Ht.
  - apply (upsert_events_all_or_nothing [good1; good2] sample_db);
      [discriminate|].
    repeat constructor; cbn; eauto.
Defined.

(** Last write wins inside a batch too: after a batch that is written,
    the row under an identity is the last record of the batch with that
    identity, and a row whose identity is not in the batch is untouched. *)
Theorem upsert_events_last_write_wins (events : list event) (w : db) (n : Z) (w' : db) :
  upsert_events events w = Returned n w' →
  n = Z.of_nat (length events)
  ∧ ∀ k, traffic_events w' !! k =
           match last_write events k with
           | Some ev => Some ev
           | None => traffic_events w !! k
           end.
Proof.
  unfold upsert_events. destruct events as [|ev events].
  - intros H. injection H as <- <-. split; [reflexivity|]. intros k. reflexivity.
  - cbn [connect traffic_events connections].
    destruct (executemany _ _) as [t'|] eqn:Hrun; [|discriminate].
    intros H. injection H as <- <-. split; [reflexivity|].
    apply executemany_Some in Hrun as [_ ->]. intros k. cbn [traffic_events].
    apply apply_batch_lookup.
Qed.

(** Incident 1 of the sample table sent twice in one batch, first as
    "Moderate" then as "Minor": the row ends as "Minor"; incident 2 is
    as it was (an instance of [upsert_events_last_write_wins]). *)
Lemma upsert_events_last_write_wins_witness :
  let first := sample_event 1 "Jefferson" "Moderate" (Some 86400) (Some 33%Q) in
  let second := sample_event 1 "Jefferson" "Minor" (Some 86400) (Some 33%Q) in
  ∃ w', upsert_events [first; second] sample_db = Returned 2 w'
    ∧ traffic_events w' !! 1 = Some second
    ∧ traffic_events w' !! 2 = traffic_events sample_db !! 2.
Proof.
  intros first second.
  destruct (upsert_events [first; second] sample_db) as [n w'|e w'] eqn:Hrun;
    [|vm_compute in Hrun; discriminate].
  destruct (upsert_events_last_write_wins _ _ _ _ Hrun) as [-> Hlook].
  exists w'. split; [reflexivity|]. split.
  - rewrite Hlook. reflexivity.
  - rewrite Hlook. reflexivity.
Defined.

(** *** The [created_at] column

    The [INSERT] statement does not name [created_at].  The row it writes,
    whether new or replacing an old one, gets the column's default,
    [CURRENT_TIMESTAMP]: the second in which its statement runs.  The
    column is kept beside the rows, by [event_id]. *)
Record stamped := Stamped {
  table : db;
  created_at : gmap Z Z
}.

(** The column after the statements of a batch; [clock] gives, record by
    record, the second in which the statement runs. *)
Definition stamp (created : gmap Z Z) (events : list event) (clock : list Z)
    : gmap Z Z :=
  fold_left (λ m '(ev, t), <[event_id ev := t]> m) (zip events clock) created.

(** [upsert_events] on the table with its [created_at] column: a batch that
    is rolled back leaves the column as it was. *)
Definition upsert_events_at (clock : list Z) (events : list event) (s : stamped)
    : outcome Z * gmap Z Z :=
  match upsert_events events (table s) with
  | Returned n w' => (Returned n w', stamp (created_at s) events clock)
  | Raised e w' => (Raised e w', created_at s)
  end.

Lemma stamp_lookup_notin created events clock k :
  k ∉ event_id <$> events → stamp created events clock !! k = created !! k.
Proof.
  unfold stamp. revert created clock.
  induction events as [|ev events IH]; intros created clock Hk; [reflexivity|].
  destruct clock as [|t clock]; [reflexivity|].
  cbn [zip zip_with fold_left]. rewrite fmap_cons, not_elem_of_cons in Hk.
  destruct Hk as [Hne Hk]. rewrite (IH _ _ Hk).
  apply lookup_insert_ne. congruence.
Qed.

Lemma stamp_lookup_in created events clock ev :
  length clock = length events → ev ∈ events →
  ∃ t, t ∈ clock ∧ stamp created events clock !! event_id ev = Some t.
Proof.
  revert created clock ev.
  induction events as [|e events IH]; intros created clock ev Hlen Hin;
    [inversion Hin|].
  destruct clock as [|t clock]; [discriminate|].
  cbn [length] in Hlen. injection Hlen as Hlen.
  change (stamp created (e :: events) (t :: clock))
    with (stamp (<[event_id e := t]> created) events clock).
  destruct (decide (event_id ev ∈ event_id <$> events)) as [Hlater | Hlater].
  - apply list_elem_of_fmap in Hlater as (ev' & Hid & Hev').
    destruct (IH (<[event_id e := t]> created) clock ev' Hlen Hev')
      as (t' & Ht' & Hl).
    exists t'. split; [right; exact Ht'|]. rewrite Hid. exact Hl.
  - rewrite (stamp_lookup_notin _ _ _ _ Hlater).
    apply elem_of_cons in Hin as [-> | Hin].
    + exists t. split; [left|]. apply lookup_insert_eq.
    + exfalso. apply Hlater. apply list_elem_of_fmap. exists ev. auto.
Qed.

(** Sending the same batch again returns the same count and leaves every
    column the statement writes as the first call left it; it is not
    without effect, though: each row of the batch is written anew and its
    [created_at] becomes a second of the second call, while the rows
    outside the batch keep theirs. *)
Theorem upsert_events_again (events : list event) (clock1 clock2 : list Z)
    (s : stamped) (n : Z) (w1 : db) (created1 : gmap Z Z) :
  upsert_events_at clock1 events s = (Returned n w1, created1) →
  length clock2 = length events →
  ∃ w2 created2,
    upsert_events_at clock2 events (Stamped w1 created1)
      = (Returned n w2, created2)
    ∧ traffic_events w2 = traffic_events w1
    ∧ (∀ ev, ev ∈ events →
         ∃ t, t ∈ clock2 ∧ created2 !! event_id ev = Some t)
    ∧ (∀ k, k ∉ event_id <$> events → created2 !! k = created1 !! k).
Proof.
  intros Hrun Hlen. unfold upsert_events_at in *. cbn [table created_at].
  destruct (upsert_events events (table s)) as [n' w'|e w'] eqn:Hfirst;
    [|discriminate].
  injection Hrun as -> -> <-.
  assert (Hsecond : ∃ w2, upsert_events events w1 = Returned n w2
                          ∧ traffic_events w2 = traffic_events w1).
  { destruct events as [|ev events].
    { injection Hfirst as <- <-. exists (table s). split; reflexivity. }
    unfold upsert_events in *. cbn [connect traffic_events connections] in *.
    destruct (executemany (traffic_events (table s)) _) as [t1|] eqn:Hrun1;
      [|discriminate].
    injection Hfirst as <- <-. cbn [traffic_events connections].
    apply executemany_Some in Hrun1 as [Hall ->].
    assert (H2 : executemany
                   (apply_batch (traffic_events (table s)) (ev :: events))
                   (ev :: events)
                 = Some (apply_batch
                           (apply_batch (traffic_events (table s)) (ev :: events))
                           (ev :: events)))
      by (apply executemany_Some; auto).
    rewrite H2. eexists. split; [reflexivity|]. cbn [traffic_events].
    apply map_eq. intros k. rewrite !apply_batch_lookup.
    destruct (last_write (ev :: events) k); reflexivity. }
  destruct Hsecond as (w2 & Hrun2 & Hsame). rewrite Hrun2.
  exists w2, (stamp (stamp (created_at s) events clock1) events clock2).
  split; [reflexivity|]. split; [exact Hsame|]. split.
  - intros ev Hev. apply stamp_lookup_in; assumption.
  - intros k Hk. apply stamp_lookup_notin. exact Hk.
Qed.

(** Incident 9 written in second 100 and again in second 200: the row is
    the same, its [created_at] is 200 and no longer 100; incident 1, which
    is not in the batch, keeps its own (an instance of
    [upsert_events_again]). *)
Lemma upsert_events_again_witness :
  let ev := sample_event 9 "Lee" "Minor" (Some 100) (Some 32%Q) in
  let s := Stamped sample_db {[ 1 := 50 ]} in
  ∃ w1 created1 w2 created2,
    upsert_events_at [100] [ev] s = (Returned 1 w1, created1)
    ∧ upsert_events_at [200] [ev] (Stamped w1 created1) = (Returned 1 w2, created2)
    ∧ traffic_events w2 = traffic_events w1
    ∧ created1 !! 9 = Some 100 ∧ created2 !! 9 = Some 200
    ∧ created2 !! 1 = Some 50.
Proof.
  intros ev s.
  destruct (upsert_events_at [100] [ev] s) as [[n w1|e w1] created1] eqn:Hrun;
    [|vm_compute in Hrun; discriminate].
  assert (Hn : n = 1) by (vm_compute in Hrun; congruence). subst n.
  assert (Hc : (upsert_events_at [100] [ev] s).2 = created1)
    by (rewrite Hrun; reflexivity).
  assert (H9 : created1 !! 9 = Some 100)
    by (rewrite <- Hc; vm_compute; reflexivity).
  assert (H1 : created1 !! 1 = Some 50)
    by (rewrite <- Hc; vm_compute; reflexivity).
  destruct (upsert_events_again [ev] [100] [200] s 1 w1 _ Hrun eq_refl)
    as (w2 & created2 & Hrun2 & Hsame & Hin & Hout).
  exists w1, created1, w2, created2.
  split; [reflexivity|]. split; [exact Hrun2|]. split; [exact Hsame|].
  split; [exact H9|]. split.
  - destruct (Hin ev ltac:(left)) as (t & Ht & Hl).
    apply list_elem_of_singleton in Ht. subst t. exact Hl.
  - rewrite (Hout 1); [exact H1|]. cbn. intros H.
    apply list_elem_of_singleton in H. discriminate.
Defined.

Lemma apply_batch_size events t :
  (size t ≤ size (apply_batch t events) ≤ size t + length events)%nat.
Proof.
  unfold apply_batch. revert t.
  induction events as [|ev events IH]; intros t; cbn [fold_left length]; [lia|].
  specialize (IH (<[event_id ev := ev]> t)).
  rewrite map_size_insert in IH.
  destruct (t !! event_id ev); cbn in IH; lia.
Qed.

(** [upsert_events] never removes a row: whether it returns or raises,
    every identity of the table is still in it, and the number of rows has
    not gone down nor grown by more than the length of the batch. *)
Theorem upsert_events_never_deletes (events : list event) (w : db) :
  let w' := match upsert_events events w with
            | Returned _ w' => w'
            | Raised _ w' => w'
            end in
  (∀ k, is_Some (traffic_events w !! k) → is_Some (traffic_events w' !! k))
  ∧ (size (traffic_events w) ≤ size (traffic_events w')
     ≤ size (traffic_events w) + length events)%nat.
Proof.
  unfold upsert_events. destruct events as [|ev events]; [cbn; split; [auto | lia]|].
  cbn [connect traffic_events connections].
  destruct (executemany _ _) as [t'|] eqn:Hrun.
  - apply executemany_Some in Hrun as [_ ->]. cbv beta iota zeta.
    cbn [traffic_events].
    split.
    + intros k Hk. rewrite apply_batch_lookup.
      destruct (last_write (ev :: events) k); [eauto | exact Hk].
    + apply apply_batch_size.
  - cbv beta iota zeta. unfold connect. cbn [traffic_events length].
    split; [auto | lia].
Qed.


(** *** Narrowing of query results *)

(** The filters with the date bounds or the active flag left out. *)
Definition without_start_date (f : filters) : filters :=
  Filters None (end_date f) (counties f) (categories f) (severities f)
    (active_only f).

Definition without_end_date (f : filters) : filters :=
  Filters (start_date f) None (counties f) (categories f) (severities f)
    (active_only f).

Definition without_active_only (f : filters) : filters :=
  Filters (start_date f) (end_date f) (counties f) (categories f)
    (severities f) false.

(** A filter only narrows: every row a query returns is also returned
    by the query with any one of its six filters left out. *)
Theorem query_events_narrows (f : filters) (w : db) (r : event) :
  r ∈ (query_events f w).1 →
  r ∈ (query_events (without_start_date f) w).1
  ∧ r ∈ (query_events (without_end_date f) w).1
  ∧ r ∈ (query_events (without_counties f) w).1
  ∧ r ∈ (query_events (without_categories f) w).1
  ∧ r ∈ (query_events (without_severities f) w).1
  ∧ r ∈ (query_events (without_active_only f) w).1.
Proof.
  rewrite !elem_of_query_events.
  intros [Hst (H1 & H2 & H3 & H4 & H5 & H6 & H7 & H8)].
  assert (Hun : ∀ v, member_filter None v) by (intros v; left; left; reflexivity).
  unfold satisfies, without_start_date, without_end_date, without_counties,
    without_categories, without_severities, without_active_only.
  cbn [start_date end_date counties categories severities active_only].
  repeat split; try assumption; try apply Hun; try discriminate.
Qed.

(** On the sample table: incident 1 passes county {Jefferson} and
    severity {Major}, and is returned by each relaxed query (an instance
    of [query_events_narrows]). *)
Lemma query_events_narrows_witness :
  let f := Filters None None (Some ["Jefferson"]) None (Some ["Major"]) false in
  let r := sample_event 1 "Jefferson" "Major" (Some 86400) (Some 33%Q) in
  r ∈ (query_events (without_counties f) sample_db).1
  ∧ r ∈ (query_events (without_severities f) sample_db).1.
Proof.
  intros f r.
  assert (Hin : r ∈ (query_events f sample_db).1) by (vm_compute; left).
  destruct (query_events_narrows f sample_db r Hin) as (_ & _ & H1 & _ & H2 & _).
  split; assumption.
Defined.


(** *** [get_unique_values] *)

(** [column_map.get(column, column.lower())], for ASCII names. *)
Definition lower_ascii (c : ascii) : ascii :=
  let n := nat_of_ascii c in
  if (Nat.leb 65 n && Nat.leb n 90)%bool then ascii_of_nat (n + 32) else c.

Fixpoint lower (s : string) : string :=
  match s with
  | EmptyString => EmptyString
  | String c rest => String (lower_ascii c) (lower rest)
  end.

Definition column_map : list (string * string) :=
  [("County", "county"); ("Category", "category"); ("Severity", "severity");
   ("Region", "region"); ("Road", "road"); ("Direction", "direction")].

Fixpoint assoc {A} (key : string) (table : list (string * A)) : option A :=
  match table with
  | [] => None
  | (k, v) :: rest => if bool_decide (k = key) then Some v else assoc key rest
  end.

Definition db_column (column : string) : string :=
  default (lower column) (assoc column column_map).

(** The text columns of [traffic_events]. *)
Definition text_columns : list (string * (event → option string)) :=
  [("category", category); ("title", title); ("location", location);
   ("full_location", full_location); ("description", description);
   ("region", region); ("severity", severity); ("county", county);
   ("city", city); ("road", road); ("road_display", road_display);
   ("road_type", road_type); ("cross_street", cross_street);
   ("direction", direction); ("lane_closures", lane_closures)].

(** [SELECT DISTINCT ... ORDER BY]: each string once, in the order of
    SQLite's default collation, which compares byte by byte. *)
Fixpoint insert_distinct (x : string) (xs : list string) : list string :=
  match xs with
  | [] => [x]
  | y :: rest =>
      match String.compare x y with
      | Lt => x :: xs
      | Eq => xs
      | Gt => y :: insert_distinct x rest
      end
  end.

Definition distinct_sorted (xs : list string) : list string :=
  foldr insert_distinct [] xs.

(** [WHERE col IS NOT NULL AND col != ''] *)
Definition present (v : option string) : option string :=
  match v with
  | Some x => if bool_decide (x = "") then None else Some x
  | None => None
  end.

(** The query of [get_unique_values] on a text column. *)
Definition select_distinct (col : event → option string) (w : db) : list string :=
  distinct_sorted (omap (λ r, present (col r)) (table_rows w)).

(** [get_unique_values], for the names that lead to a text column; the
    result is [None] for the other names (a column that does not hold
    text, or no column at all, in which case SQLite rejects the query). *)
Definition get_unique_values (column : string) (w : db)
    : option (list string * db) :=
  match assoc (db_column column) text_columns with
  | Some col => Some (select_distinct col (connect w), connect w)
  | None => None
  end.

Lemma ascii_compare_lt_trans a b c :
  Ascii.compare a b = Lt → Ascii.compare b c = Lt → Ascii.compare a c = Lt.
Proof.
  unfold Ascii.compare. rewrite !N.compare_lt_iff. apply N.lt_trans.
Qed.

Lemma string_compare_lt_trans a b c :
  String.compare a b = Lt → String.compare b c = Lt → String.compare a c = Lt.
Proof.
  revert b c. induction a as [|x a IH]; intros [|y b] [|z c]; cbn;
    try discriminate; try reflexivity.
  destruct (Ascii.compare x y) eqn:Hxy; try discriminate;
    destruct (Ascii.compare y z) eqn:Hyz; try discriminate; intros Hab Hbc.
  - apply Ascii.compare_eq_iff in Hxy, Hyz. subst.
    rewrite (proj2 (N.compare_eq_iff _ _) eq_refl : Ascii.compare z z = Eq).
    exact (IH _ _ Hab Hbc).
  - apply Ascii.compare_eq_iff in Hxy. subst. rewrite Hyz. reflexivity.
  - apply Ascii.compare_eq_iff in Hyz. subst. rewrite Hxy. reflexivity.
  - rewrite (ascii_compare_lt_trans _ _ _ Hxy Hyz). reflexivity.
Qed.

Lemma string_compare_refl a : String.compare a a = Eq.
Proof.
  induction a as [|x a IH]; [reflexivity|]. cbn.
  rewrite (proj2 (N.compare_eq_iff _ _) eq_refl : Ascii.compare x x = Eq).
  exact IH.
Qed.

Lemma elem_of_insert_distinct x xs y :
  y ∈ insert_distinct x xs ↔ y = x ∨ y ∈ xs.
Proof.
  induction xs as [|z rest IH]; cbn [insert_distinct].
  - rewrite list_elem_of_singleton. split; [auto|].
    intros [H | H]; [exact H | inversion H].
  - destruct (String.compare x z) eqn:Hc.
    + apply String.compare_eq_iff in Hc. subst z. rewrite elem_of_cons. tauto.
    + apply elem_of_cons.
    + rewrite !elem_of_cons, IH. tauto.
Qed.

Lemma insert_distinct_sorted x xs :
  StronglySorted (λ a b, String.compare a b = Lt) xs →
  StronglySorted (λ a b, String.compare a b = Lt) (insert_distinct x xs).
Proof.
  induction xs as [|z rest IH]; intros Hs; cbn [insert_distinct].
  - repeat constructor.
  - pose proof Hs as Hs'. apply StronglySorted_inv in Hs' as [Hrest Hz].
    destruct (String.compare x z) eqn:Hc; [exact Hs| |].
    + constructor; [exact Hs|]. constructor; [exact Hc|].
      rewrite Forall_forall in Hz |- *. intros y Hy.
      exact (string_compare_lt_trans _ _ _ Hc (Hz y Hy)).
    + constructor; [apply IH; exact Hrest|].
      rewrite Forall_forall. intros y Hy.
      apply elem_of_insert_distinct in Hy as [-> | Hy].
      * rewrite String.compare_antisym, Hc. reflexivity.
      * rewrite Forall_forall in Hz. apply Hz. exact Hy.
Qed.

Lemma distinct_sorted_sorted xs :
  StronglySorted (λ a b, String.compare a b = Lt) (distinct_sorted xs).
Proof.
  induction xs as [|x xs IH]; [constructor|].
  cbn [distinct_sorted foldr]. apply insert_distinct_sorted. exact IH.
Qed.

Lemma elem_of_distinct_sorted xs y : y ∈ distinct_sorted xs ↔ y ∈ xs.
Proof.
  induction xs as [|x xs IH]; [reflexivity|].
  cbn [distinct_sorted foldr]. fold (distinct_sorted xs).
  rewrite elem_of_insert_distinct, elem_of_cons, IH. reflexivity.
Qed.

Lemma strictly_sorted_NoDup xs :
  StronglySorted (λ a b, String.compare a b = Lt) xs → NoDup xs.
Proof.
  induction 1 as [|x xs Hs IH Hx]; constructor; [|exact IH].
  intros Hin. rewrite Forall_forall in Hx. specialize (Hx x Hin).
  rewrite string_compare_refl in Hx. discriminate.
Qed.


(** [get_unique_values] on a name that leads to a text column returns
    the values of that column that are stored in some row and are neither
    null nor the empty string: each of them once, in strictly increasing
    byte order; the table is left as it was. *)
Theorem get_unique_values_spec (column : string) (col : event → option string)
    (w : db) :
  assoc (db_column column) text_columns = Some col →
  ∃ values,
    get_unique_values column w = Some (values, connect w)
    ∧ traffic_events (connect w) = traffic_events w
    ∧ StronglySorted (λ a b, String.compare a b = Lt) values
    ∧ NoDup values
    ∧ ∀ x, x ∈ values ↔ x ≠ "" ∧ ∃ r, stored w r ∧ col r = Some x.
Proof.
  intros Hcol. exists (select_distinct col (connect w)).
  unfold get_unique_values. rewrite Hcol.
  split; [reflexivity|]. split; [reflexivity|].
  split; [apply distinct_sorted_sorted|].
  split; [apply strictly_sorted_NoDup, distinct_sorted_sorted|].
  intros x. unfold select_distinct.
  rewrite elem_of_distinct_sorted, list_elem_of_omap. split.
  - intros (r & Hr & Hp). apply elem_of_table_rows in Hr.
    unfold present in Hp. destruct (col r) as [y|] eqn:Hy; [|discriminate].
    destruct (bool_decide (y = "")) eqn:He; [discriminate|].
    apply bool_decide_eq_false in He. injection Hp as <-.
    split; [exact He|]. exists r. split; [exact Hr | exact Hy].
  - intros (Hx & r & Hr & Hy). exists r.
    split; [apply elem_of_table_rows; exact Hr|].
    unfold present. rewrite Hy.
    rewrite (bool_decide_eq_false_2 _ Hx). reflexivity.
Qed.

(** The counties of the sample table: "Jefferson" is stored three times and
    listed once, before "Mobile" (an instance of [get_unique_values_spec]). *)
Lemma get_unique_values_spec_witness :
  assoc (db_column "County") text_columns = Some county
  ∧ (get_unique_values "County" sample_db = Some (["Jefferson"; "Mobile"], connect sample_db)
     ∧ ∃ values,
         get_unique_values "County" sample_db = Some (values, connect sample_db)
         ∧ NoDup values).
Proof.
  split; [reflexivity|]. split; [vm_compute; reflexivity|].
  destruct (get_unique_values_spec "County" county sample_db eq_refl)
    as (values & Hv & _ & _ & Hnd & _).
  exists values. split; [exact Hv | exact Hnd].
Defined.


(** *** The stored text of a start time

    SQLite keeps a start time as the text it is given and orders text byte
    by byte.  The two writers of the repository give it different
    texts. *)












(** *** [migrate_from_csv] *)

(** A row of the old CSV file as [pd.read_csv] and [pd.to_datetime]
    deliver it; a missing cell is [None]. *)
Record csv_row := CsvRow {
  csv_event_id : option Z;
  csv_category : option string;
  csv_title : option string;
  csv_location : option string;
  csv_description : option string;
  csv_region : option string;
  csv_severity : option string;
  csv_county : option string;
  csv_city : option string;
  csv_road : option string;
  csv_road_type : option string;
  csv_start_time : option Z;
  csv_end_time : option Z;
  csv_start_latitude : option Q;
  csv_start_longitude : option Q;
  csv_end_latitude : option Q;
  csv_end_longitude : option Q;
  csv_lane_closures : option string
}.

(** [df.dropna(subset=["Start Latitude", "Start Longitude"])] *)
Definition csv_dropna (df : list csv_row) : list csv_row :=
  List.filter
    (λ r, bool_decide (is_Some (csv_start_latitude r))
          && bool_decide (is_Some (csv_start_longitude r))) df.

(** The dict built for one row; [int(row["Event ID"])] raises [ValueError]
    on a missing identifier ([None] here). *)
Definition csv_event (r : csv_row) : option event :=
  id ← csv_event_id r;
  Some (Event id (csv_category r) (csv_title r) (csv_location r) None
          (csv_description r) (csv_region r) (csv_severity r) (csv_county r)
          (csv_city r) (csv_road r) None (csv_road_type r) None None None
          (csv_start_time r) (csv_end_time r) None None
          (csv_start_latitude r) (csv_start_longitude r)
          (csv_end_latitude r) (csv_end_longitude r) (csv_lane_closures r)).

(** [for _, row in batch.iterrows(): events.append({...})] *)
Fixpoint batch_events (batch : list csv_row) : option (list event) :=
  match batch with
  | [] => Some []
  | r :: rest =>
      ev ← csv_event r; events ← batch_events rest; Some (ev :: events)
  end.

(** How a migration ends: with the number of records migrated, or with an
    exception. *)
Inductive migration_error := MigrationValueError | MigrationIntegrityError.

Inductive migration :=
| Migrated (total_inserted : nat) (w : db)
| Aborted (e : migration_error) (w : db).

Definition migration_db (m : migration) : db :=
  match m with
  | Migrated _ w => w
  | Aborted _ w => w
  end.

(** The batches [df.iloc[i:i + batch_size]] for
    [i in range(0, len(df), batch_size)], [batch_size] positive. *)
Fixpoint batches_of (fuel : nat) (batch_size : nat) (df : list csv_row)
    : list (list csv_row) :=
  match fuel, df with
  | S fuel, _ :: _ =>
      take batch_size df :: batches_of fuel batch_size (drop batch_size df)
  | _, _ => []
  end.

(** The body of the loop over the batches. *)
Fixpoint migrate_batches (batches : list (list csv_row)) (total_inserted : nat)
    (w : db) : migration :=
  match batches with
  | [] => Migrated total_inserted w
  | batch :: rest =>
      match batch_events batch with
      | None => Aborted MigrationValueError w
      | Some events =>
          match upsert_events events w with
          | Returned _ w' =>
              migrate_batches rest (total_inserted + length events) w'
          | Raised _ w' => Aborted MigrationIntegrityError w'
          end
      end
  end.

(** [init_db] on a database that has the table: a connection, and
    nothing written. *)
Definition init_db (w : db) : db := connect w.

(** [migrate_from_csv]; [df] is the frame read from the file.  [range]
    rejects a step of zero, and is empty for a negative one. *)
Definition migrate_from_csv (df : list csv_row) (batch_size : Z) (w : db)
    : migration :=
  let w := init_db w in
  let df := csv_dropna df in
  if batch_size =? 0 then Aborted MigrationValueError w
  else if batch_size <? 0 then Migrated 0 w
  else migrate_batches (batches_of (length df) (Z.to_nat batch_size) df) 0 w.

(** The row can be migrated: it has an identifier, and the columns that
    are [NOT NULL] in the table. *)
Definition migratable (r : csv_row) : Prop :=
  is_Some (csv_event_id r) ∧ is_Some (csv_category r)
  ∧ is_Some (csv_start_time r).

Definition has_coordinates (r : csv_row) : Prop :=
  is_Some (csv_start_latitude r) ∧ is_Some (csv_start_longitude r).

Lemma elem_of_csv_dropna df r : r ∈ csv_dropna df → has_coordinates r.
Proof.
  unfold csv_dropna. rewrite list_elem_of_In, filter_In.
  intros [_ H]. apply andb_true_iff in H as [H1 H2].
  apply bool_decide_eq_true in H1, H2. split; assumption.
Qed.

Lemma concat_batches_of fuel n df :
  (0 < n)%nat → (length df ≤ fuel)%nat → concat (batches_of fuel n df) = df.
Proof.
  intros Hn. revert df. induction fuel as [|fuel IH]; intros df Hlen.
  - destruct df; [reflexivity | cbn in Hlen; lia].
  - destruct df as [|r df]; [reflexivity|].
    cbn [batches_of concat]. rewrite IH.
    + apply take_drop.
    + rewrite length_drop. cbn [length] in *. lia.
Qed.

Lemma batch_events_Some batch :
  Forall (λ r, is_Some (csv_event_id r)) batch →
  batch_events batch = Some (omap csv_event batch)
  ∧ length (omap csv_event batch) = length batch.
Proof.
  induction 1 as [|r batch [id Hid] _ [IH1 IH2]]; [split; reflexivity|].
  assert (Hsome : ∃ ev, csv_event r = Some ev)
    by (unfold csv_event; rewrite Hid; eauto).
  destruct Hsome as [ev Hev].
  change (omap csv_event (r :: batch))
    with (match csv_event r with
          | Some y => y :: omap csv_event batch
          | None => omap csv_event batch
          end).
  cbn [batch_events]. rewrite Hev. cbn [mbind option_bind].
  rewrite IH1. cbn [mbind option_bind length].
  split; [reflexivity|]. rewrite IH2. reflexivity.
Qed.

Lemma batch_events_None batch :
  Exists (λ r, csv_event_id r = None) batch → batch_events batch = None.
Proof.
  induction 1 as [r batch Hr | r batch _ IH]; cbn [batch_events].
  - unfold csv_event. rewrite Hr. reflexivity.
  - rewrite IH. destruct (csv_event r); reflexivity.
Qed.

Lemma csv_event_insertable r ev :
  has_coordinates r → csv_event r = Some ev →
  insertable ev ↔ is_Some (csv_category r) ∧ is_Some (csv_start_time r).
Proof.
  intros [Hlat Hlon] Hev. unfold csv_event in Hev.
  destruct (csv_event_id r) as [id|]; [|discriminate].
  cbn in Hev. injection Hev as <-. unfold insertable. cbn. tauto.
Qed.

Lemma upsert_events_table events w :
  match upsert_events events w with
  | Returned _ w' =>
      Forall insertable events
      ∧ traffic_events w' = apply_batch (traffic_events w) events
  | Raised _ w' =>
      Exists (λ ev, ¬ insertable ev) events
      ∧ traffic_events w' = traffic_events w
  end.
Proof.
  unfold upsert_events. destruct events as [|ev events]; [split; [constructor|reflexivity]|].
  cbn [connect traffic_events connections].
  destruct (executemany (traffic_events w) (ev :: events)) as [t'|] eqn:Hrun.
  - apply executemany_Some in Hrun as [Hall ->]. split; [exact Hall | reflexivity].
  - apply executemany_None in Hrun. split; [exact Hrun | reflexivity].
Qed.

Lemma migrate_batches_complete batches total w :
  Forall migratable (concat batches) → Forall has_coordinates (concat batches) →
  ∃ w', migrate_batches batches total w
          = Migrated (total + length (concat batches)) w'
        ∧ traffic_events w'
          = apply_batch (traffic_events w) (omap csv_event (concat batches)).
Proof.
  revert total w. induction batches as [|batch rest IH]; intros total w Hm Hc.
  - exists w. cbn. rewrite Nat.add_0_r. split; reflexivity.
  - cbn [concat] in Hm, Hc. apply Forall_app in Hm as [Hm1 Hm2].
    apply Forall_app in Hc as [Hc1 Hc2].
    cbn [migrate_batches concat].
    destruct (batch_events_Some batch) as [Hev Hlen].
    { eapply Forall_impl; [exact Hm1|]. intros r (H & _). exact H. }
    rewrite Hev.
    pose proof (upsert_events_table (omap csv_event batch) w) as Hup.
    destruct (upsert_events (omap csv_event batch) w) as [n w1 | e w1].
    + destruct Hup as [_ Ht].
      destruct (IH (total + length (omap csv_event batch))%nat w1 Hm2 Hc2)
        as (w' & Hrun & Htable).
      exists w'. split.
      * rewrite Hrun, Hlen, length_app. f_equal. lia.
      * rewrite Htable, Ht, omap_app. unfold apply_batch.
        rewrite fold_left_app. reflexivity.
    + exfalso. destruct Hup as [Hex _].
      apply Exists_exists in Hex as (ev & Hin & Hno).
      apply list_elem_of_omap in Hin as (r & Hr & Hev').
      rewrite Forall_forall in Hm1. rewrite Forall_forall in Hc1.
      apply Hno. apply (csv_event_insertable r ev (Hc1 r Hr) Hev').
      destruct (Hm1 r Hr) as (_ & H2 & H3). split; assumption.
Qed.

Lemma migrate_batches_partial pre bad post total w :
  Forall migratable (concat pre) → Forall has_coordinates (concat pre) →
  Forall has_coordinates bad → Exists (λ r, ¬ migratable r) bad →
  ∃ e w', migrate_batches (pre ++ bad :: post) total w = Aborted e w'
          ∧ traffic_events w'
            = apply_batch (traffic_events w) (omap csv_event (concat pre)).
Proof.
  revert total w. induction pre as [|batch pre IH]; intros total w Hm Hc Hcb Hbad.
  - cbn [app migrate_batches concat omap apply_batch fold_left].
    destruct (batch_events bad) as [events|] eqn:Hev.
    2:{ exists MigrationValueError, w. split; reflexivity. }
    pose proof (upsert_events_table events w) as Hup.
    destruct (upsert_events events w) as [n w1 | e w1].
    2:{ exists MigrationIntegrityError, w1. split; [reflexivity | apply Hup]. }
    exfalso. destruct Hup as [Hall _].
    apply Exists_exists in Hbad as (r & Hr & Hno).
    assert (Hids : Forall (λ r, is_Some (csv_event_id r)) bad).
    { apply Forall_forall. intros r' Hr'.
      destruct (csv_event_id r') eqn:Hid; [eauto|].
      rewrite batch_events_None in Hev; [discriminate|].
      apply Exists_exists. exists r'. split; assumption. }
    destruct (batch_events_Some bad Hids) as [Hev' _].
    rewrite Hev in Hev'. injection Hev' as ->.
    rewrite Forall_forall in Hids. rewrite Forall_forall in Hcb.
    rewrite Forall_forall in Hall.
    destruct (Hids r Hr) as [id Hid].
    assert (Hcsv : is_Some (csv_event r)) by (unfold csv_event; rewrite Hid; eauto).
    destruct Hcsv as [ev Hcsv].
    assert (Hin : ev ∈ omap csv_event bad).
    { apply list_elem_of_omap. exists r. split; assumption. }
    apply Hno. split; [eauto|].
    apply (csv_event_insertable r ev (Hcb r Hr) Hcsv). apply Hall. exact Hin.
  - cbn [concat] in Hm, Hc. apply Forall_app in Hm as [Hm1 Hm2].
    apply Forall_app in Hc as [Hc1 Hc2].
    destruct (migrate_batches_complete [batch] total w) as (w1 & Hrun & Ht).
    { cbn [concat]. rewrite app_nil_r. exact Hm1. }
    { cbn [concat]. rewrite app_nil_r. exact Hc1. }
    cbn [concat] in Hrun, Ht. rewrite app_nil_r in Hrun, Ht.
    cbn [migrate_batches] in Hrun.
    change ((batch :: pre) ++ bad :: post) with (batch :: (pre ++ bad :: post)).
    cbn [migrate_batches].
    destruct (batch_events batch) as [events|]; [|discriminate].
    destruct (upsert_events events w) as [n w2 | e w2]; [|discriminate].
    injection Hrun as Hlen ->.
    destruct (IH (total + length events)%nat w1 Hm2 Hc2 Hcb Hbad)
      as (e & w' & Hrun' & Ht').
    exists e, w'. split; [exact Hrun'|].
    rewrite Ht', Ht. cbn [concat]. rewrite omap_app. unfold apply_batch.
    rewrite fold_left_app. reflexivity.
Qed.

Lemma batches_of_coordinates df n pre bad post :
  (0 < n)%nat →
  batches_of (length (csv_dropna df)) n (csv_dropna df) = pre ++ bad :: post →
  Forall has_coordinates (concat pre) ∧ Forall has_coordinates bad.
Proof.
  intros Hn Hsplit.
  pose proof (concat_batches_of (length (csv_dropna df)) n (csv_dropna df) Hn
                ltac:(lia)) as Hcat.
  rewrite Hsplit, concat_app in Hcat. cbn [concat] in Hcat.
  split; apply Forall_forall; intros r Hr; apply (elem_of_csv_dropna df);
    rewrite <- Hcat; rewrite !elem_of_app; auto.
Qed.

(** When every row that has coordinates has an identifier, a category and
    a start time, [migrate_from_csv] returns the number of rows that have
    coordinates, and the table is as after one [upsert_events] of all of
    them: the batches do not show, whatever their size. *)
Theorem migrate_from_csv_complete (df : list csv_row) (batch_size : Z) (w : db) :
  0 < batch_size → Forall migratable (csv_dropna df) →
  ∃ w', migrate_from_csv df batch_size w
          = Migrated (length (csv_dropna df)) w'
        ∧ traffic_events w'
          = apply_batch (traffic_events w) (omap csv_event (csv_dropna df)).
Proof.
  intros Hb Hall. unfold migrate_from_csv. cbv zeta.
  rewrite (proj2 (Z.eqb_neq batch_size 0)) by lia.
  rewrite (proj2 (Z.ltb_ge batch_size 0)) by lia.
  pose proof (concat_batches_of (length (csv_dropna df)) (Z.to_nat batch_size)
                (csv_dropna df) ltac:(lia) ltac:(lia)) as Hcat.
  destruct (migrate_batches_complete
              (batches_of (length (csv_dropna df)) (Z.to_nat batch_size)
                 (csv_dropna df)) 0 (init_db w)) as (w' & Hrun & Ht).
  - rewrite Hcat. exact Hall.
  - rewrite Hcat. apply Forall_forall. intros r. apply elem_of_csv_dropna.
  - exists w'. rewrite Hcat in Hrun, Ht. split; [exact Hrun | exact Ht].
Qed.

(** When a batch holds a row that cannot be migrated, the migration ends
    with an exception; the batches before it stay written, and of the
    failing batch nothing is, nor of those after it. *)
Theorem migrate_from_csv_partial (df : list csv_row) (batch_size : Z) (w : db)
    (pre post : list (list csv_row)) (bad : list csv_row) :
  0 < batch_size →
  batches_of (length (csv_dropna df)) (Z.to_nat batch_size) (csv_dropna df)
    = pre ++ bad :: post →
  Forall migratable (concat pre) → Exists (λ r, ¬ migratable r) bad →
  ∃ e w', migrate_from_csv df batch_size w = Aborted e w'
          ∧ traffic_events w'
            = apply_batch (traffic_events w) (omap csv_event (concat pre)).
Proof.
  intros Hb Hsplit Hpre Hbad. unfold migrate_from_csv. cbv zeta.
  rewrite (proj2 (Z.eqb_neq batch_size 0)) by lia.
  rewrite (proj2 (Z.ltb_ge batch_size 0)) by lia.
  destruct (batches_of_coordinates df (Z.to_nat batch_size) pre bad post
              ltac:(lia) Hsplit) as [Hc1 Hc2].
  rewrite Hsplit.
  exact (migrate_batches_partial pre bad post 0 (init_db w) Hpre Hc1 Hc2 Hbad).
Qed.

(** Rows of a file for the examples. *)
Definition csv_sample (id : Z) (cat : option string) (lat : option Q) : csv_row :=
  CsvRow (Some id) cat None None None None None None None None None
    (Some 86400) None lat (Some (-86)%Q) None None None.

(** Four rows, one of them without latitude, in batches of two: three
    records are migrated (an instance of [migrate_from_csv_complete]). *)
Lemma migrate_from_csv_complete_witness :
  let df := [csv_sample 1 (Some "Crash") (Some 33%Q);
             csv_sample 2 (Some "Crash") None;
             csv_sample 3 (Some "Crash") (Some 33%Q);
             csv_sample 4 (Some "Roadwork") (Some 33%Q)] in
  ∃ w', migrate_from_csv df 2 (Db ∅ 0) = Migrated 3 w'
        ∧ size (traffic_events w') = 3%nat.
Proof.
  intros df.
  destruct (migrate_from_csv_complete df 2 (Db ∅ 0)) as (w' & Hrun & Ht).
  - lia.
  - vm_compute. repeat constructor; eauto.
  - exists w'. split; [exact Hrun|]. rewrite Ht. vm_compute. reflexivity.
Defined.

(** Batches of two, the fourth row without category: the first batch is
    written, the third row, in the batch of the fourth, is not (an instance
    of [migrate_from_csv_partial]). *)
Lemma migrate_from_csv_partial_witness :
  let df := [csv_sample 1 (Some "Crash") (Some 33%Q);
             csv_sample 2 (Some "Crash") (Some 33%Q);
             csv_sample 3 (Some "Crash") (Some 33%Q);
             csv_sample 4 None (Some 33%Q);
             csv_sample 5 (Some "Crash") (Some 33%Q)] in
  ∃ e w', migrate_from_csv df 2 (Db ∅ 0) = Aborted e w'
          ∧ dom (traffic_events w') = {[1; 2]}.
Proof.
  intros df.
  destruct (migrate_from_csv_partial df 2 (Db ∅ 0)
              [[csv_sample 1 (Some "Crash") (Some 33%Q);
                csv_sample 2 (Some "Crash") (Some 33%Q)]]
              [[csv_sample 5 (Some "Crash") (Some 33%Q)]]
              [csv_sample 3 (Some "Crash") (Some 33%Q);
               csv_sample 4 None (Some 33%Q)])
    as (e & w' & Hrun & Ht).
  - lia.
  - vm_compute. reflexivity.
  - vm_compute. repeat constructor; eauto.
  - apply Exists_cons_tl, Exists_cons_hd. intros (_ & [c Hc] & _). discriminate Hc.
  - exists e, w'. split; [exact Hrun|]. rewrite Ht. vm_compute. reflexivity.
Defined.


End Database.

(** ** [data/api.py]: ingestion *)
Module Api.

(** A decoded JSON value, as [response.json()] delivers it.  A number is
    a rational (Python tells [int] from [float], but both are false
    exactly when they are zero); [null] is Python's [None]. *)
Inductive json :=
| JNull
| JBool (b : bool)
| JNum (q : Q)
| JStr (s : string)
| JArr (l : list json)
| JObj (o : gmap string json).

(** Python's truth value of a decoded value. *)
Definition truthy (v : json) : bool :=
  match v with
  | JNull => false
  | JBool b => b
  | JNum q => negb (Qeq_bool q 0)
  | JStr s => negb (bool_decide (s = ""))
  | JArr l => match l with [] => false | _ => true end
  | JObj o => negb (Nat.eqb (size o) 0)
  end.

(** [d.get(key)]: [None] when the key is missing. *)
Definition dict_get (d : gmap string json) (key : string) : json :=
  default JNull (d !! key).

(** [d.get(key, default)] *)
Definition dict_get_default (d : gmap string json) (key : string) (dflt : json) : json :=
  default dflt (d !! key).

(** [x or y] *)
Definition py_or (x y : json) : json := if truthy x then x else y.

(** The object behind [event.get("startLocation") or {}]: in the
    upstream schema the field is an object or null. *)
Definition as_dict (v : json) : gmap string json :=
  match py_or v (JObj ∅) with
  | JObj o => o
  | _ => ∅
  end.

(** The string behind [event.get("severity") or ""]: in the upstream
    schema the field is a string or null. *)
Definition as_str (v : json) : string :=
  match py_or v (JStr "") with
  | JStr s => s
  | _ => ""
  end.

(** [s.replace("Delay", "")]: every occurrence removed, left to right. *)
Fixpoint remove_delay (s : string) : string :=
  match s with
  | String "D"%char (String "e"%char (String "l"%char
      (String "a"%char (String "y"%char rest)))) =>
      remove_delay rest
  | String c rest => String c (remove_delay rest)
  | EmptyString => EmptyString
  end.

(** The ASCII characters [str.strip()] removes. *)
Definition is_space (c : ascii) : bool :=
  let n := nat_of_ascii c in
  (Nat.eqb n 32 || (Nat.leb 9 n && Nat.leb n 13) || (Nat.leb 28 n && Nat.leb n 31))%bool.

Fixpoint lstrip (s : string) : string :=
  match s with
  | String c rest => if is_space c then lstrip rest else s
  | EmptyString => EmptyString
  end.

Fixpoint rstrip (s : string) : string :=
  match s with
  | String c rest =>
      match rstrip rest with
      | EmptyString => if is_space c then EmptyString else String c EmptyString
      | rest' => String c rest'
      end
  | EmptyString => EmptyString
  end.

Definition strip (s : string) : string := rstrip (lstrip s).

(** One element of the list [get_api_response] returns: the dict with the
    twenty-five keys of the [INSERT] statement.  Values taken over from
    the response are kept as they are. *)
Record api_event := ApiEvent {
  a_event_id : json;
  a_category : json;
  a_title : json;
  a_location : json;
  a_full_location : json;
  a_description : json;
  a_region : json;
  a_severity : string;
  a_county : json;
  a_city : json;
  a_road : json;
  a_road_display : json;
  a_road_type : json;
  a_cross_street : json;
  a_direction : json;
  a_mile_marker : json;
  a_start_time : option string;
  a_end_time : option string;
  a_last_updated : option string;
  a_active : Z;
  a_start_latitude : json;
  a_start_longitude : json;
  a_end_latitude : json;
  a_end_longitude : json;
  a_lane_closures : string
}.

Section GetApiResponse.

(** The two helpers of the module that do not bear on the filter are taken
    as they are: the timestamp normalisation and the lane summary. *)
Variable parse_datetime : json → option string.
Variable process_lane_info : json → string.

(** The start coordinates the loop reads off an upstream record. *)
Definition start_lat (event : gmap string json) : json :=
  dict_get (as_dict (dict_get event "startLocation")) "latitude".

Definition start_lon (event : gmap string json) : json :=
  dict_get (as_dict (dict_get event "startLocation")) "longitude".

(** [if not lat or not lon: continue] *)
Definition skipped (event : gmap string json) : bool :=
  negb (truthy (start_lat event)) || negb (truthy (start_lon event)).

(** The dict appended for a record that is not skipped. *)
Definition make_event (event : gmap string json) : api_event :=
  let start_loc := as_dict (dict_get event "startLocation") in
  let end_loc := as_dict (dict_get event "endLocation") in
  let lat := dict_get start_loc "latitude" in
  let lon := dict_get start_loc "longitude" in
  let severity := as_str (dict_get event "severity") in
  let severity := strip (remove_delay severity) in
  ApiEvent
    (dict_get event "id")
    (dict_get event "type")
    (dict_get event "title")
    (dict_get event "shortSubTitle")
    (dict_get event "subTitle")
    (dict_get event "description")
    (dict_get event "responsibleRegion")
    severity
    (dict_get start_loc "county")
    (dict_get start_loc "city")
    (dict_get start_loc "routeDesignator")
    (dict_get start_loc "displayRouteDesignator")
    (dict_get start_loc "routeDesignatorType")
    (dict_get start_loc "displayCrossStreet")
    (dict_get start_loc "direction")
    (dict_get start_loc "linearReference")
    (parse_datetime (dict_get event "start"))
    (parse_datetime (dict_get event "end"))
    (parse_datetime (dict_get event "lastUpdatedAt"))
    (if truthy (dict_get event "active") then 1 else 0)
    lat
    lon
    (dict_get end_loc "latitude")
    (dict_get end_loc "longitude")
    (process_lane_info (dict_get_default event "laneDirections" (JArr []))).

(** The body of [for event in data]. *)
Definition response_step (events : list api_event) (event : gmap string json)
    : list api_event :=
  if skipped event then events else events ++ [make_event event].

(** [get_api_response]; the argument is the decoded body of the response,
    or [None] when the request or the decoding failed (the two [except]
    clauses return the empty list). *)
Definition get_api_response (data : option (list (gmap string json)))
    : list api_event :=
  match data with
  | Some data => fold_left response_step data []
  | None => []
  end.

(** The coordinate is absent from the record: missing or [null]. *)
Definition absent (v : json) : Prop := v = JNull.

(** The coordinate is the number zero. *)
Definition zero (v : json) : Prop := ∃ q, v = JNum q ∧ (q == 0)%Q.

(** A coordinate as the upstream schema has it: a number or nothing. *)
Definition coordinate (v : json) : Prop := v = JNull ∨ ∃ q, v = JNum q.

Lemma get_api_response_filter data :
  get_api_response (Some data) =
    map make_event (List.filter (λ e, negb (skipped e)) data).
Proof.
  unfold get_api_response.
  assert (H : ∀ events,
    fold_left response_step data events =
      events ++ map make_event (List.filter (λ e, negb (skipped e)) data)).
  { induction data as [|e data IH]; intros events; cbn [fold_left List.filter].
    - rewrite app_nil_r. reflexivity.
    - rewrite IH. unfold response_step. destruct (skipped e); cbn [negb map].
      + reflexivity.
      + rewrite <- app_assoc. reflexivity. }
  apply H.
Qed.

Lemma truthy_coordinate v :
  coordinate v → truthy v = false ↔ absent v ∨ zero v.
Proof.
  unfold coordinate, absent, zero. intros [-> | [q ->]]; cbn [truthy].
  - split; auto.
  - rewrite negb_false_iff, Qeq_bool_iff. split.
    + intros H. right. eauto.
    + intros [H | (q' & H & Hz)]; [discriminate|]. injection H as <-. exact Hz.
Qed.

(** C10.  Of the records of a response, [get_api_response] returns, in
    order, those whose start latitude and start longitude are both true
    values.  For coordinates that are numbers or absent, a record is
    skipped exactly when its latitude or its longitude is missing, null or
    zero; so no returned record has a null or zero start coordinate, and a
    record that does carry a coordinate pair with a zero in it is
    skipped. *)
Theorem get_api_response_skips_zero (data : list (gmap string json)) :
  get_api_response (Some data) =
    map make_event (List.filter (λ e, negb (skipped e)) data)
  ∧ (∀ e, coordinate (start_lat e) → coordinate (start_lon e) →
       skipped e = true ↔
         absent (start_lat e) ∨ zero (start_lat e)
         ∨ absent (start_lon e) ∨ zero (start_lon e))
  ∧ (∀ row, row ∈ get_api_response (Some data) →
       ¬ absent (a_start_latitude row) ∧ ¬ zero (a_start_latitude row)
       ∧ ¬ absent (a_start_longitude row) ∧ ¬ zero (a_start_longitude row)).
Proof.
  split; [apply get_api_response_filter|].
  split.
  - intros e Hlat Hlon. unfold skipped.
    rewrite orb_true_iff, !negb_true_iff.
    rewrite (truthy_coordinate _ Hlat), (truthy_coordinate _ Hlon). tauto.
  - intros row Hrow. rewrite get_api_response_filter in Hrow.
    apply list_elem_of_In, in_map_iff in Hrow as (e & <- & He).
    apply filter_In in He as [_ He]. apply negb_true_iff in He.
    unfold skipped in He. apply orb_false_iff in He as [Hlat Hlon].
    apply negb_false_iff in Hlat, Hlon.
    cbn [make_event a_start_latitude a_start_longitude].
    fold (start_lat e). fold (start_lon e).
    unfold absent, zero. repeat split.
    + intros H. rewrite H in Hlat. discriminate.
    + intros (q & H & Hz). rewrite H in Hlat. cbn in Hlat.
      apply Qeq_bool_iff in Hz. rewrite Hz in Hlat. discriminate.
    + intros H. rewrite H in Hlon. discriminate.
    + intros (q & H & Hz). rewrite H in Hlon. cbn in Hlon.
      apply Qeq_bool_iff in Hz. rewrite Hz in Hlon. discriminate.
Qed.

End GetApiResponse.

(** An upstream record with the given start coordinates. *)
Definition upstream (id : Z) (lat lon : json) : gmap string json :=
  {[ "id" := JNum (inject_Z id);
     "type" := JStr "Crash";
     "severity" := JStr "Major Delay";
     "start" := JStr "2024-05-01T12:00:00Z";
     "startLocation" := JObj {[ "latitude" := lat; "longitude" := lon ]} ]}.

(** Records on the equator, on the prime meridian and at (0, 0) are
    skipped although they carry a coordinate pair, as are a record with a
    null latitude and one without start location; the record at
    (33.5, -86.8) is kept (an instance of [get_api_response_skips_zero]). *)
Lemma get_api_response_skips_zero_witness :
  let parse := λ _ : json, @None string in
  let lanes := λ _ : json, "" in
  let data :=
    [upstream 1 (JNum 0) (JNum (-868 # 10));
     upstream 2 (JNum (515 # 10)) (JNum 0);
     upstream 3 (JNum 0) (JNum 0);
     upstream 4 JNull (JNum (-868 # 10));
     {[ "id" := JNum 5 ]};
     upstream 6 (JNum (335 # 10)) (JNum (-868 # 10))] in
  a_event_id <$> get_api_response parse lanes (Some data) = [JNum 6]
  ∧ a_severity <$> get_api_response parse lanes (Some data) = ["Major"]
  ∧ skipped (upstream 1 (JNum 0) (JNum (-868 # 10))) = true.
Proof.
  intros parse lanes data.
  destruct (get_api_response_skips_zero parse lanes data) as (Hmap & Hskip & _).
  split; [rewrite Hmap; vm_compute; reflexivity|].
  split; [rewrite Hmap; vm_compute; reflexivity|].
  apply Hskip.
  - right. exists 0%Q. vm_compute. reflexivity.
  - right. exists (-868 # 10)%Q. vm_compute. reflexivity.
  - right; left. exists 0%Q. split; [vm_compute; reflexivity | reflexivity].
Defined.

(** *** The severity of an emitted record *)

Lemma rstrip_cons c s :
  rstrip (String c s) =
    match rstrip s with
    | EmptyString => if is_space c then EmptyString else String c EmptyString
    | rest' => String c rest'
    end.
Proof. reflexivity. Qed.

Lemma rstrip_idem s : rstrip (rstrip s) = rstrip s.
Proof.
  induction s as [|c rest IH]; [reflexivity|]. rewrite rstrip_cons.
  destruct (rstrip rest) as [|d r'] eqn:Hr.
  - destruct (is_space c) eqn:Hc; [reflexivity|].
    rewrite rstrip_cons. cbn [rstrip]. rewrite Hc. reflexivity.
  - rewrite rstrip_cons, IH. reflexivity.
Qed.

(** The string does not begin with a character [strip] removes. *)
Definition no_leading_space (s : string) : Prop :=
  match s with
  | String c _ => is_space c = false
  | EmptyString => True
  end.

Lemma lstrip_no_leading_space s : no_leading_space (lstrip s).
Proof.
  induction s as [|c rest IH]; [exact I|]. cbn [lstrip].
  destruct (is_space c) eqn:Hc; [exact IH | exact Hc].
Qed.

Lemma rstrip_no_leading_space s : no_leading_space s → no_leading_space (rstrip s).
Proof.
  destruct s as [|c rest]; [intros; exact I|]. cbn [no_leading_space rstrip].
  intros Hc. destruct (rstrip rest); [rewrite Hc|]; exact Hc.
Qed.

Lemma lstrip_id s : no_leading_space s → lstrip s = s.
Proof.
  destruct s as [|c rest]; [reflexivity|]. cbn [no_leading_space lstrip].
  intros ->. reflexivity.
Qed.

Lemma strip_idem s : strip (strip s) = strip s.
Proof.
  unfold strip.
  rewrite (lstrip_id (rstrip (lstrip s))).
  - apply rstrip_idem.
  - apply rstrip_no_leading_space, lstrip_no_leading_space.
Qed.

Lemma rstrip_app_space s : rstrip (s +:+ " ") = rstrip s.
Proof.
  induction s as [|c rest IH]; [reflexivity|].
  change (String c rest +:+ " ") with (String c (rest +:+ " ")).
  rewrite !rstrip_cons, IH. reflexivity.
Qed.

Lemma strip_app_space s : strip (s +:+ " ") = strip s.
Proof.
  unfold strip. induction s as [|c rest IH]; [reflexivity|].
  change (String c rest +:+ " ") with (String c (rest +:+ " ")).
  cbn [lstrip]. destruct (is_space c); [exact IH|].
  apply (rstrip_app_space (String c rest)).
Qed.

Lemma remove_delay_ne1 c s :
  c ≠ "D"%char → remove_delay (String c s) = String c (remove_delay s).
Proof.
  destruct c as [[] [] [] [] [] [] [] []]; try reflexivity.
  intros H. contradiction H. reflexivity.
Qed.

Lemma remove_delay_ne2 c s :
  c ≠ "e"%char →
  remove_delay (String "D" (String c s)) = String "D" (remove_delay (String c s)).
Proof.
  destruct c as [[] [] [] [] [] [] [] []]; try reflexivity.
  intros H. contradiction H. reflexivity.
Qed.

Lemma remove_delay_ne3 c s :
  c ≠ "l"%char →
  remove_delay (String "D" (String "e" (String c s)))
    = String "D" (remove_delay (String "e" (String c s))).
Proof.
  destruct c as [[] [] [] [] [] [] [] []]; try reflexivity.
  intros H. contradiction H. reflexivity.
Qed.

Lemma remove_delay_ne4 c s :
  c ≠ "a"%char →
  remove_delay (String "D" (String "e" (String "l" (String c s))))
    = String "D" (remove_delay (String "e" (String "l" (String c s)))).
Proof.
  destruct c as [[] [] [] [] [] [] [] []]; try reflexivity.
  intros H. contradiction H. reflexivity.
Qed.

Lemma remove_delay_ne5 c s :
  c ≠ "y"%char →
  remove_delay (String "D" (String "e" (String "l" (String "a" (String c s)))))
    = String "D" (remove_delay (String "e" (String "l" (String "a" (String c s))))).
Proof.
  destruct c as [[] [] [] [] [] [] [] []]; try reflexivity.
  intros H. contradiction H. reflexivity.
Qed.

(** A trailing " Delay" leaves one blank behind, whatever precedes it. *)
Lemma append_cons c s t : String c s +:+ t = String c (s +:+ t).
Proof. reflexivity. Qed.

Lemma remove_delay_app_delay s :
  remove_delay (s +:+ " Delay") = remove_delay s +:+ " ".
Proof.
  remember (String.length s) as n eqn:Hn.
  revert s Hn. induction (lt_wf n) as [n _ IH]. intros s Hn.
  assert (IH' : ∀ t, (String.length t < String.length s)%nat →
                     remove_delay (t +:+ " Delay") = remove_delay t +:+ " ").
  { intros t Ht. apply (IH (String.length t)); [lia | reflexivity]. }
  clear IH Hn n.
  destruct s as [|c1 s]; [reflexivity|].
  destruct (ascii_dec c1 "D") as [-> | H1].
  2:{ rewrite ?append_cons. rewrite !remove_delay_ne1 by exact H1.
      rewrite ?append_cons. rewrite IH' by (cbn [String.length]; lia). reflexivity. }
  destruct s as [|c2 s]; [reflexivity|].
  destruct (ascii_dec c2 "e") as [-> | H2].
  2:{ rewrite ?append_cons. rewrite !remove_delay_ne2 by exact H2.
      rewrite ?append_cons.
      rewrite <- (IH' (String c2 s)) by (cbn [String.length]; lia). reflexivity. }
  destruct s as [|c3 s]; [reflexivity|].
  destruct (ascii_dec c3 "l") as [-> | H3].
  2:{ rewrite ?append_cons. rewrite !remove_delay_ne3 by exact H3.
      rewrite ?append_cons.
      rewrite <- (IH' (String "e" (String c3 s))) by (cbn [String.length]; lia). reflexivity. }
  destruct s as [|c4 s]; [reflexivity|].
  destruct (ascii_dec c4 "a") as [-> | H4].
  2:{ rewrite ?append_cons. rewrite !remove_delay_ne4 by exact H4.
      rewrite ?append_cons.
      rewrite <- (IH' (String "e" (String "l" (String c4 s)))) by (cbn [String.length]; lia).
      reflexivity. }
  destruct s as [|c5 s]; [reflexivity|].
  destruct (ascii_dec c5 "y") as [-> | H5].
  2:{ rewrite ?append_cons. rewrite !remove_delay_ne5 by exact H5.
      rewrite ?append_cons.
      rewrite <- (IH' (String "e" (String "l" (String "a" (String c5 s)))))
        by (cbn [String.length]; lia).
      reflexivity. }
  change (remove_delay (s +:+ " Delay") = remove_delay s +:+ " ").
  apply IH'. cbn [String.length]. lia.
Qed.

(** The text is ASCII.  On such text the characters [str.strip()] removes
    are those of [is_space]; beyond ASCII Python also removes the Unicode
    white space (U+0085, U+00A0, U+2000 and others), which [is_space]
    does not know. *)
Fixpoint ascii_only (s : string) : bool :=
  match s with
  | EmptyString => true
  | String c rest => Nat.ltb (nat_of_ascii c) 128 && ascii_only rest
  end.

Section Severity.

Variable parse_datetime : json → option string.
Variable process_lane_info : json → string.

(** Every record [get_api_response] returns has a severity that [strip]
    leaves alone (no blank at either end), and an [active] flag that is 0
    or 1. *)
Theorem get_api_response_normalised (data : list (gmap string json))
    (row : api_event) :
  row ∈ get_api_response parse_datetime process_lane_info (Some data) →
  strip (a_severity row) = a_severity row
  ∧ (a_active row = 0 ∨ a_active row = 1).
Proof.
  intros Hrow. rewrite get_api_response_filter in Hrow.
  apply list_elem_of_In, in_map_iff in Hrow as (e & <- & _).
  cbn [make_event a_severity a_active]. split; [apply strip_idem|].
  destruct (truthy (dict_get e "active")); auto.
Qed.

(** An upstream severity "<level> Delay" is emitted as "<level>", for every
    ASCII level that has no blank at either end and does not itself
    contain "Delay". *)
Theorem make_event_severity_delay (e : gmap string json) (level : string) :
  dict_get e "severity" = JStr (level +:+ " Delay") →
  ascii_only level = true →
  strip level = level → remove_delay level = level →
  a_severity (make_event parse_datetime process_lane_info e) = level.
Proof.
  intros He _ Hs Hd. cbn [make_event a_severity]. rewrite He.
  assert (Hstr : as_str (JStr (level +:+ " Delay")) = level +:+ " Delay").
  { unfold as_str, py_or. cbn [truthy].
    destruct (bool_decide (level +:+ " Delay" = "")) eqn:Hb; [|reflexivity].
    apply bool_decide_eq_true in Hb. destruct level; discriminate. }
  rewrite Hstr, remove_delay_app_delay, Hd, strip_app_space. exact Hs.
Qed.

End Severity.

(** The record of the examples is emitted with a severity that [strip]
    leaves alone (an instance of [get_api_response_normalised]). *)
Lemma get_api_response_normalised_witness :
  let parse := λ _ : json, @None string in
  let lanes := λ _ : json, "" in
  let data := [upstream 6 (JNum (335 # 10)) (JNum (-868 # 10))] in
  make_event parse lanes (upstream 6 (JNum (335 # 10)) (JNum (-868 # 10)))
    ∈ get_api_response parse lanes (Some data)
  ∧ strip "Major" = "Major".
Proof.
  intros parse lanes data.
  assert (Hin : make_event parse lanes (upstream 6 (JNum (335 # 10)) (JNum (-868 # 10)))
                  ∈ get_api_response parse lanes (Some data)).
  { vm_compute. left. }
  split; [exact Hin|].
  exact (proj1 (get_api_response_normalised parse lanes data _ Hin)).
Defined.

(** The record of the examples has severity "Major Delay" and is emitted
    with severity "Major", the key of [SEVERITY_WEIGHTS] (an instance of
    [make_event_severity_delay]). *)
Lemma make_event_severity_delay_witness :
  let parse := λ _ : json, @None string in
  let lanes := λ _ : json, "" in
  dict_get (upstream 1 (JNum 1) (JNum 1)) "severity" = JStr ("Major" +:+ " Delay")
  ∧ ascii_only "Major" = true
  ∧ strip "Major" = "Major" ∧ remove_delay "Major" = "Major"
  ∧ a_severity (make_event parse lanes (upstream 1 (JNum 1) (JNum 1))) = "Major".
Proof.
  intros parse lanes.
  assert (H1 : dict_get (upstream 1 (JNum 1) (JNum 1)) "severity"
               = JStr ("Major" +:+ " Delay")) by (vm_compute; reflexivity).
  split; [exact H1|]. split; [reflexivity|].
  split; [reflexivity|]. split; [reflexivity|].
  exact (make_event_severity_delay parse lanes _ "Major" H1 eq_refl eq_refl
           eq_refl).
Defined.

(** [replace] makes one pass: what it leaves may hold "Delay" again. *)
Lemma remove_delay_one_pass : remove_delay "DeDelaylay" = "Delay".
Proof. reflexivity. Qed.


End Api.

(** ** The haversine distance

    [haversine_distance] of [app/calculations.py] (miles) and [haversine]
    of [analysis.py] (meters) are written once over the arithmetic they
    run on, and read in two arithmetics: the exact reals, and IEEE
    binary64, the arithmetic of numpy's [float64]. *)
Module Geometry.

(** The numbers and the numpy operations the two functions use. *)
Record arithmetic := Arithmetic {
  num : Type;
  lit : Z → num;
  np_radians : num → num;
  add : num → num → num;
  sub : num → num → num;
  mul : num → num → num;
  div : num → num → num;
  square : num → num;
  np_sin : num → num;
  np_cos : num → num;
  np_sqrt : num → num;
  np_arcsin : num → num
}.

Section Haversine.
Variable A : arithmetic.

(** The intermediate [a], the value handed to [np.sqrt]:
    [[
    lat1, lon1, lat2, lon2 = map(np.radians, [lat1, lon1, lat2, lon2])
    dlat = lat2 - lat1
    dlon = lon2 - lon1
    a = np.sin(dlat / 2) ** 2 + np.cos(lat1) * np.cos(lat2) * np.sin(dlon / 2) ** 2
    ]] *)
Definition haversine_a (lat1 lon1 lat2 lon2 : num A) : num A :=
  let lat1 := np_radians A lat1 in
  let lon1 := np_radians A lon1 in
  let lat2 := np_radians A lat2 in
  let lon2 := np_radians A lon2 in
  let dlat := sub A lat2 lat1 in
  let dlon := sub A lon2 lon1 in
  add A (square A (np_sin A (div A dlat (lit A 2))))
    (mul A (mul A (np_cos A lat1) (np_cos A lat2))
       (square A (np_sin A (div A dlon (lit A 2))))).

(** [haversine_distance] of [app/calculations.py]:
    [c = 2 * np.arcsin(np.sqrt(a)); return R * c] with [R = 3959]. *)
Definition haversine_distance (lat1 lon1 lat2 lon2 : num A) : num A :=
  let R := lit A 3959 in
  let a := haversine_a lat1 lon1 lat2 lon2 in
  let c := mul A (lit A 2) (np_arcsin A (np_sqrt A a)) in
  mul A R c.

(** [haversine] of [analysis.py]; longitude comes first among its
    arguments: [c = 2 * np.arcsin(np.sqrt(a)); r = 6371000; return c * r]. *)
Definition haversine (lon1 lat1 lon2 lat2 : num A) : num A :=
  let a := haversine_a lat1 lon1 lat2 lon2 in
  let c := mul A (lit A 2) (np_arcsin A (np_sqrt A a)) in
  let r := lit A 6371000 in
  mul A c r.

End Haversine.

(** *** Exact real arithmetic *)
Section Real.
Import Reals Lra.
Local Open Scope R_scope.

Definition real : arithmetic :=
  Arithmetic R IZR (fun x => x * (PI / 180)) Rplus Rminus Rmult Rdiv Rsqr
    sin cos sqrt asin.



End Real.

(** *** IEEE binary64 arithmetic *)
Section Binary64.
Import PrimFloat.

(** [np.radians(x)] is [x * (pi / 180)], the factor a binary64 constant. *)
Definition deg2rad : float := 0x1.1df46a2529d39p-6%float.

(** The arithmetic of [float64].  Sine, cosine and inverse sine are the
    platform's; they come as arguments. *)
Definition binary64 (fsin fcos farcsin : float → float) : arithmetic :=
  Arithmetic float (fun z => of_uint63 (Uint63.of_Z z))
    (fun x => PrimFloat.mul x deg2rad)
    PrimFloat.add PrimFloat.sub PrimFloat.mul PrimFloat.div
    (fun x => PrimFloat.mul x x)
    fsin fcos PrimFloat.sqrt farcsin.



(** Sine, cosine and inverse sine, correctly rounded, at the arguments
    that occur in the examples: 0 and the radians of 8, 45, 90 and 135
    degrees for sine and cosine, 0 and 1 for the inverse sine; NaN
    elsewhere.  The sine is tabulated on the positive arguments and
    extended as an odd function, the cosine as an even one. *)
Definition sin_values (x : float) : float :=
  if PrimFloat.eqb x 0%float then x
  else if PrimFloat.eqb x 0x1.1df46a2529d39p-3%float
  then 0x1.1d06c968d9e19p-3%float
  else if PrimFloat.eqb x 0x1.921fb54442d18p-1%float
  then 0x1.6a09e667f3bccp-1%float
  else if PrimFloat.eqb x 0x1.921fb54442d18p+0%float then 1%float
  else PrimFloat.nan.

Definition sin64 (x : float) : float :=
  if PrimFloat.ltb x 0%float then PrimFloat.opp (sin_values (PrimFloat.opp x))
  else sin_values x.

Definition cos64 (x : float) : float :=
  let x := PrimFloat.abs x in
  if PrimFloat.eqb x 0%float then 1%float
  else if PrimFloat.eqb x 0x1.1df46a2529d39p-3%float
  then 0x1.fb046a930947ap-1%float
  else if PrimFloat.eqb x 0x1.921fb54442d18p-1%float
  then 0x1.6a09e667f3bcdp-1%float
  else if PrimFloat.eqb x 0x1.2d97c7f3321d2p+1%float
  then (-0x1.6a09e667f3bccp-1)%float
  else PrimFloat.nan.

Definition arcsin64 (x : float) : float :=
  if PrimFloat.eqb x 0%float then x
  else if PrimFloat.eqb x 1%float then 0x1.921fb54442d18p+0%float
  else PrimFloat.nan.

(** The value handed to the sine for two coordinates of the same kind,
    [(np.radians(x) - np.radians(y)) / 2]. *)
Definition half_difference (B : arithmetic) (x y : num B) : num B :=
  Geometry.div B (Geometry.sub B (np_radians B x) (np_radians B y)) (lit B 2).

(** The function is odd at the argument. *)
Definition odd_at (f : float → float) (u : float) : Prop :=
  f (PrimFloat.opp u) = PrimFloat.opp (f u).

(** The float is a number: zero, subnormal or normal. *)
Definition finite64 (x : float) : bool :=
  match FloatOps.Prim2SF x with
  | SpecFloat.S754_zero _ | SpecFloat.S754_finite _ _ _ => true
  | _ => false
  end.

(** The float is a number that is not negative (a zero of either sign
    included) or plus infinity; in particular it is not NaN. *)
Definition nonneg64 (x : float) : bool :=
  match FloatOps.Prim2SF x with
  | SpecFloat.S754_nan => false
  | SpecFloat.S754_zero _ => true
  | SpecFloat.S754_infinity s | SpecFloat.S754_finite s _ _ => negb s
  end.

End Binary64.

Section RealTheorems.
Import Reals Qreals Lra.
Local Open Scope R_scope.

Lemma haversine_a_real lat1 lon1 lat2 lon2 :
  haversine_a real lat1 lon1 lat2 lon2 =
    Rsqr (sin ((lat2 * (PI / 180) - lat1 * (PI / 180)) / 2))
    + cos (lat1 * (PI / 180)) * cos (lat2 * (PI / 180))
      * Rsqr (sin ((lon2 * (PI / 180) - lon1 * (PI / 180)) / 2)).
Proof. reflexivity. Qed.

Lemma Rsqr_sin_half_swap x y : Rsqr (sin ((y - x) / 2)) = Rsqr (sin ((x - y) / 2)).
Proof.
  replace ((y - x) / 2) with (- ((x - y) / 2)) by lra.
  rewrite sin_neg. symmetry. apply Rsqr_neg.
Qed.

Lemma haversine_a_real_sym lat1 lon1 lat2 lon2 :
  haversine_a real lat1 lon1 lat2 lon2 = haversine_a real lat2 lon2 lat1 lon1.
Proof.
  rewrite !haversine_a_real.
  rewrite (Rsqr_sin_half_swap (lat1 * _) (lat2 * _)).
  rewrite (Rsqr_sin_half_swap (lon1 * _) (lon2 * _)).
  rewrite (Rmult_comm (cos (lat1 * _)) (cos (lat2 * _))). reflexivity.
Qed.

Lemma haversine_a_real_same lat lon : haversine_a real lat lon lat lon = 0.
Proof.
  rewrite haversine_a_real.
  replace ((lat * (PI / 180) - lat * (PI / 180)) / 2) with 0 by lra.
  replace ((lon * (PI / 180) - lon * (PI / 180)) / 2) with 0 by lra.
  rewrite sin_0. unfold Rsqr. lra.
Qed.

(** In exact arithmetic the intermediate is within [0, 1] whatever the
    four arguments are (no range of latitude is assumed). *)
Lemma haversine_a_real_bounds lat1 lon1 lat2 lon2 :
  0 <= haversine_a real lat1 lon1 lat2 lon2 <= 1.
Proof.
  rewrite haversine_a_real.
  set (p := lat1 * (PI / 180)). set (q := lat2 * (PI / 180)).
  set (v := (lon2 * (PI / 180) - lon1 * (PI / 180)) / 2).
  pose proof (cos_2a_sin ((q - p) / 2)) as H1.
  replace (2 * ((q - p) / 2)) with (q - p) in H1 by lra.
  pose proof (cos_minus q p) as H2. pose proof (cos_plus p q) as H3.
  pose proof (COS_bound (q - p)) as [B1 B2].
  pose proof (COS_bound (p + q)) as [B3 B4].
  pose proof (SIN_bound v) as [B5 B6].
  unfold Rsqr.
  set (su := sin ((q - p) / 2)) in *. set (sv := sin v) in *.
  set (C1 := cos (q - p)) in *. set (C2 := cos (p + q)) in *.
  assert (Hcc : cos p * cos q = (C1 + C2) / 2) by lra.
  assert (Hss : su * su = (1 - C1) / 2) by lra.
  assert (Ht0 : 0 <= sv * sv) by nra.
  assert (Ht1 : sv * sv <= 1) by nra.
  rewrite Hcc, Hss. set (t := sv * sv) in *.
  assert (0 <= (1 - C1) * (1 - t)) by nra.
  assert (0 <= t * (1 + C2)) by nra.
  assert (0 <= (1 + C1) * (1 - t)) by nra.
  assert (0 <= t * (1 - C2)) by nra.
  split; nra.
Qed.


Lemma haversine_distance_real_same lat lon :
  haversine_distance real lat lon lat lon = 0.
Proof.
  unfold haversine_distance. cbn [real mul lit np_arcsin np_sqrt].
  rewrite haversine_a_real_same, sqrt_0, asin_0. lra.
Qed.

(** [haversine_distance] on the coordinates of stored rows, and the test
    [dist <= radius_miles], in exact arithmetic. *)
Definition haversine_miles (lat1 lon1 lat2 lon2 : Q) : R :=
  haversine_distance real (Q2R lat1) (Q2R lon1)
    (Q2R lat2) (Q2R lon2).

Definition Rleb (x y : R) : bool := if Rle_dec x y then true else false.

(** Three incidents at the same coordinates form one cluster of three,
    whatever the radius (not negative) is. *)
Lemma three_identical_coordinates (p : Q * Q) (radius_miles : R) :
  0 <= radius_miles →
  let st := Calculations.assign_clusters haversine_miles Rleb radius_miles
              [p; p; p] in
  Calculations.groups st = [[0; 1; 2]%nat]
  ∧ Calculations.cluster_id_column st = [0; 0; 0]%Z.
Proof.
  intros Hr st.
  apply (Calculations.assign_clusters_all_near haversine_miles Rleb
           radius_miles [p; p; p]).
  - cbn. lia.
  - intros j Hj. cbn [length] in Hj.
    assert (Hp : [p; p; p] !! j = Some p).
    { destruct j as [|[|[|j]]]; try reflexivity; lia. }
    unfold Calculations.near. rewrite Hp. cbn [lookup list_lookup].
    unfold haversine_miles. rewrite haversine_distance_real_same.
    unfold Rleb. destruct (Rle_dec 0 radius_miles); [reflexivity | contradiction].
Qed.

(** At (33, -86) with the default radius of half a mile (an instance of
    [three_identical_coordinates]). *)
Lemma three_identical_coordinates_witness :
  let p := (33%Q, (-86)%Q) in
  Calculations.cluster_id_column
    (Calculations.assign_clusters haversine_miles Rleb (1 / 2) [p; p; p])
  = [0; 0; 0]%Z.
Proof.
  intros p.
  apply (three_identical_coordinates p (1 / 2)). lra.
Defined.

(** The value the inverse sine returns for an argument between 0 and 1 is
    between 0 and pi/2. *)
Lemma asin_unit_range x : 0 <= x <= 1 → 0 <= asin x <= PI / 2.
Proof.
  intros [H0 H1]. pose proof (asin_bound x) as [Hlo Hhi].
  split; [|exact Hhi].
  destruct (Rle_lt_dec 0 (asin x)) as [Hge | Hlt]; [exact Hge|].
  exfalso. pose proof PI_RGT_0.
  assert (Hsin : sin (asin x) < 0) by (apply sin_lt_0_var; lra).
  rewrite sin_asin in Hsin by lra. lra.
Qed.

(** The distance is never negative and never more than half the
    circumference of the sphere: 3959 pi miles, 6371000 pi meters. *)
Theorem haversine_distance_range (lat1 lon1 lat2 lon2 : R) :
  0 <= haversine_distance real lat1 lon1 lat2 lon2 <= 3959 * PI
  ∧ 0 <= haversine real lon1 lat1 lon2 lat2 <= 6371000 * PI.
Proof.
  unfold haversine_distance, haversine. cbn [real mul lit np_arcsin np_sqrt].
  pose proof (haversine_a_real_bounds lat1 lon1 lat2 lon2) as Hb.
  assert (Hs : 0 <= sqrt (haversine_a real lat1 lon1 lat2 lon2) <= 1).
  { split; [apply sqrt_pos|]. rewrite <- sqrt_1. apply sqrt_le_1_alt. apply Hb. }
  pose proof (asin_unit_range _ Hs) as [Ha0 Ha1].
  pose proof PI_RGT_0.
  split; split; nra.
Qed.


(** Along a meridian the distance is the difference of latitude, in
    radians, times the radius: for two points of the same longitude whose
    latitudes differ by at most 180 degrees. *)
Theorem haversine_distance_meridian (lat1 lat2 lon : R) :
  Rabs (lat2 - lat1) <= 180 →
  haversine_distance real lat1 lon lat2 lon
  = 3959 * (Rabs (lat2 - lat1) * (PI / 180)).
Proof.
  intros Hd. unfold haversine_distance. cbn [real mul lit np_arcsin np_sqrt].
  rewrite haversine_a_real.
  replace ((lon * (PI / 180) - lon * (PI / 180)) / 2) with 0 by lra.
  rewrite sin_0.
  replace (Rsqr 0) with 0 by (unfold Rsqr; lra).
  rewrite Rmult_0_r, Rplus_0_r, sqrt_Rsqr_abs.
  pose proof PI_RGT_0 as Hpi.
  set (u := (lat2 * (PI / 180) - lat1 * (PI / 180)) / 2).
  assert (Hu : u = (lat2 - lat1) * (PI / 360)) by (unfold u; lra).
  assert (Habs : Rabs u = Rabs (lat2 - lat1) * (PI / 360)).
  { rewrite Hu, Rabs_mult, (Rabs_pos_eq (PI / 360)) by lra. reflexivity. }
  assert (Hrange : 0 <= Rabs u <= PI / 2).
  { rewrite Habs. pose proof (Rabs_pos (lat2 - lat1)). split; nra. }
  assert (Hsin : Rabs (sin u) = sin (Rabs u)).
  { destruct (Rle_lt_dec 0 u) as [Hpos | Hneg].
    - rewrite (Rabs_pos_eq u) by exact Hpos. rewrite (Rabs_pos_eq u) in Hrange by exact Hpos.
      apply Rabs_pos_eq. apply sin_ge_0; lra.
    - rewrite (Rabs_left u) by exact Hneg. rewrite (Rabs_left u) in Hrange by exact Hneg.
      rewrite sin_neg. apply Rabs_left1.
      assert (sin u < 0) by (apply sin_lt_0_var; lra). lra. }
  rewrite Hsin, asin_sin by lra. rewrite Habs. lra.
Qed.

Lemma PI_bounds : 3141 / 1000 < PI < 3143 / 1000.
Proof.
  pose proof (PI_2_3_7_ineq 1) as [Hlo Hhi].
  unfold sum_f_R0, tg_alt, PI_2_3_7_tg, Ratan_seq in Hlo, Hhi.
  cbn [Nat.mul Nat.add pow INR] in Hlo, Hhi.
  split; lra.
Qed.

(** One degree of latitude is 3959 pi / 180 miles, between 69.0 and 69.2
    (an instance of [haversine_distance_meridian]). *)
Lemma haversine_distance_meridian_witness :
  haversine_distance real 33 (-86) 34 (-86) = 3959 * (1 * (PI / 180))
  ∧ 69 < haversine_distance real 33 (-86) 34 (-86) < 692 / 10.
Proof.
  assert (Hd : Rabs (34 - 33) <= 180).
  { replace (34 - 33) with 1 by lra. rewrite Rabs_R1. lra. }
  pose proof (haversine_distance_meridian 33 34 (-86) Hd) as H.
  replace (34 - 33) with 1 in H by lra. rewrite Rabs_R1 in H.
  split; [exact H|]. rewrite H. pose proof PI_bounds. lra.
Defined.


(** In exact arithmetic both distance functions are symmetric in their
    two points and give 0 when the two points are the same. *)
Lemma haversine_symmetric_zero_real :
  (∀ lat1 lon1 lat2 lon2,
      haversine_distance real lat1 lon1 lat2 lon2
      = haversine_distance real lat2 lon2 lat1 lon1)
  ∧ (∀ lat lon, haversine_distance real lat lon lat lon = 0)
  ∧ (∀ lon1 lat1 lon2 lat2,
      haversine real lon1 lat1 lon2 lat2 = haversine real lon2 lat2 lon1 lat1)
  ∧ (∀ lon lat, haversine real lon lat lon lat = 0).
Proof.
  unfold haversine_distance, haversine. cbn [real mul lit np_arcsin np_sqrt].
  repeat split; intros.
  - rewrite (haversine_a_real_sym lat1 lon1 lat2 lon2). reflexivity.
  - rewrite haversine_a_real_same, sqrt_0, asin_0. lra.
  - rewrite (haversine_a_real_sym lat1 lon1 lat2 lon2). reflexivity.
  - rewrite haversine_a_real_same, sqrt_0, asin_0. lra.
Qed.


End RealTheorems.

(** *** Laws of binary64 arithmetic

    Read off the specification of the primitive floats: a difference
    changes sign when its operands are swapped (or is the same zero or
    not-a-number both ways), a quotient changes sign with its dividend, a
    square does not see the sign, a product does not see the order. *)
Section Binary64Laws.
Import PrimFloat SpecFloat FloatOps FloatAxioms.

Lemma binary_round_aux_opp s m e l :
  binary_round_aux prec emax (negb s) m e l
  = SFopp (binary_round_aux prec emax s m e l).
Proof.
  unfold binary_round_aux.
  destruct (shr_fexp prec emax m e l) as [mrs' e'].
  destruct (shr_fexp prec emax _ e' loc_Exact) as [mrs'' e''].
  destruct (shr_m mrs''); [reflexivity| |reflexivity].
  destruct (Z.leb e'' (Z.sub emax prec)); reflexivity.
Qed.

Lemma binary_round_opp s m e :
  binary_round prec emax (negb s) m e = SFopp (binary_round prec emax s m e).
Proof.
  unfold binary_round.
  destruct (shl_align m e _) as [mz ez]. apply binary_round_aux_opp.
Qed.

Lemma binary_normalize_opp z e :
  binary_normalize prec emax (Z.opp z) e false
  = match z with
    | Z0 => S754_zero false
    | _ => SFopp (binary_normalize prec emax z e false)
    end.
Proof.
  destruct z as [|p|p]; cbn [Z.opp binary_normalize]; [reflexivity| |].
  - exact (binary_round_opp false p e).
  - exact (binary_round_opp true p e).
Qed.

Lemma SFsub_swap x y :
  SF64sub y x = SFopp (SF64sub x y) ∨ SF64sub y x = SF64sub x y.
Proof.
  unfold SF64sub.
  destruct x as [sx|sx| |sx mx ex], y as [sy|sy| |sy my ey];
    try (destruct sx, sy; cbn; auto; fail);
    try (destruct sx; cbn; auto; fail);
    try (destruct sy; cbn; auto; fail);
    try (cbn; auto; fail).
  cbn [SFsub]. cbv zeta. rewrite (Z.min_comm ey ex).
  set (ez := Z.min ex ey).
  set (a := cond_Zopp sx (Zpos (fst (shl_align mx ex ez)))).
  set (b := cond_Zopp sy (Zpos (fst (shl_align my ey ez)))).
  replace (Z.sub b a) with (Z.opp (Z.sub a b)) by lia.
  rewrite binary_normalize_opp.
  destruct (Z.sub a b) eqn:Hab; [right; reflexivity | left; reflexivity | left; reflexivity].
Qed.

Lemma sub_swap (x y : float) :
  (y - x = - (x - y) ∨ y - x = x - y)%float.
Proof.
  destruct (SFsub_swap (Prim2SF x) (Prim2SF y)) as [H | H].
  - left. apply Prim2SF_inj. rewrite opp_spec, !sub_spec. exact H.
  - right. apply Prim2SF_inj. rewrite !sub_spec. exact H.
Qed.

Lemma SFdiv_opp_l x y : SF64div (SFopp x) y = SFopp (SF64div x y).
Proof.
  unfold SF64div.
  destruct x as [sx|sx| |sx mx ex], y as [sy|sy| |sy my ey];
    try (destruct sx, sy; reflexivity); try reflexivity.
  cbn [SFopp SFdiv].
  destruct (SFdiv_core_binary prec emax (Zpos mx) ex (Zpos my) ey) as [[mz ez] lz].
  rewrite <- binary_round_aux_opp. destruct sx, sy; reflexivity.
Qed.

Lemma div_opp_l (x y : float) : (- x / y = - (x / y))%float.
Proof.
  apply Prim2SF_inj. rewrite opp_spec, !div_spec, opp_spec. apply SFdiv_opp_l.
Qed.

Lemma SFmul_opp_opp x : SF64mul (SFopp x) (SFopp x) = SF64mul x x.
Proof. destruct x as [[]|[]| |[] m e]; reflexivity. Qed.

Lemma mul_opp_opp (x : float) : (- x * - x = x * x)%float.
Proof.
  apply Prim2SF_inj. rewrite !mul_spec, opp_spec. apply SFmul_opp_opp.
Qed.

Lemma SFmul_comm x y : SF64mul x y = SF64mul y x.
Proof.
  unfold SF64mul.
  destruct x as [sx|sx| |sx mx ex], y as [sy|sy| |sy my ey];
    cbn [SFmul]; rewrite ?(xorb_comm sx sy); try reflexivity.
  rewrite (Pos.mul_comm mx my), (Z.add_comm ex ey). reflexivity.
Qed.

Lemma mul_comm (x y : float) : (x * y = y * x)%float.
Proof. apply Prim2SF_inj. rewrite !mul_spec. apply SFmul_comm. Qed.

Lemma sub_diag (x : float) : finite64 x = true → (x - x = 0)%float.
Proof.
  unfold finite64. intros Hx. apply Prim2SF_inj. rewrite sub_spec.
  destruct (Prim2SF x) as [[]|[]| |s m e]; try discriminate; try reflexivity.
  unfold SF64sub. cbn [SFsub]. cbv zeta. rewrite Z.min_id.
  unfold shl_align. rewrite Z.sub_diag. cbv beta iota. cbn [fst].
  reflexivity.
Qed.

Lemma mul_zero_r (x : float) :
  finite64 x = true → (x * 0 = 0 ∨ x * 0 = -0)%float.
Proof.
  unfold finite64. intros Hx.
  assert (H : Prim2SF (x * 0)%float = S754_zero false
              ∨ Prim2SF (x * 0)%float = S754_zero true).
  { rewrite mul_spec. change (Prim2SF 0%float) with (S754_zero false).
    destruct (Prim2SF x) as [[]|[]| |[] m e]; try discriminate; cbn; auto. }
  destruct H as [H | H]; [left | right]; apply Prim2SF_inj; rewrite H; reflexivity.
Qed.

End Binary64Laws.

(** *** Signs in binary64 arithmetic

    Rounding keeps the sign it is given: squares, products and sums of
    numbers that are not negative, and their square roots, are not
    negative. *)
Section Binary64Signs.
Import PrimFloat SpecFloat FloatOps FloatAxioms.

(** The number is not negative (a zero of either sign included), or is
    plus infinity. *)
Definition nonneg_sf (x : spec_float) : bool :=
  match x with
  | S754_nan => false
  | S754_zero _ => true
  | S754_infinity s | S754_finite s _ _ => negb s
  end.

Lemma shr_1_nonneg mrs : 0 ≤ shr_m mrs → 0 ≤ shr_m (shr_1 mrs).
Proof.
  destruct mrs as [m r s]. cbn [shr_m]. intros Hm.
  destruct m as [|p|p]; [cbn; lia| |lia].
  destruct p; cbn; lia.
Qed.

Lemma iter_pos_shr_1_nonneg p mrs :
  0 ≤ shr_m mrs → 0 ≤ shr_m (iter_pos shr_1 p mrs).
Proof.
  revert mrs. induction p as [p IH|p IH|]; intros mrs Hm; cbn [iter_pos].
  - apply IH, IH, shr_1_nonneg, Hm.
  - apply IH, IH, Hm.
  - apply shr_1_nonneg, Hm.
Qed.

Lemma shr_fexp_nonneg m e l :
  0 ≤ m → 0 ≤ shr_m (fst (shr_fexp prec emax m e l)).
Proof.
  intros Hm. unfold shr_fexp, shr.
  assert (H0 : 0 ≤ shr_m (shr_record_of_loc m l)).
  { destruct l as [|[]]; exact Hm. }
  destruct (Z.sub _ e); cbn [fst]; [exact H0 | apply iter_pos_shr_1_nonneg, H0 | exact H0].
Qed.

Lemma round_nearest_even_nonneg m l : 0 ≤ m → 0 ≤ round_nearest_even m l.
Proof.
  intros Hm. unfold round_nearest_even.
  destruct l as [|[]]; try lia. destruct (Z.even m); lia.
Qed.

Lemma binary_round_aux_nonneg m e l :
  0 ≤ m → nonneg_sf (binary_round_aux prec emax false m e l) = true.
Proof.
  intros Hm. unfold binary_round_aux.
  pose proof (shr_fexp_nonneg m e l Hm) as H1.
  destruct (shr_fexp prec emax m e l) as [mrs' e']. cbn [fst] in H1.
  pose proof (shr_fexp_nonneg _ e' loc_Exact
                (round_nearest_even_nonneg _ (loc_of_shr_record mrs') H1)) as H2.
  destruct (shr_fexp prec emax _ e' loc_Exact) as [mrs'' e'']. cbn [fst] in H2.
  destruct (shr_m mrs''); [reflexivity| |lia].
  destruct (Z.leb e'' (Z.sub emax prec)); reflexivity.
Qed.






Lemma SFsqrt_nonneg x : nonneg_sf x = true → nonneg_sf (SF64sqrt x) = true.
Proof.
  unfold SF64sqrt.
  destruct x as [[]|[]| |[] m e]; try discriminate; try reflexivity.
  intros _. cbn [SFsqrt]. unfold SFsqrt_core_binary. cbv zeta.
  destruct (Z.sqrtrem _) as [q r] eqn:Hq.
  apply binary_round_aux_nonneg.
  assert (Hq' : q = fst (Z.sqrtrem
    match e - 2 * Z.min (fexp prec emax (Z.div2 (Zdigits2 (Z.pos m) + e + 1))) (Z.div2 e) with
    | 0 => Z.pos m
    | Z.pos _ => Z.shiftl (Z.pos m)
          (e - 2 * Z.min (fexp prec emax (Z.div2 (Zdigits2 (Z.pos m) + e + 1))) (Z.div2 e))
    | Z.neg _ => 0
    end)) by (rewrite Hq; reflexivity).
  rewrite Hq', Z.sqrtrem_sqrt. apply Z.sqrt_nonneg.
Qed.

Lemma nonneg64_spec x : nonneg64 x = nonneg_sf (Prim2SF x).
Proof. reflexivity. Qed.






Lemma sqrt_nonneg (x : float) :
  nonneg64 x = true → nonneg64 (sqrt x) = true.
Proof. rewrite !nonneg64_spec, sqrt_spec. apply SFsqrt_nonneg. Qed.

End Binary64Signs.

Section Binary64Theorems.
Import PrimFloat Rdefinitions.
Local Open Scope float_scope.

Lemma square_sin_swap (fsin fcos farcsin : float → float) (x y : float) :
  let B := binary64 fsin fcos farcsin in
  odd_at fsin (half_difference B x y) →
  square B (np_sin B (half_difference B y x))
  = square B (np_sin B (half_difference B x y)).
Proof.
  intros B Hodd. subst B. unfold half_difference, odd_at in *.
  cbn [binary64 square np_sin Geometry.div Geometry.sub np_radians lit] in *.
  destruct (sub_swap (x * deg2rad) (y * deg2rad)) as [Hswap | Hswap].
  - rewrite Hswap, div_opp_l, Hodd. apply mul_opp_opp.
  - rewrite Hswap. reflexivity.
Qed.

Lemma haversine_a_binary64_sym (fsin fcos farcsin : float → float)
    (lat1 lon1 lat2 lon2 : float) :
  let B := binary64 fsin fcos farcsin in
  odd_at fsin (half_difference B lat2 lat1) →
  odd_at fsin (half_difference B lon2 lon1) →
  haversine_a B lat1 lon1 lat2 lon2 = haversine_a B lat2 lon2 lat1 lon1.
Proof.
  intros B Hlat Hlon.
  pose proof (square_sin_swap fsin fcos farcsin lat2 lat1 Hlat) as H1.
  pose proof (square_sin_swap fsin fcos farcsin lon2 lon1 Hlon) as H2.
  subst B. unfold haversine_a, half_difference in *. cbv zeta in *.
  cbn [binary64 square np_sin np_cos Geometry.div Geometry.sub np_radians lit
       Geometry.add Geometry.mul] in *.
  rewrite H1, H2. f_equal. f_equal. apply mul_comm.
Qed.

Lemma haversine_a_binary64_same (fsin fcos farcsin : float → float)
    (lat lon : float) :
  let B := binary64 fsin fcos farcsin in
  finite64 (np_radians B lat) = true → finite64 (np_radians B lon) = true →
  finite64 (fcos (np_radians B lat) * fcos (np_radians B lat)) = true →
  fsin 0 = 0 →
  haversine_a B lat lon lat lon = 0.
Proof.
  intros B Hlat Hlon Hcos Hsin. subst B. unfold haversine_a. cbv zeta.
  cbn [binary64 square np_sin np_cos Geometry.div Geometry.sub np_radians lit
       Geometry.add Geometry.mul] in *.
  rewrite (sub_diag _ Hlat), (sub_diag _ Hlon).
  change (0 / of_uint63 (Uint63.of_Z 2)) with 0.
  rewrite Hsin. change (0 * 0) with 0.
  destruct (mul_zero_r _ Hcos) as [-> | ->]; reflexivity.
Qed.


(** C8.  Both distance functions are symmetric in their two points and
    give 0 when the two points are the same: in exact arithmetic for all
    arguments, and exactly so in binary64, the arithmetic the code runs
    in, whatever the platform's cosine and inverse sine, provided its sine
    is odd at the two half-differences it is applied to (for the
    symmetry), and, for the zero, provided the coordinates in radians
    and the squared cosine of the latitude are numbers and sine and
    inverse sine map 0 to 0. *)
Theorem haversine_symmetric_zero :
  ((∀ lat1 lon1 lat2 lon2 : R,
      haversine_distance real lat1 lon1 lat2 lon2
      = haversine_distance real lat2 lon2 lat1 lon1)
   ∧ (∀ lat lon : R,
        haversine_distance real lat lon lat lon = 0%R)
   ∧ (∀ lon1 lat1 lon2 lat2 : R,
        haversine real lon1 lat1 lon2 lat2 = haversine real lon2 lat2 lon1 lat1)
   ∧ (∀ lon lat : R,
        haversine real lon lat lon lat = 0%R))
  ∧ (∀ (fsin fcos farcsin : float → float) (lat1 lon1 lat2 lon2 : float),
       let B := binary64 fsin fcos farcsin in
       odd_at fsin (half_difference B lat2 lat1) →
       odd_at fsin (half_difference B lon2 lon1) →
       haversine_distance B lat1 lon1 lat2 lon2
       = haversine_distance B lat2 lon2 lat1 lon1
       ∧ haversine B lon1 lat1 lon2 lat2 = haversine B lon2 lat2 lon1 lat1)
  ∧ (∀ (fsin fcos farcsin : float → float) (lat lon : float),
       let B := binary64 fsin fcos farcsin in
       finite64 (np_radians B lat) = true →
       finite64 (np_radians B lon) = true →
       finite64 (fcos (np_radians B lat) * fcos (np_radians B lat)) = true →
       fsin 0 = 0 → farcsin 0 = 0 →
       haversine_distance B lat lon lat lon = 0
       ∧ haversine B lon lat lon lat = 0).
Proof.
  split; [exact haversine_symmetric_zero_real|]. split.
  - intros fsin fcos farcsin lat1 lon1 lat2 lon2 B Hlat Hlon. subst B.
    unfold haversine_distance, haversine. cbv zeta.
    rewrite (haversine_a_binary64_sym fsin fcos farcsin lat1 lon1 lat2 lon2 Hlat Hlon).
    split; reflexivity.
  - intros fsin fcos farcsin lat lon B Hlat Hlon Hcos Hsin Hasin. subst B.
    unfold haversine_distance, haversine. cbv zeta.
    rewrite (haversine_a_binary64_same fsin fcos farcsin lat lon Hlat Hlon Hcos Hsin).
    cbn [binary64 np_sqrt np_arcsin Geometry.mul lit].
    change (sqrt 0) with 0. rewrite Hasin.
    split; vm_compute; reflexivity.
Qed.

(** In binary64 with the tabulated sine, cosine and inverse sine: the
    distance between (8, 0) and (-8, 180) is the same in both directions,
    and the distance of (8, 0) to itself is 0 (an instance of
    [haversine_symmetric_zero]). *)
Lemma haversine_symmetric_zero_witness :
  let B := binary64 sin64 cos64 arcsin64 in
  (haversine_distance B 8 0 (-8) 180 = haversine_distance B (-8) 180 8 0
   ∧ haversine B 0 8 180 (-8) = haversine B 180 (-8) 0 8)
  ∧ (haversine_distance B 8 0 8 0 = 0 ∧ haversine B 0 8 0 8 = 0).
Proof.
  intros B. destruct haversine_symmetric_zero as (_ & Hsym & Hzero). split.
  - apply (Hsym sin64 cos64 arcsin64 8 0 (-8) 180); vm_compute; reflexivity.
  - apply (Hzero sin64 cos64 arcsin64 8 0); vm_compute; reflexivity.
Defined.




End Binary64Theorems.

End Geometry.


(** * app/main.py: the period of the dashboard and the period it is
      compared with *)

Module Main.

(** What a call does: it returns, or raises one of the two exceptions of
    [datetime]. *)
Inductive result (A : Type) :=
| Ok (a : A)
| ValueError
| OverflowError.
Arguments Ok {A} a.
Arguments ValueError {A}.
Arguments OverflowError {A}.

Definition bind {A B} (x : result A) (f : A → result B) : result B :=
  match x with
  | Ok a => f a
  | ValueError => ValueError
  | OverflowError => OverflowError
  end.

(** A [datetime.date]. *)
Record date := Date { year : Z; month : Z; day : Z }.

(** The proleptic Gregorian calendar of [datetime]. *)
Definition is_leap (y : Z) : bool :=
  (y mod 4 =? 0) && (negb (y mod 100 =? 0) || (y mod 400 =? 0)).

Definition days_in_month (y m : Z) : Z :=
  if m =? 2 then (if is_leap y then 29 else 28)
  else if (m =? 4) || (m =? 6) || (m =? 9) || (m =? 11) then 30
  else 31.

(** The dates [datetime.date] can hold ([MINYEAR] = 1, [MAXYEAR] = 9999). *)
Definition valid (d : date) : Prop :=
  1 ≤ year d ≤ 9999 ∧ 1 ≤ month d ≤ 12
  ∧ 1 ≤ day d ≤ days_in_month (year d) (month d).

(** [datetime.date(y, m, d)] *)
Definition make_date (y m d : Z) : result date :=
  if (1 <=? y) && (y <=? 9999) && (1 <=? m) && (m <=? 12)
     && (1 <=? d) && (d <=? days_in_month y m)
  then Ok (Date y m d) else ValueError.

(** [d.replace(year=y)] *)
Definition replace_year (d : date) (y : Z) : result date :=
  make_date y (month d) (day d).

Definition days_before_year (y : Z) : Z :=
  let y := y - 1 in y * 365 + y / 4 - y / 100 + y / 400.

Definition days_before_month (y m : Z) : Z :=
  nth (Z.to_nat (m - 1)) [0; 31; 59; 90; 120; 151; 181; 212; 243; 273; 304; 334] 0
  + (if (2 <? m) && is_leap y then 1 else 0).

(** [d.toordinal()]: the number of the day, 1 January of year 1 being day
    1; [(d2 - d1).days] is the difference of the ordinals. *)
Definition toordinal (d : date) : Z :=
  days_before_year (year d) + days_before_month (year d) (month d) + day d.

(** The day before and the day after; there is none before 1 January of
    year 1 and none after 31 December 9999. *)
Definition pred_day (d : date) : result date :=
  if 1 <? day d then Ok (Date (year d) (month d) (day d - 1))
  else if 1 <? month d then
    Ok (Date (year d) (month d - 1) (days_in_month (year d) (month d - 1)))
  else if 1 <? year d then Ok (Date (year d - 1) 12 31)
  else OverflowError.

Definition succ_day (d : date) : result date :=
  if day d <? days_in_month (year d) (month d) then
    Ok (Date (year d) (month d) (day d + 1))
  else if month d <? 12 then Ok (Date (year d) (month d + 1) 1)
  else if year d <? 9999 then Ok (Date (year d + 1) 1 1)
  else OverflowError.

Fixpoint iter_days (step : date → result date) (n : nat) (d : date) : result date :=
  match n with
  | O => Ok d
  | S n => bind (step d) (iter_days step n)
  end.

(** [d + datetime.timedelta(days=k)]: [k] days on, or back when [k] is
    negative. *)
Definition add_days (d : date) (k : Z) : result date :=
  if 0 <=? k then iter_days succ_day (Z.to_nat k) d
  else iter_days pred_day (Z.to_nat (- k)) d.

(** The ordinal of 31 December 9999. *)
Definition max_ordinal : Z := 3652059.

Lemma month_cases m : 1 ≤ m ≤ 12 →
  m = 1 ∨ m = 2 ∨ m = 3 ∨ m = 4 ∨ m = 5 ∨ m = 6 ∨ m = 7 ∨ m = 8 ∨ m = 9
  ∨ m = 10 ∨ m = 11 ∨ m = 12.
Proof. lia. Qed.

Lemma days_in_month_bounds y m : 28 ≤ days_in_month y m ≤ 31.
Proof.
  unfold days_in_month.
  repeat match goal with |- context [if ?b then _ else _] => destruct b end; lia.
Qed.

Lemma days_before_month_succ y m :
  1 ≤ m ≤ 11 →
  days_before_month y (m + 1) = days_before_month y m + days_in_month y m.
Proof.
  intros Hm.
  assert (H : m = 1 ∨ m = 2 ∨ m = 3 ∨ m = 4 ∨ m = 5 ∨ m = 6 ∨ m = 7 ∨ m = 8
              ∨ m = 9 ∨ m = 10 ∨ m = 11) by lia.
  unfold days_before_month, days_in_month.
  repeat (destruct H as [-> | H]; [destruct (is_leap y); reflexivity|]).
  subst m. destruct (is_leap y); reflexivity.
Qed.

Lemma days_before_year_succ y :
  days_before_year (y + 1) = days_before_year y + 365 + (if is_leap y then 1 else 0).
Proof.
  unfold days_before_year, is_leap. cbv zeta.
  replace (y + 1 - 1) with y by lia.
  destruct (Z.eqb_spec (y mod 4) 0), (Z.eqb_spec (y mod 100) 0),
    (Z.eqb_spec (y mod 400) 0); cbn [andb orb negb];
    Z.div_mod_to_equations; lia.
Qed.

Lemma toordinal_bounds d : valid d → 1 ≤ toordinal d ≤ max_ordinal.
Proof.
  destruct d as [y m dd]. unfold valid, toordinal, max_ordinal. cbn [year month day].
  intros (Hy & Hm & Hd).
  pose proof (days_in_month_bounds y m) as Hdim.
  assert (Hbm : 0 ≤ days_before_month y m
                ∧ days_before_month y m + days_in_month y m
                  ≤ 365 + (if is_leap y then 1 else 0)).
  { destruct (month_cases m Hm) as
      [-> | [-> | [-> | [-> | [-> | [-> | [-> | [-> | [-> | [-> | [-> | ->]]]]]]]]]]];
      destruct (is_leap y) eqn:Hl; unfold days_before_month, days_in_month;
      rewrite Hl; vm_compute; split; intro; discriminate. }
  pose proof (days_before_year_succ y) as Hsucc.
  assert (Hby : 0 ≤ days_before_year y ∧ days_before_year (y + 1) ≤ 3652059).
  { unfold days_before_year. cbv zeta. Z.div_mod_to_equations. lia. }
  lia.
Qed.

Lemma pred_day_spec d :
  valid d →
  match pred_day d with
  | Ok d' => valid d' ∧ toordinal d' = toordinal d - 1
  | ValueError => False
  | OverflowError => toordinal d = 1
  end.
Proof.
  destruct d as [y m dd]. unfold valid, pred_day, toordinal. cbn [year month day].
  intros (Hy & Hm & Hd).
  destruct (Z.ltb_spec 1 dd) as [H1 | H1]; cbn [year month day].
  { split; [|lia]. repeat split; lia. }
  destruct (Z.ltb_spec 1 m) as [H2 | H2]; cbn [year month day].
  { pose proof (days_in_month_bounds y (m - 1)).
    split; [repeat split; lia|].
    pose proof (days_before_month_succ y (m - 1) ltac:(lia)) as Hs.
    replace (m - 1 + 1) with m in Hs by lia. lia. }
  assert (m = 1) by lia. assert (dd = 1) by lia. subst m dd.
  destruct (Z.ltb_spec 1 y) as [H3 | H3]; cbn [year month day].
  { split.
    - repeat split; try lia. unfold days_in_month. cbn. lia.
    - pose proof (days_before_year_succ (y - 1)) as Hs.
      replace (y - 1 + 1) with y in Hs by lia.
      unfold days_before_month. cbn [Z.to_nat nth Z.ltb andb Z.sub Z.compare Pos.compare Pos.compare_cont Z.pos_sub Z.add Z.opp].
      change (2 <? 12) with true. change (2 <? 1) with false. cbn [andb].
      change (Z.to_nat (12 - 1)) with 11%nat. change (Z.to_nat (1 - 1)) with 0%nat.
      cbn [nth]. destruct (is_leap (y - 1)); lia. }
  assert (y = 1) by lia. subst y. reflexivity.
Qed.

Lemma succ_day_spec d :
  valid d →
  match succ_day d with
  | Ok d' => valid d' ∧ toordinal d' = toordinal d + 1
  | ValueError => False
  | OverflowError => toordinal d = max_ordinal
  end.
Proof.
  destruct d as [y m dd]. unfold valid, succ_day, toordinal. cbn [year month day].
  intros (Hy & Hm & Hd).
  destruct (Z.ltb_spec dd (days_in_month y m)) as [H1 | H1]; cbn [year month day].
  { split; [|lia]. repeat split; lia. }
  assert (dd = days_in_month y m) by lia. subst dd.
  destruct (Z.ltb_spec m 12) as [H2 | H2]; cbn [year month day].
  { pose proof (days_in_month_bounds y (m + 1)).
    split; [repeat split; lia|].
    pose proof (days_before_month_succ y m ltac:(lia)) as Hs. lia. }
  assert (m = 12) by lia. subst m.
  destruct (Z.ltb_spec y 9999) as [H3 | H3]; cbn [year month day].
  { split.
    - repeat split; try lia. unfold days_in_month. cbn. lia.
    - pose proof (days_before_year_succ y) as Hs.
      unfold days_before_month, days_in_month.
      change (2 <? 12) with true. change (2 <? 1) with false. cbn [andb].
      change (Z.to_nat (12 - 1)) with 11%nat. change (Z.to_nat (1 - 1)) with 0%nat.
      change (12 =? 2) with false.
      cbn [nth orb]. change (12 =? 4) with false. change (12 =? 6) with false.
      change (12 =? 9) with false. change (12 =? 11) with false. cbn [orb].
      destruct (is_leap y); lia. }
  assert (y = 9999) by lia. subst y. reflexivity.
Qed.

Lemma iter_pred_spec n d :
  valid d → Z.of_nat n < toordinal d →
  ∃ d', iter_days pred_day n d = Ok d' ∧ valid d'
        ∧ toordinal d' = toordinal d - Z.of_nat n.
Proof.
  revert d. induction n as [|n IH]; intros d Hv Hn.
  - exists d. split; [reflexivity|]. split; [exact Hv | lia].
  - cbn [iter_days]. pose proof (pred_day_spec d Hv) as Hp.
    destruct (pred_day d) as [d1| |]; [|contradiction|lia].
    destruct Hp as [Hv1 Ho1].
    destruct (IH d1 Hv1 ltac:(lia)) as (d' & Hd' & Hv' & Ho').
    exists d'. cbn [bind]. split; [exact Hd'|]. split; [exact Hv' | lia].
Qed.

Lemma iter_succ_spec n d :
  valid d → toordinal d + Z.of_nat n ≤ max_ordinal →
  ∃ d', iter_days succ_day n d = Ok d' ∧ valid d'
        ∧ toordinal d' = toordinal d + Z.of_nat n.
Proof.
  revert d. induction n as [|n IH]; intros d Hv Hn.
  - exists d. split; [reflexivity|]. split; [exact Hv | lia].
  - cbn [iter_days]. pose proof (succ_day_spec d Hv) as Hp.
    destruct (succ_day d) as [d1| |]; [|contradiction|lia].
    destruct Hp as [Hv1 Ho1].
    destruct (IH d1 Hv1 ltac:(lia)) as (d' & Hd' & Hv' & Ho').
    exists d'. cbn [bind]. split; [exact Hd'|]. split; [exact Hv' | lia].
Qed.

Lemma add_days_spec d k :
  valid d → 1 ≤ toordinal d + k ≤ max_ordinal →
  ∃ d', add_days d k = Ok d' ∧ valid d' ∧ toordinal d' = toordinal d + k.
Proof.
  intros Hv Hk. unfold add_days. destruct (Z.leb_spec 0 k) as [H | H].
  - destruct (iter_succ_spec (Z.to_nat k) d Hv ltac:(lia)) as (d' & H1 & H2 & H3).
    exists d'. split; [exact H1|]. split; [exact H2 | lia].
  - destruct (iter_pred_spec (Z.to_nat (- k)) d Hv ltac:(lia)) as (d' & H1 & H2 & H3).
    exists d'. split; [exact H1|]. split; [exact H2 | lia].
Qed.

(** [d - datetime.timedelta(days=n)] *)
Definition sub_days (d : date) (n : Z) : result date := add_days d (- n).

(** [get_date_range_from_selection]; [today] is [datetime.date.today()].
    The dict of ranges is built in full before the selection is looked
    up. *)
Definition get_date_range_from_selection (today : date) (selection : string)
    : result (date * date * option string) :=
  bind (sub_days today 7) (λ last7,
  bind (sub_days today 30) (λ last30,
  bind (make_date (year today) 1 1) (λ this_year,
  bind (make_date 2019 1 1) (λ all_time,
  let ranges :=
    [("Today", (today, today, Some "yesterday"));
     ("Last 7 Days", (last7, today, Some "prior 7 days"));
     ("Last 30 Days", (last30, today, Some "prior 30 days"));
     ("This Year", (this_year, today, Some "same period last year"));
     ("All Time", (all_time, today, None))] in
  Ok (default (today, today, None) (Database.assoc selection ranges)))))).

(** [get_previous_period] *)
Definition get_previous_period (start_date end_date : date) (selection : string)
    : result (option date * option date) :=
  if bool_decide (selection = "All Time") then Ok (None, None)
  else
    let days_in_period := toordinal end_date - toordinal start_date + 1 in
    if bool_decide (selection = "This Year") then
      bind (replace_year end_date (year end_date - 1)) (λ prev_end,
      bind (replace_year start_date (year start_date - 1)) (λ prev_start,
      Ok (Some prev_start, Some prev_end)))
    else
      bind (sub_days start_date 1) (λ prev_end,
      bind (sub_days prev_end (days_in_period - 1)) (λ prev_start,
      Ok (Some prev_start, Some prev_end))).

(** For a selection other than "This Year" and "All Time" the previous
    period ends on the day before the period starts and has as many days
    as the period, provided it does not reach back beyond the first day of
    the calendar. *)
Theorem get_previous_period_adjacent (start_date end_date : date)
    (selection : string) :
  valid start_date → valid end_date →
  selection ≠ "All Time" → selection ≠ "This Year" →
  toordinal start_date ≤ toordinal end_date →
  toordinal end_date - toordinal start_date + 1 < toordinal start_date →
  ∃ prev_start prev_end,
    get_previous_period start_date end_date selection
      = Ok (Some prev_start, Some prev_end)
    ∧ valid prev_start ∧ valid prev_end
    ∧ toordinal prev_end = toordinal start_date - 1
    ∧ toordinal prev_end - toordinal prev_start
      = toordinal end_date - toordinal start_date.
Proof.
  intros Hs He Hall Hyear Hle Hfit.
  pose proof (toordinal_bounds _ Hs) as Hbs.
  pose proof (toordinal_bounds _ He) as Hbe.
  unfold get_previous_period.
  rewrite (bool_decide_eq_false_2 _ Hall), (bool_decide_eq_false_2 _ Hyear).
  cbv zeta. unfold sub_days.
  destruct (add_days_spec start_date (Z.opp 1) Hs ltac:(lia)) as (pe & Hpe & Hvpe & Hope).
  rewrite Hpe. cbn [bind].
  destruct (add_days_spec pe (- (toordinal end_date - toordinal start_date + 1 - 1))
              Hvpe ltac:(lia)) as (ps & Hps & Hvps & Hops).
  rewrite Hps. cbn [bind].
  exists ps, pe. split; [reflexivity|]. split; [exact Hvps|].
  split; [exact Hvpe|]. split; lia.
Qed.

Lemma valid_2024_03_01 : valid (Date 2024 3 1).
Proof. repeat split; vm_compute; intro; discriminate. Qed.

Lemma valid_2024_03_07 : valid (Date 2024 3 7).
Proof. repeat split; vm_compute; intro; discriminate. Qed.

(** The week from 1 March 2024 to 7 March 2024 is compared with the week
    from 23 February to 29 February (an instance of
    [get_previous_period_adjacent]). *)
Lemma get_previous_period_adjacent_witness :
  get_previous_period (Date 2024 3 1) (Date 2024 3 7) "Last 7 Days"
    = Ok (Some (Date 2024 2 23), Some (Date 2024 2 29))
  ∧ ∃ prev_start prev_end,
      get_previous_period (Date 2024 3 1) (Date 2024 3 7) "Last 7 Days"
        = Ok (Some prev_start, Some prev_end)
      ∧ toordinal prev_end = toordinal (Date 2024 3 1) - 1.
Proof.
  split; [vm_compute; reflexivity|].
  destruct (get_previous_period_adjacent (Date 2024 3 1) (Date 2024 3 7)
              "Last 7 Days" valid_2024_03_01 valid_2024_03_07)
    as (ps & pe & H & _ & _ & Ho & _).
  - discriminate.
  - discriminate.
  - vm_compute. intro. discriminate.
  - vm_compute. reflexivity.
  - exists ps, pe. split; [exact H | exact Ho].
Defined.

Lemma leap_pred_not_leap y : is_leap y = true → is_leap (y - 1) = false.
Proof.
  unfold is_leap. rewrite andb_true_iff, andb_false_iff.
  intros [H _]. left. apply Z.eqb_eq in H. apply Z.eqb_neq.
  Z.div_mod_to_equations. lia.
Qed.

Lemma make_date_valid y m d : valid (Date y m d) → make_date y m d = Ok (Date y m d).
Proof.
  unfold valid, make_date. cbn [year month day]. intros (Hy & Hm & Hd).
  rewrite !(proj2 (Z.leb_le _ _)) by lia. reflexivity.
Qed.

Lemma make_date_invalid_day y m d :
  days_in_month y m < d → make_date y m d = ValueError.
Proof.
  unfold make_date. intros H.
  rewrite (proj2 (Z.leb_gt d (days_in_month y m)) H).
  rewrite !andb_false_r. reflexivity.
Qed.

(** The date is a 29th of February. *)
Definition feb29 (d : date) : Prop := month d = 2 ∧ day d = 29.

Lemma replace_year_pred d :
  valid d → 1 < year d → ¬ feb29 d →
  replace_year d (year d - 1) = Ok (Date (year d - 1) (month d) (day d)).
Proof.
  destruct d as [y m dd]. unfold valid, feb29, replace_year. cbn [year month day].
  intros (Hy & Hm & Hd) Hy1 Hf. apply make_date_valid.
  unfold valid. cbn [year month day]. split; [lia|]. split; [lia|].
  split; [lia|]. revert Hd. unfold days_in_month.
  destruct (Z.eqb_spec m 2) as [-> | Hm2].
  - destruct (is_leap y), (is_leap (y - 1)); lia.
  - tauto.
Qed.

Lemma replace_year_feb29 d :
  valid d → feb29 d → replace_year d (year d - 1) = ValueError.
Proof.
  destruct d as [y m dd]. unfold valid, feb29, replace_year. cbn [year month day].
  intros (Hy & Hm & Hd) [-> ->]. apply make_date_invalid_day.
  unfold days_in_month in *. change (2 =? 2) with true in *. cbv iota in *.
  destruct (is_leap y) eqn:Hl; [|lia].
  rewrite (leap_pred_not_leap y Hl). lia.
Qed.

(** With the selection "This Year", whose period runs from 1 January to
    today, the previous period runs from 1 January of the year before to
    the same day of the year before; on a 29th of February there is no such
    day, and the call raises [ValueError]. *)
Theorem get_previous_period_this_year (today : date) :
  valid today → 1 < year today →
  (feb29 today →
     get_previous_period (Date (year today) 1 1) today "This Year" = ValueError)
  ∧ (¬ feb29 today →
     get_previous_period (Date (year today) 1 1) today "This Year"
       = Ok (Some (Date (year today - 1) 1 1),
             Some (Date (year today - 1) (month today) (day today)))).
Proof.
  intros Hv Hy. unfold get_previous_period.
  rewrite (bool_decide_eq_false_2 ("This Year" = "All Time")) by discriminate.
  rewrite (bool_decide_eq_true_2 ("This Year" = "This Year")) by reflexivity.
  cbv zeta. split.
  - intros Hf. rewrite (replace_year_feb29 today Hv Hf). reflexivity.
  - intros Hf. rewrite (replace_year_pred today Hv Hy Hf). cbn [bind].
    assert (Hjan : valid (Date (year today) 1 1)).
    { destruct Hv as (H1 & _ & _). unfold valid. cbn [year month day].
      split; [exact H1|]. unfold days_in_month. cbn. lia. }
    rewrite (replace_year_pred _ Hjan).
    + reflexivity.
    + exact Hy.
    + unfold feb29. cbn [month]. lia.
Qed.

Lemma valid_2024_02_29 : valid (Date 2024 2 29).
Proof. repeat split; vm_compute; intro; discriminate. Qed.

(** On 29 February 2024 the comparison with last year fails (an instance
    of [get_previous_period_this_year]). *)
Lemma get_previous_period_this_year_witness :
  valid (Date 2024 2 29) ∧ 1 < year (Date 2024 2 29)
  ∧ get_previous_period (Date 2024 1 1) (Date 2024 2 29) "This Year" = ValueError.
Proof.
  split; [exact valid_2024_02_29|]. split; [reflexivity|].
  apply (get_previous_period_this_year (Date 2024 2 29) valid_2024_02_29 eq_refl).
  split; reflexivity.
Defined.

(** The number of days the selection reaches back from today. *)
Definition reach : list (string * Z) :=
  [("Today", 0); ("Last 7 Days", 7); ("Last 30 Days", 30)].

(** The sidebar of [run]: for "Today", "Last 7 Days" and "Last 30 Days",
    reaching back n = 0, 7, 30 days, the period runs from today - n to
    today, n + 1 days in all, and the previous period is the n + 1 days
    before it, from today - 2n - 1 to today - n - 1. *)
Theorem selection_periods (today : date) (selection : string) (n : Z) :
  valid today → 61 < toordinal today → (selection, n) ∈ reach →
  ∃ start_date label prev_start prev_end,
    get_date_range_from_selection today selection
      = Ok (start_date, today, label)
    ∧ get_previous_period start_date today selection
      = Ok (Some prev_start, Some prev_end)
    ∧ toordinal start_date = toordinal today - n
    ∧ toordinal prev_end = toordinal today - n - 1
    ∧ toordinal prev_start = toordinal today - 2 * n - 1.
Proof.
  intros Hv Hlate Hsel.
  pose proof (toordinal_bounds _ Hv) as Hb.
  destruct (add_days_spec today (Z.opp 7) Hv ltac:(lia)) as (d7 & H7 & Hv7 & Ho7).
  destruct (add_days_spec today (Z.opp 30) Hv ltac:(lia)) as (d30 & H30 & Hv30 & Ho30).
  assert (Hjan : make_date (year today) 1 1 = Ok (Date (year today) 1 1)).
  { apply make_date_valid. destruct Hv as (H1 & _ & _).
    unfold valid. cbn [year month day]. split; [exact H1|].
    unfold days_in_month. cbn. lia. }
  assert (Hrange : ∀ sel,
    get_date_range_from_selection today sel =
      Ok (default (today, today, None)
            (Database.assoc sel
               [("Today", (today, today, Some "yesterday"));
                ("Last 7 Days", (d7, today, Some "prior 7 days"));
                ("Last 30 Days", (d30, today, Some "prior 30 days"));
                ("This Year", (Date (year today) 1 1, today,
                               Some "same period last year"));
                ("All Time", (Date 2019 1 1, today, None))]))).
  { intros sel. unfold get_date_range_from_selection, sub_days.
    rewrite H7, H30, Hjan. reflexivity. }
  assert (Hcase : ∀ start_date,
    valid start_date → toordinal start_date = toordinal today - n →
    0 ≤ n ≤ 30 → selection ≠ "All Time" → selection ≠ "This Year" →
    ∃ prev_start prev_end,
      get_previous_period start_date today selection
        = Ok (Some prev_start, Some prev_end)
      ∧ toordinal start_date = toordinal today - n
      ∧ toordinal prev_end = toordinal today - n - 1
      ∧ toordinal prev_start = toordinal today - 2 * n - 1).
  { intros s Hvs Hos Hn Hall Hyear. unfold get_previous_period.
    rewrite (bool_decide_eq_false_2 _ Hall), (bool_decide_eq_false_2 _ Hyear).
    cbv zeta. unfold sub_days.
    destruct (add_days_spec s (Z.opp 1) Hvs ltac:(lia)) as (pe & Hpe & Hvpe & Hope).
    rewrite Hpe. cbn [bind].
    destruct (add_days_spec pe (- (toordinal today - toordinal s + 1 - 1))
                Hvpe ltac:(lia)) as (ps & Hps & Hvps & Hops).
    rewrite Hps. cbn [bind]. exists ps, pe.
    split; [reflexivity|]. split; [exact Hos|]. split; lia. }
  unfold reach in Hsel. rewrite !elem_of_cons in Hsel.
  destruct Hsel as [Heq | [Heq | [Heq | Hnil]]]; [| | |inversion Hnil];
    injection Heq as -> ->.
  - destruct (Hcase today Hv ltac:(lia) ltac:(lia)) as (ps & pe & Hp);
      [discriminate | discriminate|].
    exists today, (Some "yesterday"), ps, pe.
    split; [rewrite Hrange; reflexivity | exact Hp].
  - destruct (Hcase d7 Hv7 ltac:(lia) ltac:(lia)) as (ps & pe & Hp);
      [discriminate | discriminate|].
    exists d7, (Some "prior 7 days"), ps, pe.
    split; [rewrite Hrange; reflexivity | exact Hp].
  - destruct (Hcase d30 Hv30 ltac:(lia) ltac:(lia)) as (ps & pe & Hp);
      [discriminate | discriminate|].
    exists d30, (Some "prior 30 days"), ps, pe.
    split; [rewrite Hrange; reflexivity | exact Hp].
Qed.

(** On 7 March 2024, "Last 7 Days" is the eight days from 29 February, and
    is compared with the eight days from 21 February to 28 February (an
    instance of [selection_periods]). *)
Lemma selection_periods_witness :
  get_date_range_from_selection (Date 2024 3 7) "Last 7 Days"
    = Ok (Date 2024 2 29, Date 2024 3 7, Some "prior 7 days")
  ∧ get_previous_period (Date 2024 2 29) (Date 2024 3 7) "Last 7 Days"
    = Ok (Some (Date 2024 2 21), Some (Date 2024 2 28))
  ∧ ∃ start_date,
      (get_date_range_from_selection (Date 2024 3 7) "Last 7 Days"
         = Ok (start_date, Date 2024 3 7, Some "prior 7 days"))
      ∧ toordinal start_date = toordinal (Date 2024 3 7) - 7.
Proof.
  split; [vm_compute; reflexivity|]. split; [vm_compute; reflexivity|].
  destruct (selection_periods (Date 2024 3 7) "Last 7 Days" 7 valid_2024_03_07)
    as (s & label & ps & pe & Hr & _ & Hs & _).
  - vm_compute. reflexivity.
  - unfold reach. right. left.
  - exists s. split; [|exact Hs].
    rewrite Hr. f_equal. f_equal.
    assert (H : Ok (s, Date 2024 3 7, label)
                = Ok (Date 2024 2 29, Date 2024 3 7, Some "prior 7 days")).
    { rewrite <- Hr. vm_compute. reflexivity. }
    injection H as _ H. exact H.
Defined.

End Main.


(** * app/tabs/danger_rankings.py: the danger table *)

Module DangerRankings.

(** One row of the table; [key] is the index (the road or the county). *)
Record stats_row := StatsRow {
  key : string;
  Total : nat;
  Major : Z;
  Moderate : Z;
  Minor : Z;
  Score : Z
}.

Section DangerTable.

(** The grouping column, [crashes[group_col]]. *)
Variable group_col : event → option string.

(** The keys of [crashes.groupby(group_col)]: the values of the column
    that are not missing, each once, in increasing order. *)
Definition table_keys (crashes : list event) : list string :=
  Database.distinct_sorted (omap group_col crashes).

(** The rows of the group with key [k]. *)
Definition group_of (crashes : list event) (k : string) : list event :=
  List.filter (λ r, bool_decide (group_col r = Some k)) crashes.

(** The four aggregates of one group, and the score computed from them:
    [stats["Major"] * 3 + stats["Moderate"] * 2 + stats["Minor"] * 1]. *)
Definition agg (crashes : list event) (k : string) : stats_row :=
  let rows := group_of crashes k in
  let x := severity <$> rows in
  let major := Calculations.mask_sum (Calculations.series_eq x "Major") in
  let moderate := Calculations.mask_sum (Calculations.series_eq x "Moderate") in
  let minor := Calculations.mask_sum (Calculations.series_eq x "Minor") in
  StatsRow k (length rows) major moderate minor
    (major * 3 + moderate * 2 + minor * 1).

Fixpoint insert_by_score (r : stats_row) (rows : list stats_row)
    : list stats_row :=
  match rows with
  | [] => [r]
  | x :: rest =>
      if Score x <=? Score r then r :: rows
      else x :: insert_by_score r rest
  end.

(** [sort_values("Score", ascending=False)].  pandas leaves the order of
    rows with equal scores open; here they keep the order of the keys. *)
Definition sort_by_score_desc (rows : list stats_row) : list stats_row :=
  foldr insert_by_score [] rows.

(** The frame [_display_danger_table] hands to the figure. *)
Definition danger_table (crashes : list event) : list stats_row :=
  take 15 (sort_by_score_desc (agg crashes <$> table_keys crashes)).

Lemma insert_by_score_perm r rows : insert_by_score r rows ≡ₚ r :: rows.
Proof.
  induction rows as [|x rest IH]; cbn [insert_by_score]; [reflexivity|].
  destruct (Score x <=? Score r); [reflexivity|].
  rewrite IH. apply Permutation_swap.
Qed.

Lemma sort_by_score_desc_perm rows : sort_by_score_desc rows ≡ₚ rows.
Proof.
  induction rows as [|r rows IH]; [reflexivity|].
  cbn [sort_by_score_desc foldr]. fold (sort_by_score_desc rows).
  rewrite insert_by_score_perm, IH. reflexivity.
Qed.

Lemma insert_by_score_sorted r rows :
  StronglySorted (λ a b, Score b ≤ Score a) rows →
  StronglySorted (λ a b, Score b ≤ Score a) (insert_by_score r rows).
Proof.
  induction rows as [|x rest IH]; intros Hs; cbn [insert_by_score].
  - repeat constructor.
  - apply StronglySorted_inv in Hs as [Hrest Hx].
    destruct (Z.leb_spec (Score x) (Score r)) as [Hrx | Hrx].
    + constructor; [constructor; assumption|].
      constructor; [exact Hrx|].
      rewrite Forall_forall in Hx |- *. intros y Hy. specialize (Hx y Hy). lia.
    + constructor; [apply IH; exact Hrest|].
      rewrite Forall_forall. intros y Hy.
      rewrite insert_by_score_perm in Hy. apply elem_of_cons in Hy as [-> | Hy].
      * lia.
      * rewrite Forall_forall in Hx. apply Hx. exact Hy.
Qed.

Lemma sort_by_score_desc_sorted rows :
  StronglySorted (λ a b, Score b ≤ Score a) (sort_by_score_desc rows).
Proof.
  induction rows as [|r rows IH]; [constructor|].
  cbn [sort_by_score_desc foldr]. apply insert_by_score_sorted. exact IH.
Qed.

Lemma sorted_app_le (l1 l2 : list stats_row) x y :
  StronglySorted (λ a b, Score b ≤ Score a) (l1 ++ l2) →
  x ∈ l1 → y ∈ l2 → Score y ≤ Score x.
Proof.
  induction l1 as [|z l1 IH]; intros Hs Hx Hy; [inversion Hx|].
  cbn [app] in Hs. apply StronglySorted_inv in Hs as [Hrest Hz].
  apply elem_of_cons in Hx as [-> | Hx].
  - rewrite Forall_forall in Hz. apply Hz. apply elem_of_app. right. exact Hy.
  - exact (IH Hrest Hx Hy).
Qed.

Lemma severity_counts_le (x : list (option string)) :
  Calculations.severity_count "Major" x
  + Calculations.severity_count "Moderate" x
  + Calculations.severity_count "Minor" x ≤ Z.of_nat (length x).
Proof.
  unfold Calculations.severity_count.
  induction x as [|v x IH]; [cbn; lia|].
  rewrite !filter_cons. cbn [length].
  destruct (decide (v = Some "Major")) as [-> | H1].
  - destruct (decide (Some "Major" = Some "Moderate")) as [H | _]; [discriminate H|].
    destruct (decide (Some "Major" = Some "Minor")) as [H | _]; [discriminate H|].
    cbn [length]. lia.
  - destruct (decide (v = Some "Moderate")) as [-> | H2].
    + destruct (decide (Some "Moderate" = Some "Minor")) as [H | _]; [discriminate H|].
      cbn [length]. lia.
    + destruct (decide (v = Some "Minor")); cbn [length]; lia.
Qed.

Lemma elem_of_table_keys crashes k :
  k ∈ table_keys crashes ↔ ∃ r, r ∈ crashes ∧ group_col r = Some k.
Proof.
  unfold table_keys.
  rewrite Database.elem_of_distinct_sorted, list_elem_of_omap. reflexivity.
Qed.

(** Every row of the danger table stands for a group that has a crash
    in it; its score is what [calculate_danger_score] gives on the
    severities of the group, and is at most three times the number of its
    crashes.  The table has at most fifteen rows, no key twice, in
    descending order of score, and a group that is left out scores no
    higher than any row shown. *)
Theorem danger_table_spec (crashes : list event) :
  (∀ row, row ∈ danger_table crashes →
     row = agg crashes (key row)
     ∧ (∃ r, r ∈ crashes ∧ group_col r = Some (key row))
     ∧ Total row = length (group_of crashes (key row))
     ∧ Score row
       = Calculations.calculate_danger_score
           (severity <$> group_of crashes (key row))
     ∧ 0 ≤ Score row ≤ 3 * Z.of_nat (Total row))
  ∧ (length (danger_table crashes) ≤ 15)%nat
  ∧ NoDup (key <$> danger_table crashes)
  ∧ StronglySorted (λ a b, Score b ≤ Score a) (danger_table crashes)
  ∧ (∀ k row, k ∈ table_keys crashes → agg crashes k ∉ danger_table crashes →
       row ∈ danger_table crashes → Score (agg crashes k) ≤ Score row).
Proof.
  set (full := sort_by_score_desc (agg crashes <$> table_keys crashes)).
  assert (Hfull : full ≡ₚ agg crashes <$> table_keys crashes)
    by apply sort_by_score_desc_perm.
  assert (Hsorted : StronglySorted (λ a b, Score b ≤ Score a) full)
    by apply sort_by_score_desc_sorted.
  assert (Hsplit : full = danger_table crashes ++ drop 15 full)
    by (symmetry; apply take_drop).
  assert (Hkeys : NoDup (key <$> full)).
  { rewrite Hfull, <- list_fmap_compose.
    rewrite (list_fmap_ext (key ∘ agg crashes) id (table_keys crashes))
      by (intros; reflexivity).
    rewrite list_fmap_id. apply Database.strictly_sorted_NoDup.
    apply Database.distinct_sorted_sorted. }
  split; [|split; [|split; [|split]]].
  - intros row Hrow.
    assert (Hin : row ∈ full).
    { rewrite Hsplit. apply elem_of_app. left. exact Hrow. }
    rewrite Hfull in Hin. apply list_elem_of_fmap in Hin as (k & -> & Hk).
    cbn [agg key]. split; [reflexivity|].
    split; [apply elem_of_table_keys; exact Hk|].
    split; [reflexivity|].
    rewrite Calculations.calculate_danger_score_counts.
    unfold agg. cbv zeta. cbn [Score Total].
    rewrite !Calculations.mask_sum_series_eq.
    pose proof (severity_counts_le (severity <$> group_of crashes k)) as Hle.
    rewrite length_fmap in Hle.
    pose proof (Calculations.severity_count_nonneg "Major"
                  (severity <$> group_of crashes k)).
    pose proof (Calculations.severity_count_nonneg "Moderate"
                  (severity <$> group_of crashes k)).
    pose proof (Calculations.severity_count_nonneg "Minor"
                  (severity <$> group_of crashes k)).
    lia.
  - unfold danger_table. rewrite length_take. lia.
  - rewrite Hsplit, fmap_app in Hkeys. apply NoDup_app in Hkeys as [H _]. exact H.
  - rewrite Hsplit in Hsorted. clear -Hsorted.
    induction (danger_table crashes) as [|x l IH]; [constructor|].
    cbn [app] in Hsorted. apply StronglySorted_inv in Hsorted as [Hrest Hx].
    constructor; [exact (IH Hrest)|].
    rewrite Forall_forall in Hx |- *. intros y Hy. apply Hx.
    apply elem_of_app. left. exact Hy.
  - intros k row Hk Hout Hrow.
    assert (Hin : agg crashes k ∈ full).
    { rewrite Hfull. apply list_elem_of_fmap. exists k. split; [reflexivity | exact Hk]. }
    rewrite Hsplit in Hin. apply elem_of_app in Hin as [Hin | Hin]; [contradiction|].
    rewrite Hsplit in Hsorted. exact (sorted_app_le _ _ _ _ Hsorted Hrow Hin).
Qed.

End DangerTable.

(** Two counties: Jefferson with a major and a minor crash scores 4,
    Mobile with one major crash scores 3; the crash without county is in
    no group. *)
Lemma danger_table_example :
  let crashes :=
    [Database.sample_event 1 "Jefferson" "Major" None None;
     Database.sample_event 2 "Mobile" "Major" None None;
     Database.sample_event 3 "Jefferson" "Minor" None None] in
  danger_table county crashes
    = [StatsRow "Jefferson" 2 1 0 1 4; StatsRow "Mobile" 1 1 0 0 3].
Proof. vm_compute. reflexivity. Qed.

End DangerRankings.


(** * analysis.py: duplicate reports of one incident *)

Module Analysis.

Section DropSameEvents.
Context {D : Type}.

(** [haversine] on the coordinates of two rows (longitude first), the
    product [dist * 3.28], and the comparison [<=], in the arithmetic the
    frame's numbers live in. *)
Variable haversine : Q → Q → Q → Q → D.
Variable times_3_28 : D → D.
Variable le : D → D → bool.
Variable min_distance : D.

(** [df.iloc[i]["Category"] == df.iloc[j]["Category"]]; a missing category
    equals nothing. *)
Definition same_category (ri rj : event) : bool :=
  match category ri, category rj with
  | Some a, Some b => bool_decide (a = b)
  | _, _ => false
  end.

(** [dist_feet <= min_distance]; a distance computed from a missing
    coordinate is not a number, and the comparison is false. *)
Definition within_min_distance (ri rj : event) : bool :=
  match start_longitude ri, start_latitude ri,
        start_longitude rj, start_latitude rj with
  | Some lon1, Some lat1, Some lon2, Some lat2 =>
      le (times_3_28 (haversine lon1 lat1 lon2 lat2)) min_distance
  | _, _, _, _ => false
  end.

(** The two tests of the inner loop. *)
Definition same_event (ri rj : event) : bool :=
  same_category ri rj && within_min_distance ri rj.

(** The body of [for j in range(i + 1, len(df))]. *)
Definition inner_step (df : list event) (i : nat) (events_to_drop : gset Z)
    (j : nat) : gset Z :=
  match df !! i, df !! j with
  | Some ri, Some rj =>
      if same_event ri rj then events_to_drop ∪ {[event_id rj]}
      else events_to_drop
  | _, _ => events_to_drop
  end.

(** The body of [for i in range(len(df))]. *)
Definition outer_step (df : list event) (events_to_drop : gset Z) (i : nat)
    : gset Z :=
  fold_left (inner_step df i) (seq (S i) (length df - S i)) events_to_drop.

(** The set [events_to_drop] after the two loops. *)
Definition events_to_drop (df : list event) : gset Z :=
  fold_left (outer_step df) (seq 0 (length df)) ∅.

(** [df[~df["Event ID"].isin(events_to_drop)]] *)
Definition drop_same_events (df : list event) : list event :=
  filter (λ r, event_id r ∉ events_to_drop df) df.

(** A later row repeats an earlier one and carries the identifier [id]. *)
Definition repeated (df : list event) (id : Z) : Prop :=
  ∃ i j ri rj,
    (i < j)%nat ∧ df !! i = Some ri ∧ df !! j = Some rj
    ∧ same_event ri rj = true ∧ event_id rj = id.

Lemma elem_of_inner_step df i acc j id :
  id ∈ inner_step df i acc j ↔
    id ∈ acc
    ∨ ∃ ri rj, df !! i = Some ri ∧ df !! j = Some rj
        ∧ same_event ri rj = true ∧ event_id rj = id.
Proof.
  unfold inner_step.
  destruct (df !! i) as [ri|]; [|naive_solver].
  destruct (df !! j) as [rj|]; [|naive_solver].
  destruct (same_event ri rj) eqn:Hs.
  2:{ split; [auto|]. intros [H | (ri' & rj' & Hi & Hj & Hs' & _)]; [exact H|].
      injection Hi as <-. injection Hj as <-. congruence. }
  rewrite elem_of_union, elem_of_singleton. split.
  - intros [H | ->]; [left; exact H|]. right. exists ri, rj. rewrite Hs. auto.
  - intros [H | (ri' & rj' & Hi & Hj & _ & Hid)]; [left; exact H|].
    injection Hj as <-. right. symmetry. exact Hid.
Qed.

Lemma inner_fold df i js acc id :
  id ∈ fold_left (inner_step df i) js acc ↔
    id ∈ acc
    ∨ ∃ j ri rj, j ∈ js ∧ df !! i = Some ri ∧ df !! j = Some rj
        ∧ same_event ri rj = true ∧ event_id rj = id.
Proof.
  revert acc. induction js as [|j js IH]; intros acc; cbn [fold_left].
  - split; [auto|]. intros [H | (j & ri & rj & Hj & _)]; [exact H | inversion Hj].
  - rewrite IH, elem_of_inner_step. setoid_rewrite elem_of_cons. naive_solver.
Qed.

Lemma elem_of_outer_step df acc i id :
  id ∈ outer_step df acc i ↔
    id ∈ acc
    ∨ ∃ j ri rj, j ∈ seq (S i) (length df - S i) ∧ df !! i = Some ri
        ∧ df !! j = Some rj ∧ same_event ri rj = true ∧ event_id rj = id.
Proof. unfold outer_step. apply inner_fold. Qed.

Lemma outer_fold df seeds acc id :
  id ∈ fold_left (outer_step df) seeds acc ↔
    id ∈ acc
    ∨ ∃ i j ri rj, i ∈ seeds ∧ j ∈ seq (S i) (length df - S i)
        ∧ df !! i = Some ri ∧ df !! j = Some rj
        ∧ same_event ri rj = true ∧ event_id rj = id.
Proof.
  revert acc. induction seeds as [|i seeds IH]; intros acc; cbn [fold_left].
  - split; [auto|]. intros [H | (i & j & ri & rj & Hi & _)]; [exact H | inversion Hi].
  - rewrite IH, elem_of_outer_step. setoid_rewrite elem_of_cons. naive_solver.
Qed.

Lemma elem_of_events_to_drop df id : id ∈ events_to_drop df ↔ repeated df id.
Proof.
  unfold events_to_drop, repeated. rewrite outer_fold. split.
  - intros [H | (i & j & ri & rj & Hi & Hj & Hri & Hrj & Hs & Hid)].
    + apply elem_of_empty in H. contradiction.
    + apply elem_of_seq in Hj. exists i, j, ri, rj.
      split; [lia|]. repeat split; assumption.
  - intros (i & j & ri & rj & Hij & Hri & Hrj & Hs & Hid). right.
    exists i, j, ri, rj.
    pose proof (lookup_lt_Some _ _ _ Hrj) as Hlen.
    split; [apply elem_of_seq; lia|].
    split; [apply elem_of_seq; lia|]. repeat split; assumption.
Qed.

Lemma filter_lookup_pair {A} (P : A → Prop) `{∀ x, Decision (P x)}
    (l : list A) (i j : nat) (a b : A) :
  (i < j)%nat → filter P l !! i = Some a → filter P l !! j = Some b →
  ∃ i' j', (i' < j')%nat ∧ l !! i' = Some a ∧ l !! j' = Some b.
Proof.
  revert i j. induction l as [|x l IH]; intros i j Hij Ha Hb.
  - rewrite filter_nil in Ha. discriminate.
  - rewrite filter_cons in Ha, Hb. destruct (decide (P x)) as [HP | HP].
    + destruct j as [|j]; [lia|]. destruct i as [|i].
      * cbn in Ha. injection Ha as ->. cbn in Hb.
        apply list_elem_of_lookup_2, list_elem_of_filter in Hb as [_ Hb].
        apply list_elem_of_lookup in Hb as (j' & Hj').
        exists 0%nat, (S j'). split; [lia|]. split; [reflexivity | exact Hj'].
      * cbn in Ha, Hb. destruct (IH i j ltac:(lia) Ha Hb) as (i' & j' & H' & Hi' & Hj').
        exists (S i'), (S j'). split; [lia|]. split; assumption.
    + destruct (IH i j Hij Ha Hb) as (i' & j' & H' & Hi' & Hj').
      exists (S i'), (S j'). split; [lia|]. split; assumption.
Qed.

Lemma filter_id {A} (P : A → Prop) `{∀ x, Decision (P x)} (l : list A) :
  (∀ x, x ∈ l → P x) → filter P l = l.
Proof.
  induction l as [|x l IH]; intros Hall; [reflexivity|].
  rewrite filter_cons. destruct (decide (P x)) as [_ | HP].
  - rewrite IH; [reflexivity|]. intros y Hy. apply Hall. right. exact Hy.
  - exfalso. apply HP, Hall. left.
Qed.

(** [drop_same_events] keeps, in their order, the rows whose identifier is
    not that of a row that repeats an earlier one (same category, at most
    [min_distance] feet away), whether or not that earlier row is itself
    dropped.  No row that is kept repeats an earlier row that is kept, so
    a second pass drops nothing. *)
Theorem drop_same_events_spec (df : list event) :
  (∀ r, r ∈ drop_same_events df ↔ r ∈ df ∧ ¬ repeated df (event_id r))
  ∧ drop_same_events df `sublist_of` df
  ∧ (∀ i j ri rj, (i < j)%nat →
       drop_same_events df !! i = Some ri →
       drop_same_events df !! j = Some rj →
       same_event ri rj = false)
  ∧ drop_same_events (drop_same_events df) = drop_same_events df.
Proof.
  assert (Hpair : ∀ i j ri rj, (i < j)%nat →
            drop_same_events df !! i = Some ri →
            drop_same_events df !! j = Some rj →
            same_event ri rj = false).
  { intros i j ri rj Hij Hri Hrj.
    destruct (same_event ri rj) eqn:Hs; [exfalso|reflexivity].
    pose proof Hrj as Hkept.
    apply list_elem_of_lookup_2, list_elem_of_filter in Hkept as [Hkept _].
    apply Hkept, elem_of_events_to_drop.
    destruct (filter_lookup_pair _ df i j ri rj Hij Hri Hrj)
      as (i' & j' & Hij' & Hi' & Hj').
    exists i', j', ri, rj. repeat split; assumption. }
  split; [|split; [|split]].
  - intros r. unfold drop_same_events.
    rewrite list_elem_of_filter, elem_of_events_to_drop. tauto.
  - apply sublist_filter.
  - exact Hpair.
  - unfold drop_same_events at 1. apply filter_id. intros r _ Hin.
    apply elem_of_events_to_drop in Hin
      as (i & j & ri & rj & Hij & Hri & Hrj & Hs & _).
    rewrite (Hpair i j ri rj Hij Hri Hrj) in Hs. discriminate.
Qed.

End DropSameEvents.

(** Three reports of crashes along a meridian, each within reach of the
    next but the first not of the third: the second repeats the first, the
    third repeats the second, and only the first is kept. *)
Lemma drop_same_events_chain :
  let df := [Calculations.crash_at 1 0%Q None;
             Calculations.crash_at 2 (3 # 10)%Q None;
             Calculations.crash_at 3 (6 # 10)%Q None] in
  let dist := λ lon1 lat1 lon2 lat2 : Q, Qabs (lat2 - lat1) in
  drop_same_events dist (λ d, d) Qle_bool (1 # 2)%Q df
    = [Calculations.crash_at 1 0%Q None]
  ∧ same_event dist (λ d, d) Qle_bool (1 # 2)%Q
      (Calculations.crash_at 1 0%Q None)
      (Calculations.crash_at 3 (6 # 10)%Q None) = false.
Proof. split; vm_compute; reflexivity. Qed.

End Analysis.
